(** * gog: HyParView membership and gossip broadcast

  A shallow embedding of the ordered map ([arraymap/arraymap.go]), the
  wire codec ([codec/codec.go]) and the agent's protocol handlers
  (the agent source that goes with [agent/agent_msg.go]), followed by
  the properties of the specification that they decide.

  Conventions.
  - A Go panic is [None] for the map operations and [Panic] for the
    agent's handlers; a loop that would not come back is [Spin].
  - Slice indices and lengths are [nat]; configuration values of Go
    type [int] are [Z]; [uint64] identifiers are [N]; [int64] clock
    values are [Z] with the wrap-around written out.
  - [rand.Intn] reads the next raw draw of a random source and reduces
    it into range.
  - A goroutine started with [go] is an entry of the handler's trace. *)

From Stdlib Require Import ZArith Lia.
From stdpp Require Import base option list gmap numbers strings.

Set Default Proof Using "Type".

(* ===================================================================== *)
(** * Part I: definitions *)
(* ===================================================================== *)

(** ** arraymap/arraymap.go *)

Module arraymap.
Section Defs.
Context {K : Type} `{Countable K} {V : Type}.

Record ArrayMap : Type := MkArrayMap {
  positions : gmap K nat;
  keys : list K;
  values : list V
}.

Definition NewArrayMap : ArrayMap := MkArrayMap ∅ [] [].

Definition Len (a : ArrayMap) : nat := length (keys a).

(** [Add] returns the map and the old value ([None] is Go's nil). *)
Definition Add (key : K) (value : V) (a : ArrayMap)
  : option (ArrayMap * option V) :=
  match positions a !! key with
  | Some p =>
      oldValue ← values a !! p;
      Some (MkArrayMap (positions a) (keys a) (<[p := value]> (values a)),
            Some oldValue)
  | None =>
      let keys' := keys a ++ [key] in
      let values' := values a ++ [value] in
      Some (MkArrayMap (<[key := length keys' - 1]> (positions a))
              keys' values', None)
  end.

Definition GetKeyAt (i : nat) (a : ArrayMap) : option K := keys a !! i.

Definition GetValueAt (i : nat) (a : ArrayMap) : option V := values a !! i.

(** A missing key reads the zero index, as a Go map does. *)
Definition GetValueOf (key : K) (a : ArrayMap) : option V :=
  values a !! default 0 (positions a !! key).

Definition Has (key : K) (a : ArrayMap) : bool :=
  bool_decide (is_Some (positions a !! key)).

Definition removeAt (i : nat) (a : ArrayMap) : option ArrayMap :=
  let lastk := length (keys a) - 1 in
  let lastv := length (values a) - 1 in
  removingKey ← keys a !! i;
  lastKey ← keys a !! lastk;
  vi ← values a !! i;
  vl ← values a !! lastv;
  (* Swap the removing item and the last. *)
  let keys1 := <[lastk := removingKey]> (<[i := lastKey]> (keys a)) in
  let values1 := <[lastv := vi]> (<[i := vl]> (values a)) in
  (* Update the position. *)
  let positions1 := <[lastKey := i]> (positions a) in
  (* Removing. *)
  Some (MkArrayMap (delete removingKey positions1)
          (take (length keys1 - 1) keys1)
          (take (length values1 - 1) values1)).

Definition Remove (key : K) (a : ArrayMap) : option (ArrayMap * bool) :=
  match positions a !! key with
  | Some p => a' ← removeAt p a; Some (a', true)
  | None => Some (a, false)
  end.

Definition RemoveAll (a : ArrayMap) : ArrayMap := MkArrayMap ∅ [] [].

Definition Values (a : ArrayMap) : list V := values a.

(** The entries in slot order. *)
Definition entries (a : ArrayMap) : list (K * V) := zip (keys a) (values a).

(** Representation invariant: the two slices run in parallel and the
    position table is exactly the inverse of the key slice. *)
Definition wf (a : ArrayMap) : Prop :=
  length (keys a) = length (values a) ∧
  ∀ k i, positions a !! k = Some i ↔ keys a !! i = Some k.

(** [key] is in the map with [value]: [Has] says so and [GetValueOf]
    reads it. *)
Definition stored (key : K) (value : V) (a : ArrayMap) : Prop :=
  Has key a = true ∧ GetValueOf key a = Some value.

(** A script of operations, run from left to right. *)
Inductive op : Type :=
| OpAdd (key : K) (value : V)
| OpRemove (key : K).

Definition run_op (o : op) (a : ArrayMap) : option ArrayMap :=
  match o with
  | OpAdd key value => fst <$> Add key value a
  | OpRemove key => fst <$> Remove key a
  end.

Fixpoint run (ops : list op) (a : ArrayMap) : option ArrayMap :=
  match ops with
  | [] => Some a
  | o :: ops' => a' ← run_op o a; run ops' a'
  end.

(** The specification's reading of the same script: an association list
    kept in the order of each key's most recent add. *)
Definition drop_key (key : K) (l : list (K * V)) : list (K * V) :=
  filter (λ kv, kv.1 ≠ key) l.

Definition ordered_op (o : op) (l : list (K * V)) : list (K * V) :=
  match o with
  | OpAdd key value => drop_key key l ++ [(key, value)]
  | OpRemove key => drop_key key l
  end.

Definition ordered_run (ops : list op) (l : list (K * V)) : list (K * V) :=
  foldl (λ l o, ordered_op o l) l ops.






End Defs.
Global Arguments ArrayMap K {_ _} V.
Global Arguments op K V : clear implicits.
End arraymap.

(** ** message/message.proto

  The records hold what the generated getters return (an absent field
  reads as its zero value). *)

Module message.
Inductive Priority : Type := Neighbor_Low | Neighbor_High.

Global Instance Priority_eq_dec : EqDecision Priority.
Proof. solve_decision. Defined.

Record Candidate : Type := MkCandidate {
  Candidate_Id : N;
  Candidate_Addr : string
}.

Record UserMessage : Type := MkUserMessage {
  UserMessage_Id : N;
  UserMessage_Payload : list Z;
  UserMessage_Ts : Z
}.

Record Join : Type := MkJoin { Join_Id : N; Join_Addr : string }.

Record JoinReply : Type := MkJoinReply {
  JoinReply_Id : N;
  JoinReply_Accept : bool
}.

Record ForwardJoin : Type := MkForwardJoin {
  ForwardJoin_Id : N;
  ForwardJoin_SourceId : N;
  ForwardJoin_SourceAddr : string;
  ForwardJoin_Ttl : N
}.

Record Neighbor : Type := MkNeighbor {
  Neighbor_Id : N;
  Neighbor_Addr : string;
  Neighbor_Priority : Priority
}.

Record NeighborReply : Type := MkNeighborReply {
  NeighborReply_Id : N;
  NeighborReply_Accept : bool
}.

Record Disconnect : Type := MkDisconnect { Disconnect_Id : N }.

Record Shuffle : Type := MkShuffle {
  Shuffle_Id : N;
  Shuffle_SourceId : N;
  Shuffle_Addr : string;
  Shuffle_Candidates : list Candidate;
  Shuffle_Ttl : N
}.

Record ShuffleReply : Type := MkShuffleReply {
  ShuffleReply_Id : N;
  ShuffleReply_Candidates : list Candidate
}.

(** A [proto.Message] of this package. *)
Inductive Message : Type :=
| MUserMessage (m : UserMessage)
| MJoin (m : Join)
| MJoinReply (m : JoinReply)
| MForwardJoin (m : ForwardJoin)
| MNeighbor (m : Neighbor)
| MNeighborReply (m : NeighborReply)
| MDisconnect (m : Disconnect)
| MShuffle (m : Shuffle)
| MShuffleReply (m : ShuffleReply).

(** [reflect.Type] of a message. *)
Inductive MsgType : Type :=
| TUserMessage | TJoin | TJoinReply | TForwardJoin | TNeighbor
| TNeighborReply | TDisconnect | TShuffle | TShuffleReply.


Definition MsgType_to_nat (t : MsgType) : nat :=
  match t with
  | TUserMessage => 0 | TJoin => 1 | TJoinReply => 2 | TForwardJoin => 3
  | TNeighbor => 4 | TNeighborReply => 5 | TDisconnect => 6
  | TShuffle => 7 | TShuffleReply => 8
  end.

Definition MsgType_of_nat (n : nat) : option MsgType :=
  match n with
  | 0 => Some TUserMessage | 1 => Some TJoin | 2 => Some TJoinReply
  | 3 => Some TForwardJoin | 4 => Some TNeighbor | 5 => Some TNeighborReply
  | 6 => Some TDisconnect | 7 => Some TShuffle | 8 => Some TShuffleReply
  | _ => None
  end.

Global Instance MsgType_eq_dec : EqDecision MsgType.
Proof. solve_decision. Defined.

Global Program Instance MsgType_countable : Countable MsgType :=
  inj_countable MsgType_to_nat MsgType_of_nat _.
Next Obligation. by intros []. Qed.
End message.

(** ** The byte streams the codec reads (io.Reader) *)

Module io.
Inductive error : Type :=
| EOF
| ErrUnexpectedEOF
| ErrMagic                    (* "magic number unmatch" *)
| ErrMessageNotRegistered
| ErrMessageAlreadyRegistered
| ErrRecovered                (* "Recovery from panic: ..." *)
| ErrProto.                   (* an error of proto.Marshal or proto.Unmarshal *)

(** A reader is the sequence of chunks its successive [Read] calls find
    available; a connection that delivers a frame in one piece is a
    single chunk. *)
Definition Reader : Type := list (list Z).

Definition advance (n : nat) (c : list Z) (rest : Reader) : Reader :=
  match drop n c with
  | [] => rest
  | c' => c' :: rest
  end.

(** [r.Read(p)] with [len(p) = n]: the bytes copied into [p], the
    error, and the reader afterwards. *)
Definition Read (n : nat) (r : Reader) : list Z * option error * Reader :=
  match r with
  | [] => ([], Some EOF, [])
  | c :: rest => (take n c, None, advance n c rest)
  end.

(** [io.ReadFull(r, buf)] with [len(buf) = n]; [got] tells whether
    bytes were read before, which turns [EOF] into [ErrUnexpectedEOF]. *)
Fixpoint ReadFull_from (got : bool) (n : nat) (r : Reader)
  : list Z * option error * Reader :=
  match n with
  | 0 => ([], None, r)
  | S _ =>
      match r with
      | [] => ([], Some (if got then ErrUnexpectedEOF else EOF), [])
      | c :: rest =>
          if decide (n ≤ length c) then (take n c, None, advance n c rest)
          else
            let '(bs, err, r') :=
              ReadFull_from (got || negb (bool_decide (c = [])))
                            (n - length c) rest in
            (c ++ bs, err, r')
      end
  end.

Definition ReadFull (n : nat) (r : Reader) : list Z * option error * Reader :=
  ReadFull_from false n r.

(** All the bytes a reader still holds. *)
Definition pending (r : Reader) : list Z := concat r.
End io.

(** ** encoding/binary, little endian *)

Module binary.
(** [uint32(v)] of a Go [int]: the low 32 bits. *)
Definition to_uint32 (v : Z) : Z := Z.land v (Z.ones 32).

(** [byte(v)]: the low 8 bits. *)
Definition to_byte (v : Z) : Z := Z.land v (Z.ones 8).

Definition PutUint32 (v : Z) : list Z :=
  [to_byte v; to_byte (Z.shiftr v 8); to_byte (Z.shiftr v 16);
   to_byte (Z.shiftr v 24)].

Definition Uint32 (b0 b1 b2 b3 : Z) : Z :=
  Z.lor (Z.lor (Z.lor b0 (Z.shiftl b1 8)) (Z.shiftl b2 16)) (Z.shiftl b3 24).
End binary.

(** ** codec/codec.go *)

Module codec.
Import message io.


Record ProtobufCodec : Type := MkProtobufCodec {
  (* message indices to message types; the indices are uint8 *)
  registeredMessages : gmap Z MsgType;
  (* message types to message indices *)
  messageIndices : gmap MsgType Z
}.

Definition NewProtobufCodec : ProtobufCodec := MkProtobufCodec ∅ ∅.

(** [Register] panics ([None]) on a type registered before. *)
Definition Register (mtype : MsgType) (pc : ProtobufCodec)
  : option ProtobufCodec :=
  match messageIndices pc !! mtype with
  | Some _ => None
  | None =>
      let index := binary.to_byte (Z.of_nat (size (messageIndices pc))) in
      Some (MkProtobufCodec (<[index := mtype]> (registeredMessages pc))
              (<[mtype := index]> (messageIndices pc)))
  end.

Fixpoint RegisterAll (ts : list MsgType) (pc : ProtobufCodec)
  : option ProtobufCodec :=
  match ts with
  | [] => Some pc
  | t :: ts' => pc' ← Register t pc; RegisterAll ts' pc'
  end.

(** The registrations of [NewAgent], in its order. *)
Definition agent_types : list MsgType :=
  [TUserMessage; TJoin; TJoinReply; TForwardJoin; TNeighbor; TNeighborReply;
   TDisconnect; TShuffle; TShuffleReply].

(** The two bytes of [make([]byte, 2)] after a [Read] that copied [got]. *)
Definition magic_buffer (got : list Z) : Z * Z :=
  match got with
  | [] => (0%Z, 0%Z)
  | [m0] => (m0, 0%Z)
  | m0 :: m1 :: _ => (m0, m1)
  end.

Definition magic_ok (magic : Z * Z) : bool :=
  bool_decide (magic.1 = 0xab%Z) && bool_decide (magic.2 = 0xcd%Z).

(** The wire format as the specification words it (§6): the type tags in
    registration order, and the frame
    [AB CD | len:uint32_le | tag:uint8 | payload[len-1]]. *)
Definition tag (t : MsgType) : Z := Z.of_nat (MsgType_to_nat t).

Definition uint32_le (n : Z) : list Z :=
  [n mod 256; (n / 256) mod 256; (n / 65536) mod 256;
   (n / 16777216) mod 256]%Z.

Definition frame (tag : Z) (payload : list Z) : list Z :=
  [0xab; 0xcd]%Z ++ uint32_le (Z.of_nat (length payload) + 1) ++ [tag]
  ++ payload.

Section WithProto.
(** [proto.Marshal] and [proto.Unmarshal] of the generated message code,
    which is not part of the sources; [None] is their error. *)
Variable Marshal : Message → option (list Z).
Variable Unmarshal : MsgType → list Z → option Message.


(** [ReadMsg]: the error or the message, and the reader afterwards. *)
Definition ReadMsg (pc : ProtobufCodec) (r : Reader)
  : (error + Message) * Reader :=
  let '(got, err, r1) := Read 2 r in
  match err with
  | Some e => (inl e, r1)
  | None =>
      if negb (magic_ok (magic_buffer got)) then (inl ErrMagic, r1)
      else
        (* Read the length. *)
        let '(lb, err, r2) := ReadFull 4 r1 in
        match err, lb with
        | Some e, _ => (inl e, r2)
        | None, [b0; b1; b2; b3] =>
            let length := binary.Uint32 b0 b1 b2 b3 in
            (* Read the type and bytes. *)
            let '(b, err, r3) := ReadFull (Z.to_nat length) r2 in
            match err, b with
            | Some e, _ => (inl e, r3)
            | None, [] => (inl ErrRecovered, r3) (* b[0] on an empty slice *)
            | None, index :: payload =>
                match registeredMessages pc !! index with
                | None => (inl ErrMessageNotRegistered, r3)
                | Some mtype =>
                    match Unmarshal mtype payload with
                    | None => (inl ErrProto, r3)
                    | Some msg => (inr msg, r3)
                    end
                end
            end
        | None, _ => (inl ErrRecovered, r2)
        end
  end.
End WithProto.

End codec.

(** ** agent: the state and the handler monad *)

Module agent.
Import arraymap message.

(** Modelled from the spec: [node.Node] (package node is not part of the
    sources): a peer descriptor with a 64-bit identifier, an address and
    an optional transport handle (§3). *)
Record Node : Type := MkNode {
  Id : N;
  Addr : string;
  Conn : option nat
}.

(** The fields of [config.Config] the agent reads or writes; Go [int]s. *)
Record Config : Type := MkConfig {
  AddrStr : string;
  Peers : list string;
  AViewMinSize : Z;
  AViewMaxSize : Z;
  PViewSize : Z;
  Ka : Z;
  Kp : Z;
  ARWL : Z;
  PRWL : Z;
  SRWL : Z;
  MLife : Z;
  PurgeDuration : Z
}.

(** [cfg.Peers = peers] *)
Definition set_Peers (c : Config) (peers : list string) : Config :=
  MkConfig (AddrStr c) peers (AViewMinSize c) (AViewMaxSize c) (PViewSize c)
    (Ka c) (Kp c) (ARWL c) (PRWL c) (SRWL c) (MLife c) (PurgeDuration c).

(** [[sha1.Size]byte] *)
Definition Hash : Type := list Z.

Record agent : Type := MkAgent {
  id : N;
  cfg : Config;
  aView : ArrayMap N Node;
  pView : ArrayMap N Node;
  msgBuffer : ArrayMap Hash Z;
  failmsgBuffer : ArrayMap Hash UserMessage
}.

(** What a handler starts or sends, in program order. *)
Inductive event : Type :=
| GoDisconnect (n : Node)                        (* go ag.disconnect(n) *)
| GoServeNode (n : Node)                         (* go ag.serveNode(node) *)
| GoForwardJoin (nd newNode : Node) (ttl : N)    (* go ag.forwardJoin(..) *)
| GoForwardShuffle (nd : Node) (msg : Shuffle)   (* go ag.forwardShuffle(..) *)
| GoShuffleReply (msg : Shuffle) (candidates : list Candidate)
| GoMsgHandler (payload : list Z)                (* go ag.msgHandler(..) *)
| GoUserMessage (nd : Node) (msg : UserMessage)  (* go ag.userMessage(..) *)
| ReplyJoin (nd : Node) (accept : bool)          (* ag.replyJoin(..) *)
| ReplyNeighbor (nd : Node) (accept : bool)      (* ag.replyNeighbor(..) *)
| SendNeighbor (nd : Node) (priority : Priority) (* ag.neighbor(..) *)
| SendJoin (nd : Node)                           (* ag.join(..) *)
| ConnClose (nd : Node).                         (* nd.Conn.Close() *)

(** What a handler reads but does not change: the raw draws of the
    random source, and how many turns a loop is watched before it is
    given up as not coming back. *)
Record env : Type := MkEnv {
  rand_src : nat → nat;
  budget : nat
}.

Record world : Type := MkWorld {
  w_ag : agent;
  w_draws : nat;          (* draws taken from the random source *)
  w_trace : list event
}.

Inductive outcome (A : Type) : Type :=
| Done (a : A)
| Panic
| Spin.
Global Arguments Done {A} a.
Global Arguments Panic {A}.
Global Arguments Spin {A}.

Definition M (A : Type) : Type := env → world → outcome (A * world).

Global Instance M_ret : MRet M := λ A a _ w, Done (a, w).

Global Instance M_bind : MBind M := λ A B f m e w,
  match m e w with
  | Done (a, w') => f a e w'
  | Panic => Panic
  | Spin => Spin
  end.

Definition panic {A} : M A := λ _ _, Panic.

Definition spin {A} : M A := λ _ _, Spin.

(** A map operation that panics, or a nil pointer that is followed. *)
Definition must {A} (o : option A) : M A :=
  match o with
  | Some a => mret a
  | None => panic
  end.

Definition get : M agent := λ _ w, Done (w_ag w, w).

Definition put (ag : agent) : M unit :=
  λ _ w, Done (tt, MkWorld ag (w_draws w) (w_trace w)).

Definition emit (ev : event) : M unit :=
  λ _ w, Done (tt, MkWorld (w_ag w) (w_draws w) (w_trace w ++ [ev])).

Definition set_aView (v : ArrayMap N Node) : M unit :=
  ag ← get;
  put (MkAgent (id ag) (cfg ag) v (pView ag) (msgBuffer ag) (failmsgBuffer ag)).

Definition set_pView (v : ArrayMap N Node) : M unit :=
  ag ← get;
  put (MkAgent (id ag) (cfg ag) (aView ag) v (msgBuffer ag) (failmsgBuffer ag)).

Definition set_msgBuffer (b : ArrayMap Hash Z) : M unit :=
  ag ← get;
  put (MkAgent (id ag) (cfg ag) (aView ag) (pView ag) b (failmsgBuffer ag)).

(** [rand.Intn(n)]: panics unless [n > 0]. *)
Definition Intn (n : Z) : M nat := λ e w,
  if decide (n ≤ 0)%Z then Panic
  else Done (rand_src e (w_draws w) `mod` Z.to_nat n,
             MkWorld (w_ag w) (S (w_draws w)) (w_trace w)).

(** [for cond { body }], watched for [fuel] turns. *)
Fixpoint while_loop (fuel : nat) (cond : agent → bool) (body : M unit)
  : M unit := λ e w,
  if cond (w_ag w) then
    match fuel with
    | 0 => Spin
    | S fuel' => (body ;; while_loop fuel' cond body) e w
    end
  else Done (tt, w).

Definition while (cond : agent → bool) (body : M unit) : M unit :=
  λ e w, while_loop (budget e) cond body e w.

(** [for _, x := range xs { body x }] *)
Fixpoint for_each {A} (xs : list A) (body : A → M unit) : M unit :=
  match xs with
  | [] => mret tt
  | x :: xs' => body x ;; for_each xs' body
  end.

(** [NewAgent], with the identifier [GenID] drew. *)
Definition NewAgent (c : Config) (genid : N) : agent :=
  MkAgent genid c NewArrayMap NewArrayMap NewArrayMap NewArrayMap.

Definition start (c : Config) (genid : N) : world :=
  MkWorld (NewAgent c genid) 0 [].

(** Modelled from the spec: [ArrayMap.Append], which the agent calls on
    its buffers but arraymap.go does not define; the ordered map of §3
    has one insertion, add(id, node), and [Append] is taken to be it
    with the old value dropped. *)
Definition Append {K} `{Countable K} {V} (key : K) (value : V)
    (a : ArrayMap K V) : option (ArrayMap K V) :=
  fst <$> Add key value a.

(** Go's [int64] arithmetic wraps around. *)
Definition wrap64 (z : Z) : Z := ((z + 2 ^ 63) `mod` 2 ^ 64 - 2 ^ 63)%Z.

(** [time.Millisecond.Nanoseconds()] *)
Definition ms_Nanoseconds : Z := 1000000.

(** ** Helpers of the agent *)

(** [chooseRandomNode]: a random node of the view, [None] for nil. *)
Definition chooseRandomNode (view : ArrayMap N Node) (excludeId : N)
  : M (option Node) :=
  if decide (Len view = 0) then mret None
  else
    index ← Intn (Z.of_nat (Len view));
    nd ← must (GetValueAt index view);
    if decide (Id nd = excludeId) then
      if decide (Len view = 1) then mret None
      else
        nd' ← must (GetValueAt ((index + 1) `mod` Len view) view);
        mret (Some nd')
    else mret (Some nd).

(** [chooseRandomCandidates]: [n] nodes in a row from a random slot. *)
Definition chooseRandomCandidates (view : ArrayMap N Node) (n : Z)
  : M (list Candidate) :=
  if decide (Len view = 0) then mret []
  else
    let n := if decide (Z.of_nat (Len view) ≤ n)%Z
             then Z.of_nat (Len view) else n in
    if decide (n < 0)%Z then panic       (* make([]…, n) *)
    else
      index ← Intn (Z.of_nat (Len view));
      must (mapM (λ i, nd ← GetValueAt ((index + i) `mod` Len view) view;
                       Some (MkCandidate (Id nd) (Addr nd)))
                 (seq 0 (Z.to_nat n))).

(** ** Adding to the views *)

Definition pView_full (ag : agent) : bool :=
  bool_decide (PViewSize (cfg ag) ≤ Z.of_nat (Len (pView ag)))%Z.

Definition aView_full (ag : agent) : bool :=
  bool_decide (AViewMaxSize (cfg ag) ≤ Z.of_nat (Len (aView ag)))%Z.

(** The skip rule of [addNodePassiveView] and [handleShuffle]. *)
Definition skip_passive (ag : agent) (nodeId : N) : bool :=
  bool_decide (nodeId = id ag) || Has nodeId (aView ag)
  || Has nodeId (pView ag).

(** One turn of the passive eviction loop: drop a random node. *)
Definition drop_random_passive : M unit :=
  ag ← get;
  n ← chooseRandomNode (pView ag) 0;
  n ← must n;
  r ← must (Remove (Id n) (pView ag));
  set_pView r.1.

Definition addNodePassiveView (node : Node) : M unit :=
  ag ← get;
  if skip_passive ag (Id node) then mret tt
  else
    while pView_full drop_random_passive;;
    ag ← get;
    r ← must (Add (Id node) node (pView ag));
    set_pView r.1.

(** What [addNodePassiveView node] makes of a passive view [p] within
    its bound: nothing when the node is skipped; with room the node takes
    a new last slot; from a full view one node [m] goes and the node
    comes in, the others staying. *)
Definition passive_after (skip full : bool) (node : Node)
    (p p' : ArrayMap N Node) : Prop :=
  if skip then p' = p
  else if full then
    Len p' = Len p ∧
    ∃ m, m ∈ values p ∧
         ∀ k v, stored k v p' ↔
                (stored k v p ∧ k ≠ Id m) ∨ (k = Id node ∧ v = node)
  else keys p' = keys p ++ [Id node] ∧ values p' = values p ++ [node].

(** One turn of the active eviction loop: a random node is removed, told
    to disconnect and handed to the passive view. *)
Definition demote_random_active : M unit :=
  ag ← get;
  n ← chooseRandomNode (aView ag) 0;
  n ← must n;
  r ← must (Remove (Id n) (aView ag));
  set_aView r.1;;
  emit (GoDisconnect n);;
  addNodePassiveView n.

Definition addNodeActiveView (node : Node) : M unit :=
  ag ← get;
  (if negb (Has (Id node) (aView ag))
   then while aView_full demote_random_active
   else mret tt);;
  emit (GoServeNode node);;
  ag ← get;
  r ← must (Add (Id node) node (aView ag));
  set_aView r.1;;
  match r.2 with
  | Some old => emit (ConnClose old)
  | None => mret tt
  end.

(** ** Protocol handlers

    A handler's network results are arguments: whether a reply could be
    written, what a dial gave, what the peer answered. *)

(** [handleJoin]: [reply_err] is the error of [replyJoin]. *)
Definition handleJoin (conn : nat) (msg : Join) (reply_err : bool) : M bool :=
  let newNode := MkNode (Join_Id msg) (Join_Addr msg) (Some conn) in
  ag ← get;
  let accept := negb (bool_decide (Id newNode = id ag))
                && negb (Has (Id newNode) (aView ag)) in
  emit (ReplyJoin newNode accept);;
  if reply_err then emit (ConnClose newNode);; mret false
  else
    (if accept then
       addNodeActiveView newNode;;
       (* Send ForwardJoin to all other nodes in the active view; the
          new node is the one stored under its own id. *)
       ag ← get;
       for_each (Values (aView ag)) (λ nd,
         if bool_decide (Id nd = Id newNode) then mret tt
         else
           ttl ← Intn (ARWL (cfg ag));
           emit (GoForwardJoin nd newNode
                   (Z.to_N (binary.to_uint32 (Z.of_nat ttl)))))
     else mret tt);;
    mret accept.

(** [handleNeighbor]: [reply_err] is the error of [replyNeighbor]. *)
Definition handleNeighbor (conn : nat) (msg : Neighbor) (reply_err : bool)
  : M bool :=
  let newNode := MkNode (Neighbor_Id msg) (Neighbor_Addr msg) (Some conn) in
  ag ← get;
  let accept :=
    negb (bool_decide (Id newNode = id ag))
    && negb (Has (Id newNode) (aView ag))
    && (bool_decide (Neighbor_Priority msg = Neighbor_High)
        || bool_decide (Z.of_nat (Len (aView ag)) < AViewMaxSize (cfg ag))%Z)
  in
  emit (ReplyNeighbor newNode accept);;
  if reply_err then emit (ConnClose newNode);; mret false
  else
    (if accept then addNodeActiveView newNode else mret tt);;
    mret accept.

(** [handleForwardJoin]: [dial] is what [connect] gave for the newcomer
    ([None] for an error); the answer to the Neighbor request is not
    looked at by the handler. *)
Definition handleForwardJoin (msg : ForwardJoin) (dial : option nat)
  : M unit :=
  let ttl := ForwardJoin_Ttl msg in
  let newNode := MkNode (ForwardJoin_SourceId msg)
                   (ForwardJoin_SourceAddr msg) None in
  ag ← get;
  if bool_decide (ttl = 0%N) || bool_decide (Len (aView ag) ≤ 1) then
    if negb (bool_decide (id ag = Id newNode))
       && negb (Has (Id newNode) (aView ag))
    then
      match dial with
      | None => mret tt
      | Some conn =>
          emit (SendNeighbor (MkNode (Id newNode) (Addr newNode) (Some conn))
                  Neighbor_High)
      end
    else mret tt
  else
    (if bool_decide (Z.of_N ttl = binary.to_uint32 (PRWL (cfg ag)))
     then addNodePassiveView newNode else mret tt);;
    ag ← get;
    node ← chooseRandomNode (aView ag) (ForwardJoin_Id msg);
    match node with
    | Some nd => emit (GoForwardJoin nd newNode (ttl - 1)%N)
    | None => mret tt
    end.

(** The eviction loop of [handleShuffle]: the ids just sent back go
    first, random victims after; [i] counts the reply candidates used. *)
Fixpoint shuffle_make_room (fuel : nat) (replyCandidates : list Candidate)
    (i : nat) : M nat := λ e w,
  if pView_full (w_ag w) then
    match fuel with
    | 0 => Spin
    | S fuel' =>
        match replyCandidates !! i with
        | Some c =>
            (ag ← get;
             r ← must (Remove (Candidate_Id c) (pView ag));
             set_pView r.1;;
             shuffle_make_room fuel' replyCandidates (S i)) e w
        | None =>
            (drop_random_passive;;
             shuffle_make_room fuel' replyCandidates i) e w
        end
    end
  else Done (i, w).

Fixpoint shuffle_integrate (candidates replyCandidates : list Candidate)
    (i : nat) : M unit :=
  match candidates with
  | [] => mret tt
  | candidate :: rest =>
      let node := MkNode (Candidate_Id candidate) (Candidate_Addr candidate)
                    None in
      ag ← get;
      if skip_passive ag (Id node)
      then shuffle_integrate rest replyCandidates i
      else
        i' ← (λ e, shuffle_make_room (budget e) replyCandidates i e);
        ag ← get;
        r ← must (Add (Id node) node (pView ag));
        set_pView r.1;;
        shuffle_integrate rest replyCandidates i'
  end.

Definition handleShuffle (msg : Shuffle) : M unit :=
  ag ← get;
  let ttl := Shuffle_Ttl msg in
  if bool_decide (0 < ttl)%N && bool_decide (1 < Len (aView ag)) then
    node ← chooseRandomNode (aView ag) (Shuffle_Id msg);
    let msg' := MkShuffle (Shuffle_Id msg) (Shuffle_SourceId msg)
                  (Shuffle_Addr msg) (Shuffle_Candidates msg) (ttl - 1)%N in
    (* forwardShuffle follows the node it is given *)
    nd ← must node;
    emit (GoForwardShuffle nd msg')
  else
    let candidates := Shuffle_Candidates msg in
    replyCandidates ← chooseRandomCandidates (pView ag)
                        (Z.of_nat (length candidates));
    emit (GoShuffleReply msg replyCandidates);;
    shuffle_integrate candidates replyCandidates 0.

Definition handleShuffleReply (msg : ShuffleReply) : M unit :=
  for_each (ShuffleReply_Candidates msg) (λ candidate,
    addNodePassiveView
      (MkNode (Candidate_Id candidate) (Candidate_Addr candidate) None)).

Section WithHash.
(** [sha1.Sum] of the Go library. *)
Variable sha1_Sum : list Z → Hash.

Definition hashMessage (msg : list Z) : Hash := sha1_Sum msg.

(** [handleUserMessage]: [now] is [time.Now().UnixNano()]. *)
Definition handleUserMessage (from : Node) (msg : UserMessage) (now : Z)
  : M unit :=
  ag ← get;
  (* Test if the message is stale. *)
  let deadline :=
    wrap64 (UserMessage_Ts msg + wrap64 (ms_Nanoseconds * MLife (cfg ag))) in
  if bool_decide (deadline ≤ now)%Z then mret tt
  else
    (* Test if the message has been already received. *)
    let hash := hashMessage (UserMessage_Payload msg) in
    seen ← (if Has hash (msgBuffer ag) then
              purgeDeadline ← must (GetValueOf hash (msgBuffer ag));
              if bool_decide (now ≤ purgeDeadline)%Z then mret true
              else
                r ← must (Remove hash (msgBuffer ag));
                set_msgBuffer r.1;; mret false
            else mret false);
    if (seen : bool) then mret tt
    else
      let purgeDeadline :=
        wrap64 (now + wrap64 (ms_Nanoseconds * PurgeDuration (cfg ag))) in
      ag ← get;
      b ← must (Append hash purgeDeadline (msgBuffer ag));
      set_msgBuffer b;;
      (* Invoke user's message handler. *)
      emit (GoMsgHandler (UserMessage_Payload msg));;
      ag ← get;
      for_each (Values (aView ag)) (λ nd,
        if negb (bool_decide (Id nd = Id from))
        then emit (GoUserMessage nd msg) else mret tt).

(** User messages handled one after the other, each with its sender and
    its clock reading. *)
Definition handleUserMessages (calls : list (Node * UserMessage * Z))
  : M unit :=
  for_each calls (λ c, handleUserMessage c.1.1 c.1.2 c.2).

(** The calls of the user handler on a payload with hash [h]. *)
Definition is_delivery (h : Hash) (ev : event) : bool :=
  match ev with
  | GoMsgHandler payload => bool_decide (hashMessage payload = h)
  | _ => false
  end.

Definition deliveries (h : Hash) (tr : list event) : nat :=
  length (filter (λ ev, is_delivery h ev = true) tr).
End WithHash.

(** The sends of user messages in a trace: to whom, and what. *)
Definition forwards (tr : list event) : list (Node * UserMessage) :=
  omap (λ ev, match ev with
              | GoUserMessage nd msg => Some (nd, msg)
              | _ => None
              end) tr.

(** The value fits Go's [int64]. *)
Definition in_int64 (z : Z) : Prop := (- 2 ^ 63 ≤ z < 2 ^ 63)%Z.

(** ** Repair, join and broadcast *)

(** [resendFailedMessages]: the failed-message buffer is drained and every
    stored message is sent to every active node. *)
Definition resendFailedMessages : M unit :=
  ag ← get;
  let values := Values (failmsgBuffer ag) in
  put (MkAgent (id ag) (cfg ag) (aView ag) (pView ag) (msgBuffer ag)
         (RemoveAll (failmsgBuffer ag)));;
  for_each values (λ msg,
    for_each (Values (aView ag)) (λ nd, emit (GoUserMessage nd msg))).

(** One answer of the network to a repair attempt: what the dial gave
    ([None] is its error), and the peer's answer to the Neighbor request
    ([None] is an error of [neighbor]). *)
Definition attempt : Type := option nat * option bool.

(** The loop of [replaceActiveNode] over the passive view, one network
    answer per turn; it does not come back while answers are missing. *)
Fixpoint promote_passive (attempts : list attempt) : M unit :=
  ag ← get;
  nd ← chooseRandomNode (pView ag) 0;
  match nd with
  | None => mret tt                         (* No nodes in passive view *)
  | Some nd =>
      match attempts with
      | [] => spin
      | (None, _) :: attempts' =>
          r ← must (Remove (Id nd) (pView ag));
          set_pView r.1;;
          promote_passive attempts'
      | (Some conn, reply) :: attempts' =>
          let nd := MkNode (Id nd) (Addr nd) (Some conn) in
          (* priority := message.Neighbor_Low; under
             [if ag.aView.Len() == 0] stands the bare expression
             [message.Neighbor_High], which assigns nothing *)
          emit (SendNeighbor nd Neighbor_Low);;
          match reply with
          | None => emit (ConnClose nd);; promote_passive attempts'
          | Some false => promote_passive attempts'
          | Some true =>
              ag ← get;
              r ← must (Remove (Id nd) (pView ag));
              set_pView r.1;;
              addNodeActiveView nd
          end
      end
  end.

(** [replaceActiveNode]: a dead active node is replaced by a passive one. *)
Definition replaceActiveNode (node : Node) (attempts : list attempt)
  : M unit :=
  ag ← get;
  r ← must (Remove (Id node) (aView ag));
  if negb r.2 then mret tt
  else
    set_aView r.1;;
    emit (ConnClose node);;
    promote_passive attempts;;
    addNodePassiveView node;;
    resendFailedMessages.

(** One answer of the network to a join attempt.  After a failed dial
    the source has no [continue]: it goes on with the nil connection,
    [join] writes to it and [Close] is called on it.  What package net
    does with a nil connection is not in the sources: [nil_panics] says
    whether that use panics or is answered by an error. *)
Inductive join_answer : Type :=
| DialFailed (nil_panics : bool)       (* connect returned an error *)
| JoinFailed (conn : nat)              (* join returned an error *)
| JoinReplied (conn : nat) (replyId : N) (accept : bool).

(** The loop of [Join] over the peers; [true] stands for a nil error. *)
Fixpoint join_peers (peers : list (string * join_answer)) : M bool :=
  match peers with
  | [] => mret false                               (* ErrNoAvailablePeers *)
  | (peerAddr, answer) :: peers' =>
      match answer with
      | DialFailed nil_panics =>
          let node := MkNode 0 peerAddr None in
          emit (SendJoin node);;
          if nil_panics then panic
          else emit (ConnClose node);; join_peers peers'
      | JoinFailed conn =>
          let node := MkNode 0 peerAddr (Some conn) in
          emit (SendJoin node);;
          emit (ConnClose node);; join_peers peers'
      | JoinReplied conn replyId false =>
          emit (SendJoin (MkNode 0 peerAddr (Some conn)));;
          emit (ConnClose (MkNode replyId peerAddr (Some conn)));;
          join_peers peers'
      | JoinReplied conn replyId true =>
          emit (SendJoin (MkNode 0 peerAddr (Some conn)));;
          addNodeActiveView (MkNode replyId peerAddr (Some conn));;
          mret true
      end
  end.

(** [Join]: the addresses are appended to the peer list of the
    configuration, then the peers are tried in turn. *)
Definition Join (peers : list (string * join_answer)) : M bool :=
  ag ← get;
  put (MkAgent (id ag) (set_Peers (cfg ag) (Peers (cfg ag) ++ peers.*1))
         (aView ag) (pView ag) (msgBuffer ag) (failmsgBuffer ag));;
  join_peers peers.



Section Sending.
Variable sha1_Sum : list Z → Hash.

(** [userMessage]: [write_err] is the error of [WriteMsg]; a message
    that could not be written is kept for a later resend. *)
Definition userMessage (nd : Node) (msg : UserMessage) (write_err : bool)
  : M unit :=
  if write_err then
    (* Record this message, so we can resend it later. *)
    let hash := hashMessage sha1_Sum (UserMessage_Payload msg) in
    ag ← get;
    b ← must (Append hash msg (failmsgBuffer ag));
    put (MkAgent (id ag) (cfg ag) (aView ag) (pView ag) (msgBuffer ag) b);;
    emit (ConnClose nd)
  else mret tt.

(** [Broadcast]: [now] is the timestamp put into the message, and
    [write_err nd] the error of the write to [nd]; [userMessage] is
    called in the loop itself, not started. *)
Definition Broadcast (payload : list Z) (now : Z) (write_err : Node → bool)
  : M unit :=
  ag ← get;
  let msg := MkUserMessage (id ag) payload now in
  for_each (Values (aView ag)) (λ nd, userMessage nd msg (write_err nd)).
End Sending.

(** ** The agent as a transition system

    One step is one handler run to its end: a message dispatched by
    [serveConn] or [serveNode], a repair started by a read error or a
    Disconnect, or a call of the interface. *)
Inductive call : Type :=
| CallHandleJoin (conn : nat) (msg : message.Join) (reply_err : bool)
| CallHandleNeighbor (conn : nat) (msg : Neighbor) (reply_err : bool)
| CallHandleShuffleReply (msg : ShuffleReply)
| CallHandleForwardJoin (msg : ForwardJoin) (dial : option nat)
| CallHandleShuffle (msg : Shuffle)
| CallHandleUserMessage (from : Node) (msg : UserMessage) (now : Z)
| CallReplaceActiveNode (node : Node) (attempts : list attempt)
| CallJoin (peers : list (string * join_answer))
| CallBroadcast (payload : list Z) (now : Z) (write_err : Node → bool).

Definition run_call (sha1_Sum : list Z → Hash) (c : call) : M unit :=
  match c with
  | CallHandleJoin conn msg reply_err =>
      handleJoin conn msg reply_err;; mret tt
  | CallHandleNeighbor conn msg reply_err =>
      handleNeighbor conn msg reply_err;; mret tt
  | CallHandleShuffleReply msg => handleShuffleReply msg
  | CallHandleForwardJoin msg dial => handleForwardJoin msg dial
  | CallHandleShuffle msg => handleShuffle msg
  | CallHandleUserMessage from msg now =>
      handleUserMessage sha1_Sum from msg now
  | CallReplaceActiveNode node attempts => replaceActiveNode node attempts
  | CallJoin peers => Join peers;; mret tt
  | CallBroadcast payload now write_err =>
      Broadcast sha1_Sum payload now write_err
  end.

(** The states an agent started with configuration [c] and identifier
    [genid] can be in after any number of handlers have returned. *)
Inductive reachable (sha1_Sum : list Z → Hash) (c : Config) (genid : N)
  : world → Prop :=
| reachable_start : reachable sha1_Sum c genid (start c genid)
| reachable_step w w' e cl :
    reachable sha1_Sum c genid w →
    run_call sha1_Sum cl e w = Done (tt, w') →
    reachable sha1_Sum c genid w'.

(** ** Invariants of the views *)

(** A handler changes neither the identifier nor the configuration. *)
Definition keeps_config (ag ag' : agent) : Prop :=
  id ag' = id ag ∧ cfg ag' = cfg ag.

Global Instance keeps_config_refl : Reflexive keeps_config.
Proof. by intros ag. Qed.

Global Instance keeps_config_trans : Transitive keeps_config.
Proof. intros a b c [? ?] [? ?]. split; congruence. Qed.

(** What every call keeps: the identifier, and the configuration but
    for its peer list, which [Join] extends. *)
Definition keeps_limits (ag ag' : agent) : Prop :=
  id ag' = id ag ∧ ∃ peers, cfg ag' = set_Peers (cfg ag) peers.

(** |active| ≤ AViewMaxSize and |passive| ≤ PViewSize. *)
Definition within_bounds (ag : agent) : Prop :=
  (Z.of_nat (Len (aView ag)) ≤ AViewMaxSize (cfg ag))%Z ∧
  (Z.of_nat (Len (pView ag)) ≤ PViewSize (cfg ag))%Z.

(** A view is in order when the map is and every node is stored under
    its own id. *)
Definition view_ok (v : ArrayMap N Node) : Prop :=
  wf v ∧ ∀ i k nd, keys v !! i = Some k → values v !! i = Some nd → Id nd = k.

(** A random victim can be taken from a full view of size [max]: the view
    is not empty, and [chooseRandomNode(view, 0)] does not come back nil
    because the only node has id 0. *)
Definition can_evict (max : Z) (v : ArrayMap N Node) : Prop :=
  (2 ≤ max)%Z ∨ ((1 ≤ max)%Z ∧ 0%N ∉ keys v).

(** What every handler keeps: the configuration, and the bounds if they
    held. *)
Definition bounded_step (ag ag' : agent) : Prop :=
  keeps_config ag ag' ∧ (within_bounds ag → within_bounds ag').

(** No id in both views, and the agent's own id in neither. *)
Definition views_disjoint (ag : agent) : Prop :=
  (∀ k, k ∈ keys (aView ag) → k ∉ keys (pView ag)) ∧
  (id ag ∉ keys (aView ag)) ∧ (id ag ∉ keys (pView ag)).
End agent.

(** ** The configuration the flags of [ParseConfig] default to *)
Module config.
Import agent.
Definition default : Config :=
  MkConfig ":8424" [] 3 5 30 1 3 5 3 5 5000 5000.

(** [shuffledPeers[i], shuffledPeers[j] = shuffledPeers[j], shuffledPeers[i]] *)
Definition swap {A} (i j : nat) (l : list A) : list A :=
  match l !! i, l !! j with
  | Some x, Some y => <[i := y]> (<[j := x]> l)
  | _, _ => l
  end.

(** The loop of [ShufflePeers] over the indices [idxs]; [rand] gives the
    raw draws, [draws] counts those taken: [rand.Intn(i)] is the next
    draw modulo [i]. *)
Fixpoint shuffle_from {A} (rand : nat → nat) (draws : nat) (idxs : list nat)
    (l : list A) : list A :=
  match idxs with
  | [] => l
  | i :: idxs' =>
      if decide (i = 0) then shuffle_from rand draws idxs' l
      else
        let swapIndex := rand draws `mod` i in
        shuffle_from rand (S draws) idxs' (swap i swapIndex l)
  end.

(** [ShufflePeers], on the peer list of the configuration (a copy is
    shuffled). *)
Definition ShufflePeers {A} (rand : nat → nat) (peers : list A) : list A :=
  shuffle_from rand 0 (seq 0 (length peers)) peers.
End config.

(** ** What a codec has registered

    The codec holds the types [ts], registered in this order: each type
    is known by its rank, both ways. *)
Module registry.
Import message codec.
End registry.

(** ** agent/agent_msg.go: the shuffle message *)
Module agent_msg.
Import arraymap message agent.

(** The message [shuffle] writes to the node it is given. *)
Definition shuffle (ag : agent) (candidates : list Candidate) : Shuffle :=
  MkShuffle (id ag) (id ag) (AddrStr (cfg ag)) candidates
    (Z.to_N (binary.to_uint32 (SRWL (cfg ag)))).
End agent_msg.

(** ** The shuffle loop of the agent *)
Module shuffling.
Import arraymap message agent.

(** [makeShuffleList]: the agent itself, [Ka] active and [Kp] passive
    nodes; a negative capacity panics. *)
Definition makeShuffleList : M (list Candidate) :=
  ag ← get;
  if decide (1 + Ka (cfg ag) + Kp (cfg ag) < 0)%Z then panic
  else
    let self := MkCandidate (id ag) (AddrStr (cfg ag)) in
    a ← chooseRandomCandidates (aView ag) (Ka (cfg ag));
    p ← chooseRandomCandidates (pView ag) (Kp (cfg ag));
    mret (self :: a ++ p).

(** One tick of [shuffleLoop]: the node [shuffle] is started for and the
    message it writes, or [None] when the tick is passed over. *)
Definition shuffle_tick : M (option (Node * Shuffle)) :=
  ag ← get;
  if decide (Len (aView ag) = 0) then mret None
  else
    node ← chooseRandomNode (aView ag) 0;
    match node with
    | None => mret None
    | Some nd =>
        list ← makeShuffleList;
        mret (Some (nd, agent_msg.shuffle ag list))
    end.
End shuffling.

(* ===================================================================== *)
(** * Part II: properties *)
(* ===================================================================== *)

Section ArrayMapFacts.
Import arraymap.
Context {K : Type} `{Countable K} {V : Type}.
Implicit Types (a : ArrayMap K V) (k : K) (v : V).

Lemma wf_NewArrayMap : wf (NewArrayMap : ArrayMap K V).
Proof.
  split; [done|]. intros k i. simpl. rewrite lookup_empty, lookup_nil.
  split; discriminate.
Qed.

Lemma wf_NoDup a : wf a → NoDup (keys a).
Proof.
  intros [_ Hpos]. apply NoDup_alt. intros i j k Hi Hj.
  apply Hpos in Hi, Hj. congruence.
Qed.

Lemma Has_true a k : wf a → Has k a = true ↔ k ∈ keys a.
Proof.
  intros [_ Hpos]. unfold Has. rewrite bool_decide_eq_true.
  rewrite list_elem_of_lookup. split.
  - intros [i Hi]. exists i. by apply Hpos.
  - intros [i Hi]. exists i. by apply Hpos.
Qed.

Lemma Has_false a k : wf a → Has k a = false ↔ k ∉ keys a.
Proof.
  intros Hwf. rewrite <- (Has_true a k Hwf). destruct (Has k a); naive_solver.
Qed.

Lemma Has_positions a k : Has k a = false ↔ positions a !! k = None.
Proof.
  unfold Has. rewrite bool_decide_eq_false, <- eq_None_not_Some. done.
Qed.

Lemma keys_entries a : wf a → (entries a).*1 = keys a.
Proof. intros [Hlen _]. unfold entries. apply fst_zip. lia. Qed.

Lemma values_entries a : wf a → (entries a).*2 = values a.
Proof. intros [Hlen _]. unfold entries. apply snd_zip. lia. Qed.


Lemma insert_perm_delete {A} (l : list A) i x y :
  l !! i = Some x → <[i := y]> l ≡ₚ delete i l ++ [y].
Proof.
  revert i. induction l as [|z l IH]; intros [|i] Hi; simplify_eq/=.
  - apply Permutation_cons_append.
  - constructor. by apply IH.
Qed.

Lemma delete_app_lt {A} (l1 l2 : list A) i :
  i < length l1 → delete i (l1 ++ l2) = delete i l1 ++ l2.
Proof.
  revert i. induction l1 as [|z l1 IH]; intros [|i] Hi; simpl in *;
    try lia; [done|]. f_equal. apply IH. lia.
Qed.

Lemma snoc_last {A} (l : list A) y :
  l !! (length l - 1) = Some y → l = take (length l - 1) l ++ [y].
Proof.
  intros Hlast. pose proof (lookup_lt_Some _ _ _ Hlast) as Hlt.
  rewrite <- (take_drop (length l - 1) l) at 1. f_equal.
  apply list_eq. intros [|j]; rewrite lookup_drop; simpl.
  - by rewrite Nat.add_0_r.
  - apply lookup_ge_None_2. lia.
Qed.

(** Swapping slot [i] with the tail and cutting the tail off removes
    exactly the element of slot [i]. *)
Lemma swap_take_delete {A} (l : list A) i x y :
  l !! i = Some x → l !! (length l - 1) = Some y →
  take (length l - 1) (<[length l - 1 := x]> (<[i := y]> l)) ≡ₚ delete i l.
Proof.
  intros Hi Hlast.
  pose proof (lookup_lt_Some _ _ _ Hi) as Hlt.
  rewrite take_insert_ge by lia.
  pose proof (snoc_last l y Hlast) as Hl.
  remember (take (length l - 1) l) as l0 eqn:Hl0. clear Hl0. subst l.
  rewrite length_app in *. simpl in *.
  replace (length l0 + 1 - 1) with (length l0) in * by lia.
  destruct (decide (i = length l0)) as [->|Hne].
  - rewrite list_insert_id by done. rewrite take_app_length.
    by rewrite (delete_middle l0 [] y), app_nil_r.
  - rewrite lookup_app_l in Hi by lia.
    rewrite insert_app_l by lia.
    rewrite take_app_length' by (by rewrite length_insert).
    rewrite delete_app_lt by lia. by eapply insert_perm_delete.
Qed.

Lemma drop_key_absent (l : list (K * V)) k : k ∉ l.*1 → drop_key k l = l.
Proof.
  unfold drop_key. induction l as [|[k' v'] l IH]; intros Hnotin; [done|].
  simpl in Hnotin. apply not_elem_of_cons in Hnotin as [Hne Hnotin].
  rewrite filter_cons_True by (simpl; congruence). f_equal. by apply IH.
Qed.

Lemma drop_key_delete (l : list (K * V)) i k v :
  NoDup l.*1 → l !! i = Some (k, v) → drop_key k l = delete i l.
Proof.
  revert i.
  induction l as [|[k' v'] l IH]; intros [|i] Hnd Hi; simplify_eq/=;
    apply NoDup_cons in Hnd as [Hnotin Hnd]; unfold drop_key.
  - rewrite filter_cons_False by naive_solver. by apply drop_key_absent.
  - rewrite filter_cons_True.
    + f_equal. by apply IH.
    + simpl. intros ->. apply Hnotin. apply list_elem_of_fmap.
      exists (k, v). split; [done|]. by eapply list_elem_of_lookup_2.
Qed.

(** [removeAt] at the slot of a stored key. *)
Lemma removeAt_spec a p k :
  wf a → keys a !! p = Some k →
  ∃ a', removeAt p a = Some a' ∧ wf a' ∧
        entries a' ≡ₚ delete p (entries a) ∧
        keys a' = take (Len a - 1) (<[p := default k (last (keys a))]> (keys a)) ∧
        Len a' = Len a - 1.
Proof.
  intros Hwf Hp. pose proof Hwf as [Hlen Hpos].
  pose proof (lookup_lt_Some _ _ _ Hp) as Hlt.
  destruct (lookup_lt_is_Some_2 (keys a) (length (keys a) - 1)) as [kl Hkl];
    [lia|].
  destruct (lookup_lt_is_Some_2 (values a) p) as [vi Hvi]; [lia|].
  destruct (lookup_lt_is_Some_2 (values a) (length (values a) - 1))
    as [vl Hvl]; [lia|].
  unfold removeAt. rewrite Hp, Hkl, Hvi, Hvl. simpl.
  eexists. split; [done|].
  rewrite !length_insert.
  assert (Hlastk : last (keys a) = Some kl).
  { rewrite last_lookup. by replace (pred (length (keys a)))
      with (length (keys a) - 1) by lia. }
  assert (Hkeys' : take (length (keys a) - 1)
                     (<[length (keys a) - 1 := k]> (<[p := kl]> (keys a)))
                   = take (length (keys a) - 1) (<[p := kl]> (keys a))).
  { by rewrite take_insert_ge by lia. }
  split; [|split; [|split]].
  - (* the invariant *)
    split; simpl.
    + rewrite !length_take, !length_insert. lia.
    + intros k' i. rewrite Hkeys'.
      rewrite lookup_take_Some, list_lookup_insert_Some.
      destruct (decide (k' = k)) as [->|Hk].
      * rewrite lookup_delete_eq. split; [done|].
        intros [[(-> & <- & _)|[Hne Hi]] Hi'].
        -- apply Hpos in Hp, Hkl. simplify_eq. lia.
        -- apply Hpos in Hp, Hi. simplify_eq.
      * rewrite lookup_delete_ne by done.
        destruct (decide (k' = kl)) as [->|Hkl'].
        -- rewrite lookup_insert_eq. split.
           ++ intros [= <-]. split; [left; split_and!; [done|done|lia]|].
              destruct (decide (p = length (keys a) - 1)); [|lia].
              subst p. simplify_eq.
           ++ intros [[(-> & _ & _)|[Hne Hi]] Hi']; [done|].
              apply Hpos in Hkl, Hi. simplify_eq. lia.
        -- rewrite lookup_insert_ne by done. rewrite Hpos. split.
           ++ intros Hi. split.
              ** right. split; [|done]. intros ->. simplify_eq.
              ** pose proof (lookup_lt_Some _ _ _ Hi).
                 destruct (decide (i = length (keys a) - 1)); [|lia].
                 subst i. simplify_eq.
           ++ intros [[(-> & <- & _)|[Hne Hi]] Hi']; done.
  - (* the entries *)
    unfold entries. simpl.
    rewrite <- Hlen. rewrite <- zip_with_take, <- !insert_zip_with.
    fold (zip (keys a) (values a)).
    assert (Hzl : length (zip (keys a) (values a)) = length (keys a)).
    { rewrite (length_zip_with pair). lia. }
    rewrite <- Hzl. apply swap_take_delete.
    + rewrite (lookup_zip_with pair), Hp, Hvi. done.
    + rewrite Hzl, (lookup_zip_with pair), Hkl. simpl.
      rewrite Hlen, Hvl. done.
  - simpl. rewrite Hkeys', Hlastk. done.
  - unfold Len. simpl. rewrite length_take, !length_insert. lia.
Qed.

Lemma Remove_present a k :
  wf a → Has k a = true →
  ∃ a', Remove k a = Some (a', true) ∧ wf a' ∧
        entries a' ≡ₚ drop_key k (entries a) ∧ Len a' = Len a - 1.
Proof.
  intros Hwf Hhas. unfold Has in Hhas.
  apply bool_decide_eq_true in Hhas as [p Hp].
  pose proof Hwf as [Hlen Hpos]. pose proof Hp as Hk. apply Hpos in Hk.
  destruct (removeAt_spec a p k Hwf Hk) as (a' & Hrm & Hwf' & Hen & _ & Hl).
  exists a'. unfold Remove. rewrite Hp, Hrm. simpl.
  split_and!; try done.
  destruct (lookup_lt_is_Some_2 (values a) p) as [v Hv].
  { rewrite <- Hlen. by eapply lookup_lt_Some. }
  rewrite (drop_key_delete (entries a) p k v); [done| |].
  - rewrite keys_entries by done. by apply wf_NoDup.
  - unfold entries. by rewrite (lookup_zip_with pair), Hk, Hv.
Qed.

Lemma Remove_absent a k : Has k a = false → Remove k a = Some (a, false).
Proof. intros Hp%Has_positions. unfold Remove. by rewrite Hp. Qed.

Lemma Remove_spec a k :
  wf a →
  ∃ a', Remove k a = Some (a', Has k a) ∧ wf a' ∧
        entries a' ≡ₚ drop_key k (entries a) ∧
        Len a' = Len a - (if Has k a then 1 else 0).
Proof.
  intros Hwf. destruct (Has k a) eqn:Hhas.
  - by apply Remove_present.
  - exists a. rewrite Remove_absent by done. split_and!; try done.
    + rewrite drop_key_absent; [done|].
      rewrite keys_entries by done. by apply Has_false.
    + lia.
Qed.

Lemma Add_fresh a k v :
  wf a → Has k a = false →
  ∃ a', Add k v a = Some (a', None) ∧ wf a' ∧
        keys a' = keys a ++ [k] ∧ values a' = values a ++ [v].
Proof.
  intros Hwf Hhas. pose proof Hwf as [Hlen Hpos].
  pose proof Hhas as Hnone%Has_positions.
  apply (Has_false a k Hwf) in Hhas.
  unfold Add. rewrite Hnone. eexists. split; [done|]. simpl.
  split_and!; try done. split; simpl.
  - rewrite !length_app. simpl. lia.
  - intros k' i. rewrite length_app. simpl.
    replace (length (keys a) + 1 - 1) with (length (keys a)) by lia.
    rewrite lookup_app_Some, list_lookup_singleton_Some.
    destruct (decide (k' = k)) as [->|Hk].
    + rewrite lookup_insert_eq. split.
      * intros [= <-]. right. split_and!; [lia|lia|done].
      * intros [Hi|(? & ? & _)]; [|f_equal; lia].
        exfalso. apply Hhas. by eapply list_elem_of_lookup_2.
    + rewrite lookup_insert_ne by done. rewrite Hpos. split.
      * intros Hi. by left.
      * intros [Hi|(_ & _ & ?)]; [done|congruence].
Qed.

Lemma Add_present a k v :
  wf a → Has k a = true →
  ∃ a' p old, Add k v a = Some (a', Some old) ∧ wf a' ∧
        keys a !! p = Some k ∧ values a !! p = Some old ∧
        keys a' = keys a ∧ values a' = <[p := v]> (values a).
Proof.
  intros Hwf Hhas. pose proof Hwf as [Hlen Hpos]. unfold Has in Hhas.
  apply bool_decide_eq_true in Hhas as [p Hp].
  pose proof Hp as Hk. apply Hpos in Hk.
  destruct (lookup_lt_is_Some_2 (values a) p) as [old Hold].
  { rewrite <- Hlen. by eapply lookup_lt_Some. }
  unfold Add. rewrite Hp, Hold. simpl. eexists _, p, old.
  split; [done|]. split_and!; try done.
  split; simpl; [by rewrite length_insert|done].
Qed.

Lemma Add_spec a k v :
  wf a →
  ∃ a' old, Add k v a = Some (a', old) ∧ wf a' ∧
        entries a' ≡ₚ drop_key k (entries a) ++ [(k, v)] ∧
        Len a' = Len a + (if Has k a then 0 else 1).
Proof.
  intros Hwf. destruct (Has k a) eqn:Hhas.
  - destruct (Add_present a k v Hwf Hhas)
      as (a' & p & old & Hadd & Hwf' & Hk & Hold & Hks & Hvs).
    exists a', (Some old). split_and!; try done.
    + assert (Hlk : entries a !! p = Some (k, old)).
      { unfold entries. by rewrite (lookup_zip_with pair), Hk, Hold. }
      rewrite (drop_key_delete (entries a) p k old); [|  |done].
      * unfold entries in *. rewrite Hks, Hvs.
        rewrite <- (list_insert_id (keys a) p k Hk) at 1.
        rewrite <- (insert_zip_with pair).
        by apply insert_perm_delete with (x := (k, old)).
      * rewrite keys_entries by done. by apply wf_NoDup.
    + unfold Len. rewrite Hks. lia.
  - destruct (Add_fresh a k v Hwf Hhas) as (a' & Hadd & Hwf' & Hks & Hvs).
    exists a', None. split_and!; try done.
    + unfold entries. rewrite Hks, Hvs.
      pose proof Hwf as [Hlen _].
      rewrite zip_with_app by done. simpl.
      rewrite drop_key_absent; [done|].
      rewrite fst_zip by lia. by apply (Has_false a k Hwf).
    + unfold Len. rewrite Hks, length_app. simpl. lia.
Qed.

Lemma run_op_spec a o :
  wf a →
  ∃ a', run_op o a = Some a' ∧ wf a' ∧
        entries a' ≡ₚ ordered_op o (entries a).
Proof.
  intros Hwf. destruct o as [k v|k]; simpl.
  - destruct (Add_spec a k v Hwf) as (a' & old & -> & Hwf' & Hen & _).
    by exists a'.
  - destruct (Remove_spec a k Hwf) as (a' & -> & Hwf' & Hen & _).
    by exists a'.
Qed.

Lemma ordered_op_perm o (l1 l2 : list (K * V)) :
  l1 ≡ₚ l2 → ordered_op o l1 ≡ₚ ordered_op o l2.
Proof.
  intros Hp. destruct o as [k v|k]; simpl; unfold drop_key; by rewrite Hp.
Qed.

Lemma run_spec ops : ∀ a l,
  wf a → entries a ≡ₚ l →
  ∃ a', run ops a = Some a' ∧ wf a' ∧ entries a' ≡ₚ ordered_run ops l.
Proof.
  induction ops as [|o ops IH]; intros a l Hwf Hen; simpl.
  - by exists a.
  - destruct (run_op_spec a o Hwf) as (a1 & -> & Hwf1 & Hen1). simpl.
    apply IH; [done|]. rewrite Hen1. by apply ordered_op_perm.
Qed.

Lemma stored_entries a k v : wf a → stored k v a ↔ (k, v) ∈ entries a.
Proof.
  intros [Hlen Hpos]. unfold stored, Has, GetValueOf. split.
  - intros [[p Hp]%bool_decide_eq_true Hv]. rewrite Hp in Hv. simpl in Hv.
    apply list_elem_of_lookup. exists p. unfold entries.
    rewrite (lookup_zip_with pair). apply Hpos in Hp. by rewrite Hp, Hv.
  - intros [i Hi]%list_elem_of_lookup. unfold entries in Hi.
    rewrite (lookup_zip_with pair) in Hi.
    destruct (keys a !! i) eqn:Hk; simpl in Hi; [|done].
    destruct (values a !! i) eqn:Hv; simplify_eq/=.
    apply Hpos in Hk. by rewrite Hk.
Qed.

Lemma Has_stored a k : wf a → Has k a = true → ∃ v, stored k v a.
Proof.
  intros Hwf Hhas. pose proof Hwf as [Hlen Hpos]. pose proof Hhas as Hh.
  unfold Has in Hh. apply bool_decide_eq_true in Hh as [p Hp].
  destruct (lookup_lt_is_Some_2 (values a) p) as [v Hv].
  { rewrite <- Hlen. apply Hpos in Hp. by eapply lookup_lt_Some. }
  exists v. split; [done|]. unfold GetValueOf. by rewrite Hp.
Qed.

Lemma elem_of_drop_key (l : list (K * V)) k k' v :
  (k', v) ∈ drop_key k l ↔ (k', v) ∈ l ∧ k' ≠ k.
Proof. unfold drop_key. rewrite list_elem_of_filter. simpl. tauto. Qed.

Lemma Remove_stored a k :
  wf a →
  ∃ a', Remove k a = Some (a', Has k a) ∧ wf a' ∧
        ∀ k' v, stored k' v a' ↔ stored k' v a ∧ k' ≠ k.
Proof.
  intros Hwf. destruct (Remove_spec a k Hwf) as (a' & Hr & Hwf' & Hen & _).
  exists a'. split_and!; [done..|]. intros k' v.
  rewrite !stored_entries by done. rewrite Hen. apply elem_of_drop_key.
Qed.

Lemma Add_stored a k v :
  wf a →
  ∃ a' old, Add k v a = Some (a', old) ∧ wf a' ∧
        ∀ k' v', stored k' v' a' ↔
                 (stored k' v' a ∧ k' ≠ k) ∨ (k' = k ∧ v' = v).
Proof.
  intros Hwf. destruct (Add_spec a k v Hwf) as (a' & old & Hr & Hwf' & Hen & _).
  exists a', old. split_and!; [done..|]. intros k' v'.
  rewrite !stored_entries by done. rewrite Hen, elem_of_app, elem_of_drop_key.
  rewrite list_elem_of_singleton. split.
  - intros [?|[= -> ->]]; auto.
  - intros [?|[-> ->]]; auto.
Qed.

(** *** The slots after a script *)











End ArrayMapFacts.



(** ** The codec *)

Section ReaderFacts.
Import io.

Lemma pending_advance n c rest :
  pending (advance n c rest) = drop n c ++ pending rest.
Proof. unfold advance, pending. by destruct (drop n c). Qed.

(** [Read] hands out a prefix of the first chunk and keeps the rest. *)
Lemma Read_pending n r :
  pending r = (Read n r).1.1 ++ pending (Read n r).2 ∧
  (Read n r).1.1 = take n (hd [] r).
Proof.
  destruct r as [|c rest]; simpl; [by rewrite take_nil|].
  rewrite pending_advance, app_assoc, take_drop. done.
Qed.

(** [io.ReadFull] on a reader that still holds [n] bytes returns exactly
    the next [n] bytes, however they are cut into chunks. *)
Lemma ReadFull_from_enough r : ∀ got n,
  n ≤ length (pending r) →
  ∃ r', ReadFull_from got n r = (take n (pending r), None, r') ∧
        pending r' = drop n (pending r).
Proof.
  induction r as [|c rest IH]; intros got n Hn.
  - simpl in Hn. assert (n = 0) as -> by lia. by exists [].
  - destruct n as [|n]; [by exists (c :: rest)|].
    cbn [ReadFull_from]. unfold pending in *. simpl in Hn |- *.
    rewrite length_app in Hn. case_decide as Hc.
    + exists (advance (S n) c rest). split.
      * by rewrite take_app_le by lia.
      * rewrite drop_app_le by lia. apply pending_advance.
    + destruct (IH (got || negb (bool_decide (c = []))) (S n - length c))
        as (r' & Hrd & Hpend); [lia|].
      rewrite Hrd. exists r'. split.
      * by rewrite take_app_ge by lia.
      * by rewrite drop_app_ge by lia.
Qed.

Lemma ReadFull_enough n r :
  n ≤ length (pending r) →
  ∃ r', ReadFull n r = (take n (pending r), None, r') ∧
        pending r' = drop n (pending r).
Proof. apply ReadFull_from_enough. Qed.
End ReaderFacts.

Section CodecFacts.
Import message io codec.
Local Open Scope Z_scope.

Lemma to_byte_mod v : binary.to_byte v = v mod 256.
Proof. unfold binary.to_byte. by rewrite Z.land_ones. Qed.

Lemma to_uint32_mod v : binary.to_uint32 v = v mod 2 ^ 32.
Proof. unfold binary.to_uint32. by rewrite Z.land_ones. Qed.

Lemma land_shiftl_low a b n :
  0 ≤ n → 0 ≤ a < 2 ^ n → Z.land a (b * 2 ^ n) = 0.
Proof.
  intros Hn Ha. apply Z.bits_inj'. intros i Hi.
  rewrite Z.land_spec, Z.bits_0.
  destruct (decide (i < n)).
  - rewrite Z.mul_pow2_bits_low by lia. apply andb_false_r.
  - destruct (decide (a = 0)) as [->|]; [by rewrite Z.bits_0|].
    rewrite (Z.bits_above_log2 a i); [done|lia|].
    apply Z.log2_lt_pow2; [lia|].
    eapply Z.lt_le_trans; [apply Ha|]. apply Z.pow_le_mono_r; lia.
Qed.

Lemma lor_shiftl_add a b n :
  0 ≤ n → 0 ≤ a < 2 ^ n → Z.lor a (Z.shiftl b n) = a + b * 2 ^ n.
Proof.
  intros Hn Ha. rewrite Z.shiftl_mul_pow2 by done.
  rewrite <- Z.lxor_lor, <- Z.add_nocarry_lxor;
    [done|by apply land_shiftl_low|by apply land_shiftl_low].
Qed.

(** The four length bytes read back as the 32-bit value written. *)
Lemma Uint32_PutUint32 v :
  0 ≤ v < 2 ^ 32 →
  binary.Uint32 (binary.to_byte v) (binary.to_byte (Z.shiftr v 8))
    (binary.to_byte (Z.shiftr v 16)) (binary.to_byte (Z.shiftr v 24)) = v.
Proof.
  intros Hv. unfold binary.Uint32.
  rewrite !to_byte_mod, !Z.shiftr_div_pow2 by lia.
  change (2 ^ 8) with 256. change (2 ^ 16) with 65536.
  change (2 ^ 24) with 16777216. change (2 ^ 32) with 4294967296 in Hv.
  pose proof (Z.mod_pos_bound v 256).
  pose proof (Z.mod_pos_bound (v / 256) 256).
  pose proof (Z.mod_pos_bound (v / 65536) 256).
  rewrite (lor_shiftl_add _ _ 8) by lia.
  rewrite (lor_shiftl_add _ _ 16) by
    (change (2 ^ 8) with 256; change (2 ^ 16) with 65536; lia).
  rewrite (lor_shiftl_add _ _ 24) by
    (change (2 ^ 8) with 256; change (2 ^ 16) with 65536;
     change (2 ^ 24) with 16777216; lia).
  change (2 ^ 8) with 256. change (2 ^ 16) with 65536.
  change (2 ^ 24) with 16777216.
  rewrite (Z.mod_small (v / 16777216) 256).
  2:{ split; [apply Z.div_pos; lia|].
      apply Z.div_lt_upper_bound; lia. }
  pose proof (Z.div_mod v 256). pose proof (Z.div_mod (v / 256) 256).
  pose proof (Z.div_mod (v / 256 / 256) 256).
  replace (v / 65536) with (v / 256 / 256) in * by
    (rewrite Z.div_div by lia; done).
  replace (v / 16777216) with (v / 256 / 256 / 256) by
    (rewrite !Z.div_div by lia; done).
  lia.
Qed.

Lemma PutUint32_uint32_le v :
  0 ≤ v < 2 ^ 32 → binary.PutUint32 (binary.to_uint32 v) = uint32_le v.
Proof.
  intros Hv. rewrite to_uint32_mod, Z.mod_small by done.
  unfold binary.PutUint32, uint32_le.
  by rewrite !to_byte_mod, !Z.shiftr_div_pow2 by lia.
Qed.

Lemma Uint32_uint32_le v :
  0 ≤ v < 2 ^ 32 →
  ∃ b0 b1 b2 b3, uint32_le v = [b0; b1; b2; b3] ∧
                 binary.Uint32 b0 b1 b2 b3 = v.
Proof.
  intros Hv. rewrite <- PutUint32_uint32_le by done.
  rewrite to_uint32_mod, Z.mod_small by done.
  eexists _, _, _, _. split; [done|]. by apply Uint32_PutUint32.
Qed.


Section ProtoFacts.
Variable Marshal : Message → option (list Z).
Variable Unmarshal : MsgType → list Z → option Message.




(** C9: when the first [Read] does not deliver exactly [AB CD], [ReadMsg]
    fails and has taken from the reader only what that one [Read] copied,
    at most two bytes. *)
Theorem ReadMsg_bad_magic pc r :
  take 2 (hd [] r) ≠ [0xab; 0xcd] →
  ∃ e r', ReadMsg Unmarshal pc r = (inl e, r') ∧
          pending r = take 2 (hd [] r) ++ pending r'.
Proof.
  intros Hbad. destruct r as [|c r0].
  - by exists EOF, [].
  - unfold ReadMsg. cbn [Read hd] in *.
    exists ErrMagic, (advance 2 c r0).
    assert (magic_ok (magic_buffer (take 2 c)) = false) as ->.
    { destruct c as [|m0 [|m1 c]]; [done| |].
      - unfold magic_ok. simpl. by rewrite andb_false_r.
      - unfold magic_ok. simpl. simpl in Hbad.
        apply andb_false_iff.
        destruct (decide (m0 = 0xab)) as [->|]; [|left; by apply bool_decide_eq_false_2].
        right. apply bool_decide_eq_false_2. simpl. intros ->.
        apply Hbad. by rewrite take_0. }
    split; [done|].
    rewrite pending_advance, app_assoc, take_drop. done.
Qed.
End ProtoFacts.
End CodecFacts.



(** A run of C9: a stream that starts [AB 00]. *)
Lemma ReadMsg_bad_magic_witness :
  let Unmarshal := λ (_ : message.MsgType) (_ : list Z),
                     Some (message.MDisconnect (message.MkDisconnect 7)) in
  ∃ e r', codec.ReadMsg Unmarshal codec.NewProtobufCodec
            [[0xab; 0; 1; 0; 0; 0; 6]%Z] = (inl e, r') ∧
          [0xab; 0; 1; 0; 0; 0; 6]%Z = [0xab; 0]%Z ++ io.pending r'.
Proof.
  intros Unmarshal.
  destruct (ReadMsg_bad_magic Unmarshal codec.NewProtobufCodec
              [[0xab; 0; 1; 0; 0; 0; 6]%Z]) as (e & r' & Hr & Hp).
  - simpl. discriminate.
  - exists e, r'. split; [exact Hr|]. exact Hp.
Defined.

(** ** The agent: random choice *)

Section ChooseFacts.
Import arraymap message agent.

(** Unfolding one step of a handler. *)
Lemma bind_Done {A B} (m : M A) (f : A → M B) e w a w' :
  m e w = Done (a, w') → (m ≫= f) e w = f a e w'.
Proof. intros Hm. unfold mbind, M_bind. by rewrite Hm. Qed.

Lemma Intn_Done n e w :
  (0 < n)%Z →
  Intn n e w = Done (rand_src e (w_draws w) `mod` Z.to_nat n,
                     MkWorld (w_ag w) (S (w_draws w)) (w_trace w)).
Proof. intros Hn. unfold Intn. by rewrite decide_False by lia. Qed.

(** What [chooseRandomNode] returns on a view with distinct node ids. *)
Lemma chooseRandomNode_total (view : ArrayMap N Node) excludeId e w :
  length (keys view) = length (values view) →
  NoDup (Id <$> Values view) →
  ∃ res,
    chooseRandomNode view excludeId e w
    = Done (res, MkWorld (w_ag w)
                   (if decide (Len view = 0) then w_draws w
                    else S (w_draws w)) (w_trace w)) ∧
    (res = None ↔
       Values view = [] ∨ ∃ nd, Values view = [nd] ∧ Id nd = excludeId) ∧
    (∀ nd, res = Some nd → nd ∈ Values view ∧ Id nd ≠ excludeId) ∧
    (2 ≤ Len view → ∃ nd, res = Some nd).
Proof.
  intros Hlen Hnd. unfold chooseRandomNode, Values, Len in *.
  destruct (decide (length (keys view) = 0)) as [H0|H0].
  - exists None. destruct w. split; [done|].
    split_and!; [|done|lia].
    split; [|done]. intros _. left. apply nil_length_inv. lia.
  - set (n := length (keys view)) in *.
    set (index := rand_src e (w_draws w) `mod` n).
    assert (Hidx : index < n) by (apply Nat.mod_upper_bound; lia).
    destruct (lookup_lt_is_Some_2 (values view) index) as [nd Hnd0]; [lia|].
    erewrite bind_Done; [|apply Intn_Done; lia].
    rewrite Nat2Z.id. fold index. unfold GetValueAt.
    unfold mbind at 1, M_bind. rewrite Hnd0. simpl.
    destruct (decide (Id nd = excludeId)) as [Hex|Hex].
    + destruct (decide (n = 1)) as [H1|H1].
      * exists None. split; [done|]. split_and!; [|done|lia].
        split; [|done]. intros _. right. exists nd.
        assert (index = 0) as Hi0 by lia. rewrite Hi0 in Hnd0.
        rewrite H1 in Hlen.
        destruct (values view) as [|x [|y l]]; simplify_eq/=; done.
      * set (index' := (index + 1) `mod` n).
        assert (Hidx' : index' < n) by (apply Nat.mod_upper_bound; lia).
        destruct (lookup_lt_is_Some_2 (values view) index') as [nd' Hnd'];
          [lia|].
        unfold mbind, M_bind. rewrite Hnd'. simpl.
        exists (Some nd'). split; [done|].
        assert (Hne : Id nd' ≠ excludeId).
        { intros Heq. assert (index = index'); [|].
          - eapply NoDup_lookup; [exact Hnd| |].
            + by rewrite list_lookup_fmap, Hnd0.
            + rewrite list_lookup_fmap, Hnd'. simpl. congruence.
          - unfold index' in *.
            destruct (decide (index + 1 = n)) as [Hw|Hw].
            + rewrite Hw, Nat.Div0.mod_same in *. lia.
            + rewrite Nat.mod_small in * by lia. lia. }
        split_and!.
        -- split; [done|]. intros [Hnil|(x & Hx & _)].
           ++ rewrite Hnil in Hnd'. by rewrite lookup_nil in Hnd'.
           ++ rewrite Hx in Hlen. simpl in Hlen. lia.
        -- intros ? [= <-]. split; [|done]. by eapply list_elem_of_lookup_2.
        -- intros _. by exists nd'.
    + exists (Some nd). split; [done|]. split_and!.
      * split; [done|]. intros [Hnil|(x & Hx & Hxid)].
        -- rewrite Hnil in Hnd0. by rewrite lookup_nil in Hnd0.
        -- rewrite Hx in Hnd0. destruct index; simplify_eq/=.
      * intros ? [= <-]. split; [|done]. by eapply list_elem_of_lookup_2.
      * intros _. by exists nd.
Qed.

(** C10: on a view whose node ids are pairwise distinct,
    [chooseRandomNode] comes back (whatever the draw), with nil exactly
    when the view is empty or holds only the excluded id, and otherwise
    with a node of the view whose id is not the excluded one. *)
Theorem chooseRandomNode_spec (view : ArrayMap N Node) excludeId e w :
  length (keys view) = length (values view) →
  NoDup (Id <$> Values view) →
  ∃ res,
    chooseRandomNode view excludeId e w
    = Done (res, MkWorld (w_ag w)
                   (if decide (Len view = 0) then w_draws w
                    else S (w_draws w)) (w_trace w)) ∧
    (res = None ↔
       Values view = [] ∨ ∃ nd, Values view = [nd] ∧ Id nd = excludeId) ∧
    (∀ nd, res = Some nd → nd ∈ Values view ∧ Id nd ≠ excludeId) ∧
    (2 ≤ Len view → ∃ nd, res = Some nd).
Proof. apply chooseRandomNode_total. Qed.
End ChooseFacts.

(** ** The agent: what a handler that returns leaves behind *)

Section AgentSafety.
Import arraymap message agent.

Lemma bind_inv {A B} (m : M A) (f : A → M B) e w r :
  (m ≫= f) e w = Done r → ∃ a w1, m e w = Done (a, w1) ∧ f a e w1 = Done r.
Proof.
  unfold mbind, M_bind. destruct (m e w) as [[a w1]| |]; [|done|done].
  intros Hf. by exists a, w1.
Qed.

Lemma must_inv {A} (o : option A) e w a w' :
  must o e w = Done (a, w') → o = Some a ∧ w' = w.
Proof. destruct o; simpl; [|done]. by intros [= -> ->]. Qed.

Lemma Intn_inv n e w a w' :
  Intn n e w = Done (a, w') → w_ag w' = w_ag w ∧ w_trace w' = w_trace w.
Proof. unfold Intn. case_decide; [done|]. by intros [= <- <-]. Qed.

(** The length of a map after [Add] and [Remove], whatever its state. *)
Lemma Add_Len {K} `{Countable K} {V} (k : K) (v : V) a r :
  Add k v a = Some r →
  Len r.1 = Len a + (if Has k a then 0 else 1).
Proof.
  unfold Add, Has, Len. destruct (positions a !! k) as [p|] eqn:Hp.
  - destruct (values a !! p); simpl; [|done]. intros [= <-]. simpl. lia.
  - intros [= <-]. simpl. by rewrite length_app.
Qed.

Lemma Remove_Len {K} `{Countable K} {V} (k : K) (a : ArrayMap K V) r :
  Remove k a = Some r → Len r.1 ≤ Len a.
Proof.
  unfold Remove, removeAt, Len. destruct (positions a !! k) as [p|].
  - destruct (keys a !! p); simpl; [|done].
    destruct (keys a !! (length (keys a) - 1)); simpl; [|done].
    destruct (values a !! p); simpl; [|done].
    destruct (values a !! (length (values a) - 1)); simpl; [|done].
    intros [= <-]. simpl. rewrite length_take, !length_insert. lia.
  - by intros [= <-].
Qed.

(** [chooseRandomNode] and [chooseRandomCandidates] only draw. *)
Lemma chooseRandomNode_frame view x e w r w' :
  chooseRandomNode view x e w = Done (r, w') →
  w_ag w' = w_ag w ∧ w_trace w' = w_trace w.
Proof.
  unfold chooseRandomNode. case_decide; [by intros [= <- <-]|].
  intros (i & w1 & Hi & Hrest)%bind_inv. apply Intn_inv in Hi as [<- <-].
  apply bind_inv in Hrest as (nd & w2 & [_ ->]%must_inv & Hrest).
  repeat case_decide; try (by injection Hrest as <- <-).
  by apply bind_inv in Hrest as (nd' & w3 & [_ ->]%must_inv & [= <- <-]).
Qed.

Lemma chooseRandomCandidates_frame view n e w r w' :
  chooseRandomCandidates view n e w = Done (r, w') →
  w_ag w' = w_ag w ∧ w_trace w' = w_trace w.
Proof.
  unfold chooseRandomCandidates. case_decide; [by intros [= <- <-]|].
  case_decide; [done|].
  intros (i & w1 & Hi & [_ ->]%must_inv)%bind_inv.
  by apply Intn_inv in Hi.
Qed.

(** A loop that comes back has left its condition false, and has kept
    what each turn keeps. *)
Lemma while_loop_inv (I : agent → Prop) cond body :
  (∀ e w w', I (w_ag w) → cond (w_ag w) = true →
             body e w = Done (tt, w') → I (w_ag w')) →
  ∀ fuel e w w',
    I (w_ag w) → while_loop fuel cond body e w = Done (tt, w') →
    I (w_ag w') ∧ cond (w_ag w') = false.
Proof.
  intros Hbody fuel. induction fuel as [|fuel IH]; intros e w w' HI; simpl.
  - destruct (cond (w_ag w)) eqn:Hc; [done|]. by intros [= <-].
  - destruct (cond (w_ag w)) eqn:Hc; [|by intros [= <-]].
    intros ([] & w1 & Hb & Hrest)%bind_inv.
    eapply IH; [|exact Hrest]. by eapply Hbody.
Qed.

Lemma while_inv (I : agent → Prop) cond body :
  (∀ e w w', I (w_ag w) → cond (w_ag w) = true →
             body e w = Done (tt, w') → I (w_ag w')) →
  ∀ e w w',
    I (w_ag w) → while cond body e w = Done (tt, w') →
    I (w_ag w') ∧ cond (w_ag w') = false.
Proof. intros Hbody e w w'. unfold while. by apply while_loop_inv. Qed.

Lemma for_each_inv {A} (I : agent → Prop) (body : A → M unit) :
  (∀ x e w w', I (w_ag w) → body x e w = Done (tt, w') → I (w_ag w')) →
  ∀ xs e w w',
    I (w_ag w) → for_each xs body e w = Done (tt, w') → I (w_ag w').
Proof.
  intros Hbody xs. induction xs as [|x xs IH]; intros e w w' HI; simpl.
  - by intros [= <-].
  - intros ([] & w1 & Hb & Hrest)%bind_inv.
    eapply IH; [|exact Hrest]. by eapply Hbody.
Qed.
Lemma set_pView_eq v e w :
  set_pView v e w =
  Done (tt, MkWorld (MkAgent (id (w_ag w)) (cfg (w_ag w)) (aView (w_ag w)) v
                       (msgBuffer (w_ag w)) (failmsgBuffer (w_ag w)))
              (w_draws w) (w_trace w)).
Proof. done. Qed.

Lemma set_aView_eq v e w :
  set_aView v e w =
  Done (tt, MkWorld (MkAgent (id (w_ag w)) (cfg (w_ag w)) v (pView (w_ag w))
                       (msgBuffer (w_ag w)) (failmsgBuffer (w_ag w)))
              (w_draws w) (w_trace w)).
Proof. done. Qed.

Lemma set_msgBuffer_eq b e w :
  set_msgBuffer b e w =
  Done (tt, MkWorld (MkAgent (id (w_ag w)) (cfg (w_ag w)) (aView (w_ag w))
                       (pView (w_ag w)) b (failmsgBuffer (w_ag w)))
              (w_draws w) (w_trace w)).
Proof. done. Qed.

Lemma drop_random_passive_safe e w w' :
  drop_random_passive e w = Done (tt, w') →
  keeps_config (w_ag w) (w_ag w') ∧
  aView (w_ag w') = aView (w_ag w) ∧
  Len (pView (w_ag w')) ≤ Len (pView (w_ag w)).
Proof.
  unfold drop_random_passive.
  intros (ag & w1 & [= <- <-] & H)%bind_inv.
  apply bind_inv in H as (n & w2 & Hc & H).
  apply chooseRandomNode_frame in Hc as [Hag _].
  apply bind_inv in H as (nd & w3 & [_ ->]%must_inv & H).
  apply bind_inv in H as (r & w4 & [Hr ->]%must_inv & H).
  rewrite set_pView_eq in H. injection H as <-. simpl. rewrite Hag.
  split_and!; try done. by eapply Remove_Len.
Qed.

(** [addNodePassiveView] keeps the active view and the passive bound. *)
Lemma addNodePassiveView_safe node e w w' :
  addNodePassiveView node e w = Done (tt, w') →
  keeps_config (w_ag w) (w_ag w') ∧
  aView (w_ag w') = aView (w_ag w) ∧
  ((Z.of_nat (Len (pView (w_ag w))) ≤ PViewSize (cfg (w_ag w)))%Z →
   (Z.of_nat (Len (pView (w_ag w'))) ≤ PViewSize (cfg (w_ag w')))%Z).
Proof.
  unfold addNodePassiveView.
  intros (ag & w1 & [= <- <-] & H)%bind_inv.
  destruct (skip_passive (w_ag w) (Id node)); [by injection H as <-|].
  apply bind_inv in H as ([] & w2 & Hloop & H).
  apply (while_inv (λ ag, keeps_config (w_ag w) ag ∧
                          aView ag = aView (w_ag w))) in Hloop
    as [[Hcfg Hav] Hfull]; [| |done].
  2:{ intros e1 w1 w1' [Hc1 Ha1] _ Hb.
      apply drop_random_passive_safe in Hb as (Hc2 & Ha2 & _).
      split; [by etrans|congruence]. }
  apply bind_inv in H as (ag2 & w3 & [= <- <-] & H).
  apply bind_inv in H as (r & w4 & [Hr ->]%must_inv & H).
  rewrite set_pView_eq in H. injection H as <-. simpl.
  split_and!; try done. intros _.
  apply Add_Len in Hr. unfold pView_full in Hfull.
  apply bool_decide_eq_false in Hfull.
  destruct (Has (Id node) (pView (w_ag w2))); lia.
Qed.
Lemma bounded_step_refl ag : bounded_step ag ag.
Proof. by split. Qed.

Lemma bounded_step_trans ag1 ag2 ag3 :
  bounded_step ag1 ag2 → bounded_step ag2 ag3 → bounded_step ag1 ag3.
Proof. intros [? ?] [? ?]. split; [by etrans|auto]. Qed.

Lemma emit_inv ev e w w' :
  emit ev e w = Done (tt, w') → w_ag w' = w_ag w.
Proof. by intros [= <-]. Qed.

Lemma demote_random_active_safe e w w' :
  demote_random_active e w = Done (tt, w') →
  keeps_config (w_ag w) (w_ag w') ∧
  ((Z.of_nat (Len (pView (w_ag w))) ≤ PViewSize (cfg (w_ag w)))%Z →
   (Z.of_nat (Len (pView (w_ag w'))) ≤ PViewSize (cfg (w_ag w')))%Z).
Proof.
  unfold demote_random_active.
  intros (ag & w1 & [= <- <-] & H)%bind_inv.
  apply bind_inv in H as (n & w2 & Hc & H).
  apply chooseRandomNode_frame in Hc as [Hag _].
  apply bind_inv in H as (nd & w3 & [_ ->]%must_inv & H).
  apply bind_inv in H as (r & w4 & [Hr ->]%must_inv & H).
  apply bind_inv in H as ([] & w5 & Hset & H).
  rewrite set_aView_eq in Hset. injection Hset as <-.
  apply bind_inv in H as ([] & w6 & Hem & H). injection Hem as <-.
  apply addNodePassiveView_safe in H as (Hcfg & _ & Hb). simpl in *.
  rewrite Hag in *. split; [done|]. exact Hb.
Qed.

(** [addNodeActiveView] keeps both bounds. *)
Lemma addNodeActiveView_safe node e w w' :
  addNodeActiveView node e w = Done (tt, w') →
  bounded_step (w_ag w) (w_ag w').
Proof.
  unfold addNodeActiveView.
  intros (ag & w1 & [= <- <-] & H)%bind_inv.
  apply bind_inv in H as ([] & w2 & Hloop & H).
  assert (Hmid : keeps_config (w_ag w) (w_ag w2) ∧
            (within_bounds (w_ag w) →
             (Z.of_nat (Len (pView (w_ag w2))) ≤ PViewSize (cfg (w_ag w2)))%Z ∧
             (Z.of_nat (Len (aView (w_ag w2)))
              + (if Has (Id node) (aView (w_ag w2)) then 0 else 1)
              ≤ AViewMaxSize (cfg (w_ag w2)))%Z)).
  { destruct (Has (Id node) (aView (w_ag w))) eqn:Hhas; simpl in Hloop.
    - injection Hloop as <-. split; [done|]. intros [Ha Hp].
      rewrite Hhas. split; [done|lia].
    - apply (while_inv (λ ag, keeps_config (w_ag w) ag ∧
               (within_bounds (w_ag w) →
                (Z.of_nat (Len (pView ag)) ≤ PViewSize (cfg ag))%Z)))
        in Hloop as [[Hcfg Hp] Hfull].
      + split; [done|]. intros Hb. split; [auto|].
        unfold aView_full in Hfull. apply bool_decide_eq_false in Hfull.
        destruct (Has (Id node) (aView (w_ag w2))); lia.
      + intros e1 w1 w1' [Hc1 Hp1] _ Hb.
        apply demote_random_active_safe in Hb as [Hc2 Hp2].
        split; [by etrans|auto].
      + split; [done|]. by intros [_ ?]. }
  destruct Hmid as [Hcfg Hmid].
  apply bind_inv in H as ([] & w3 & Hem & H). injection Hem as <-.
  apply bind_inv in H as (ag3 & w4 & [= <- <-] & H).
  apply bind_inv in H as (r & w5 & [Hr ->]%must_inv & H).
  apply bind_inv in H as ([] & w6 & Hset & H).
  rewrite set_aView_eq in Hset. injection Hset as <-. simpl in *.
  assert (w_ag w' = MkAgent (id (w_ag w2)) (cfg (w_ag w2)) r.1
                      (pView (w_ag w2)) (msgBuffer (w_ag w2))
                      (failmsgBuffer (w_ag w2))) as ->.
  { destruct r.2; [by apply emit_inv in H|by injection H as <-]. }
  split; [done|]. intros Hb. destruct (Hmid Hb) as [Hp Ha].
  apply Add_Len in Hr. split; simpl; [|done].
  destruct (Has (Id node) (aView (w_ag w2))); lia.
Qed.
Lemma addNodePassiveView_bounded node e w w' :
  addNodePassiveView node e w = Done (tt, w') →
  bounded_step (w_ag w) (w_ag w').
Proof.
  intros (Hcfg & Hav & Hp)%addNodePassiveView_safe. split; [done|].
  intros [Ha Hb]. split; [|auto]. destruct Hcfg as [_ Hcfg].
  by rewrite Hav, Hcfg.
Qed.

(** A step that changes no view. *)
Lemma same_views_bounded ag ag' :
  keeps_config ag ag' → aView ag' = aView ag → pView ag' = pView ag →
  bounded_step ag ag'.
Proof.
  intros [Hid Hcfg] Ha Hp. split; [done|]. unfold within_bounds.
  by rewrite Ha, Hp, Hcfg.
Qed.

Lemma handleNeighbor_safe conn msg reply_err e w a w' :
  handleNeighbor conn msg reply_err e w = Done (a, w') →
  bounded_step (w_ag w) (w_ag w').
Proof.
  unfold handleNeighbor.
  intros (ag & w1 & [= <- <-] & H)%bind_inv.
  apply bind_inv in H as ([] & w2 & Hem & H). injection Hem as <-.
  destruct reply_err.
  - apply bind_inv in H as ([] & w3 & Hem & H). injection Hem as <-.
    injection H as _ <-. apply bounded_step_refl.
  - apply bind_inv in H as ([] & w3 & Hadd & H). injection H as _ <-.
    match type of Hadd with (if ?c then _ else _) _ _ = _ => destruct c end.
    + by apply addNodeActiveView_safe in Hadd.
    + injection Hadd as <-. apply bounded_step_refl.
Qed.

Lemma handleJoin_safe conn msg reply_err e w a w' :
  handleJoin conn msg reply_err e w = Done (a, w') →
  bounded_step (w_ag w) (w_ag w').
Proof.
  unfold handleJoin.
  intros (ag & w1 & [= <- <-] & H)%bind_inv.
  apply bind_inv in H as ([] & w2 & Hem & H). injection Hem as <-.
  destruct reply_err.
  - apply bind_inv in H as ([] & w3 & Hem & H). injection Hem as <-.
    injection H as _ <-. apply bounded_step_refl.
  - apply bind_inv in H as ([] & w3 & Hadd & H). injection H as _ <-.
    match type of Hadd with (if ?c then _ else _) _ _ = _ => destruct c end.
    + apply bind_inv in Hadd as ([] & w4 & Hadd & H).
      apply addNodeActiveView_safe in Hadd. simpl in Hadd.
      apply bind_inv in H as (ag4 & w5 & [= <- <-] & H).
      eapply bounded_step_trans; [exact Hadd|].
      eapply (for_each_inv (bounded_step (w_ag w4))); [| |exact H].
      * intros nd e1 w1 w1' HI Hb. cbv beta in Hb.
        destruct (bool_decide (Id nd = _)).
        -- by injection Hb as <-.
        -- apply bind_inv in Hb as (ttl & w6 & [Hag _]%Intn_inv & Hb).
           apply emit_inv in Hb. by rewrite Hb, Hag.
      * apply bounded_step_refl.
    + injection Hadd as <-. apply bounded_step_refl.
Qed.

Lemma handleForwardJoin_safe msg dial e w w' :
  handleForwardJoin msg dial e w = Done (tt, w') →
  bounded_step (w_ag w) (w_ag w').
Proof.
  unfold handleForwardJoin.
  intros (ag & w1 & [= <- <-] & H)%bind_inv.
  match type of H with (if ?c then _ else _) _ _ = _ => destruct c end.
  - match type of H with (if ?c then _ else _) _ _ = _ => destruct c end.
    + destruct dial; [apply emit_inv in H; rewrite H|injection H as <-];
        apply bounded_step_refl.
    + injection H as <-. apply bounded_step_refl.
  - apply bind_inv in H as ([] & w2 & Hadd & H).
    apply bind_inv in H as (ag2 & w3 & [= <- <-] & H).
    apply bind_inv in H as (nd & w4 & [Hag _]%chooseRandomNode_frame & H).
    assert (w_ag w' = w_ag w2) as ->.
    { destruct nd; [apply emit_inv in H|injection H as <-]; congruence. }
    match type of Hadd with (if ?c then _ else _) _ _ = _ => destruct c end.
    + by apply addNodePassiveView_bounded in Hadd.
    + injection Hadd as <-. apply bounded_step_refl.
Qed.

Lemma shuffle_make_room_safe replyCandidates fuel : ∀ i e w i' w',
  shuffle_make_room fuel replyCandidates i e w = Done (i', w') →
  keeps_config (w_ag w) (w_ag w') ∧ aView (w_ag w') = aView (w_ag w) ∧
  pView_full (w_ag w') = false.
Proof.
  induction fuel as [|fuel IH]; intros i e w i' w'; simpl.
  - destruct (pView_full (w_ag w)) eqn:Hfull; [done|].
    by intros [= <- <-].
  - destruct (pView_full (w_ag w)) eqn:Hfull; [|by intros [= <- <-]].
    destruct (replyCandidates !! i) as [c|].
    + intros (ag & w1 & [= <- <-] & H)%bind_inv.
      apply bind_inv in H as (r & w2 & [Hr ->]%must_inv & H).
      apply bind_inv in H as ([] & w3 & Hset & H).
      rewrite set_pView_eq in Hset. injection Hset as <-.
      apply IH in H as (Hcfg & Hav & Hf). by split_and!.
    + intros ([] & w1 & Hdrop & H)%bind_inv.
      apply drop_random_passive_safe in Hdrop as (Hc1 & Ha1 & _).
      apply IH in H as (Hcfg & Hav & Hf).
      split_and!; [by etrans|congruence|done].
Qed.

Lemma shuffle_integrate_safe replyCandidates candidates : ∀ i e w w',
  shuffle_integrate candidates replyCandidates i e w = Done (tt, w') →
  keeps_config (w_ag w) (w_ag w') ∧ aView (w_ag w') = aView (w_ag w) ∧
  ((Z.of_nat (Len (pView (w_ag w))) ≤ PViewSize (cfg (w_ag w)))%Z →
   (Z.of_nat (Len (pView (w_ag w'))) ≤ PViewSize (cfg (w_ag w')))%Z).
Proof.
  induction candidates as [|c candidates IH]; intros i e w w'; simpl.
  - by intros [= <-].
  - intros (ag & w1 & [= <- <-] & H)%bind_inv.
    destruct (skip_passive (w_ag w) (Candidate_Id c)); [by apply IH in H|].
    apply bind_inv in H as (i' & w2 & Hroom & H).
    apply shuffle_make_room_safe in Hroom as (Hc1 & Ha1 & Hfull).
    apply bind_inv in H as (ag2 & w3 & [= <- <-] & H).
    apply bind_inv in H as (r & w4 & [Hr ->]%must_inv & H).
    apply bind_inv in H as ([] & w5 & Hset & H).
    rewrite set_pView_eq in Hset. injection Hset as <-.
    apply IH in H as (Hc2 & Ha2 & Hb). simpl in *.
    split_and!; [by etrans|congruence|]. intros _. apply Hb.
    apply Add_Len in Hr. unfold pView_full in Hfull.
    apply bool_decide_eq_false in Hfull.
    destruct (Has (Candidate_Id c) (pView (w_ag w2))); lia.
Qed.

Lemma handleShuffle_safe msg e w w' :
  handleShuffle msg e w = Done (tt, w') →
  bounded_step (w_ag w) (w_ag w').
Proof.
  unfold handleShuffle.
  intros (ag & w1 & [= <- <-] & H)%bind_inv.
  match type of H with (if ?c then _ else _) _ _ = _ => destruct c end.
  - apply bind_inv in H as (nd & w2 & [Hag _]%chooseRandomNode_frame & H).
    apply bind_inv in H as (n & w3 & [_ ->]%must_inv & H).
    apply emit_inv in H. rewrite H, Hag. apply bounded_step_refl.
  - apply bind_inv in H
      as (rc & w2 & [Hag _]%chooseRandomCandidates_frame & H).
    apply bind_inv in H as ([] & w3 & Hem & H). injection Hem as <-.
    apply shuffle_integrate_safe in H as (Hcfg & Hav & Hp). simpl in *.
    rewrite Hag in *. split; [done|]. intros [Ha Hb]. split; [|auto].
    destruct Hcfg as [_ Hcfg]. by rewrite Hav, Hcfg.
Qed.

Lemma handleShuffleReply_safe msg e w w' :
  handleShuffleReply msg e w = Done (tt, w') →
  bounded_step (w_ag w) (w_ag w').
Proof.
  unfold handleShuffleReply. intros H.
  eapply (for_each_inv (bounded_step (w_ag w))); [| |exact H].
  - intros c e1 w1 w1' HI Hb. apply addNodePassiveView_bounded in Hb.
    by eapply bounded_step_trans.
  - apply bounded_step_refl.
Qed.
Lemma for_each_emit_frame {A} (xs : list A) (body : A → M unit) e w w' :
  (∀ x e w w', body x e w = Done (tt, w') → w_ag w' = w_ag w) →
  for_each xs body e w = Done (tt, w') → w_ag w' = w_ag w.
Proof.
  intros Hbody H.
  eapply (for_each_inv (λ ag, ag = w_ag w)); [| |exact H]; [|done].
  intros x e1 w1 w1' <- Hb. by eapply Hbody.
Qed.

Lemma handleUserMessage_safe sha1_Sum from msg now e w w' :
  handleUserMessage sha1_Sum from msg now e w = Done (tt, w') →
  keeps_config (w_ag w) (w_ag w') ∧
  aView (w_ag w') = aView (w_ag w) ∧ pView (w_ag w') = pView (w_ag w).
Proof.
  unfold handleUserMessage.
  intros (ag & w1 & [= <- <-] & H)%bind_inv.
  case_bool_decide; [by injection H as <-|].
  apply bind_inv in H as (seen & w2 & Hseen & H).
  assert (Hmid : keeps_config (w_ag w) (w_ag w2) ∧
                 aView (w_ag w2) = aView (w_ag w) ∧
                 pView (w_ag w2) = pView (w_ag w)).
  { destruct (Has _ (msgBuffer (w_ag w))); [|by injection Hseen as _ <-].
    apply bind_inv in Hseen as (pd & w3 & [_ ->]%must_inv & Hseen).
    case_bool_decide; [by injection Hseen as _ <-|].
    apply bind_inv in Hseen as (r & w4 & [_ ->]%must_inv & Hseen).
    apply bind_inv in Hseen as ([] & w5 & Hset & Hseen).
    rewrite set_msgBuffer_eq in Hset. injection Hset as <-.
    by injection Hseen as _ <-. }
  destruct Hmid as (Hc & Ha & Hp).
  destruct seen; [by injection H as <-|].
  apply bind_inv in H as (ag2 & w3 & [= <- <-] & H).
  apply bind_inv in H as (b & w4 & [_ ->]%must_inv & H).
  apply bind_inv in H as ([] & w5 & Hset & H).
  rewrite set_msgBuffer_eq in Hset. injection Hset as <-.
  apply bind_inv in H as ([] & w6 & Hem & H). injection Hem as <-.
  apply bind_inv in H as (ag6 & w7 & [= <- <-] & H).
  apply for_each_emit_frame in H as ->; [by split_and!|].
  intros nd e1 w1 w1' Hb. cbv beta in Hb.
  destruct (negb _); [by apply emit_inv in Hb|by injection Hb as <-].
Qed.

Lemma resendFailedMessages_safe e w w' :
  resendFailedMessages e w = Done (tt, w') →
  keeps_config (w_ag w) (w_ag w') ∧
  aView (w_ag w') = aView (w_ag w) ∧ pView (w_ag w') = pView (w_ag w).
Proof.
  unfold resendFailedMessages.
  intros (ag & w1 & [= <- <-] & H)%bind_inv.
  apply bind_inv in H as ([] & w2 & Hput & H). injection Hput as <-.
  apply for_each_emit_frame in H as ->; [by split_and!|].
  intros m e1 w1 w1' Hb.
  apply for_each_emit_frame in Hb; [done|].
  intros nd e2 w2 w2' Hb2. by apply emit_inv in Hb2.
Qed.

Lemma userMessage_safe sha1_Sum nd msg write_err e w w' :
  userMessage sha1_Sum nd msg write_err e w = Done (tt, w') →
  keeps_config (w_ag w) (w_ag w') ∧
  aView (w_ag w') = aView (w_ag w) ∧ pView (w_ag w') = pView (w_ag w).
Proof.
  unfold userMessage. destruct write_err; [|by intros [= <-]].
  intros (ag & w1 & [= <- <-] & H)%bind_inv.
  apply bind_inv in H as (b & w2 & [_ ->]%must_inv & H).
  apply bind_inv in H as ([] & w3 & Hput & H). injection Hput as <-.
  apply emit_inv in H. rewrite H. by split_and!.
Qed.

Lemma Broadcast_safe sha1_Sum payload now write_err e w w' :
  Broadcast sha1_Sum payload now write_err e w = Done (tt, w') →
  keeps_config (w_ag w) (w_ag w') ∧
  aView (w_ag w') = aView (w_ag w) ∧ pView (w_ag w') = pView (w_ag w).
Proof.
  unfold Broadcast. intros (ag & w1 & [= <- <-] & H)%bind_inv.
  eapply (for_each_inv (λ ag, keeps_config (w_ag w) ag ∧
                              aView ag = aView (w_ag w) ∧
                              pView ag = pView (w_ag w))); [| |exact H];
    [|done].
  intros nd e1 w1 w1' (Hc & Ha & Hp) (Hc1 & Ha1 & Hp1)%userMessage_safe.
  split_and!; [by etrans|congruence..].
Qed.

(** Removing from a view keeps the bounds. *)
Lemma remove_pView_bounded ag k r :
  Remove k (pView ag) = Some r →
  bounded_step ag (MkAgent (id ag) (cfg ag) (aView ag) r.1 (msgBuffer ag)
                     (failmsgBuffer ag)).
Proof.
  intros Hr%Remove_Len. split; [done|]. intros [Ha Hp]. split; simpl; [done|].
  lia.
Qed.

Lemma remove_aView_bounded ag k r :
  Remove k (aView ag) = Some r →
  bounded_step ag (MkAgent (id ag) (cfg ag) r.1 (pView ag) (msgBuffer ag)
                     (failmsgBuffer ag)).
Proof.
  intros Hr%Remove_Len. split; [done|]. intros [Ha Hp]. split; simpl; [|done].
  lia.
Qed.

Lemma promote_passive_safe attempts : ∀ e w w',
  promote_passive attempts e w = Done (tt, w') →
  bounded_step (w_ag w) (w_ag w').
Proof.
  induction attempts as [|[dial reply] attempts IH]; intros e w w'; simpl.
  - intros (ag & w1 & [= <- <-] & H)%bind_inv.
    apply bind_inv in H as (nd & w2 & [Hag _]%chooseRandomNode_frame & H).
    destruct nd; [done|]. injection H as <-. rewrite Hag.
    apply bounded_step_refl.
  - intros (ag & w1 & [= <- <-] & H)%bind_inv.
    apply bind_inv in H as (nd & w2 & [Hag _]%chooseRandomNode_frame & H).
    destruct nd as [nd|]; [|injection H as <-; rewrite Hag;
                             apply bounded_step_refl].
    destruct dial as [conn|].
    + apply bind_inv in H as ([] & w3 & Hem%emit_inv & H).
      destruct reply as [[|]|].
      * apply bind_inv in H as (ag3 & w4 & [= <- <-] & H).
        apply bind_inv in H as (r & w5 & [Hr ->]%must_inv & H).
        apply bind_inv in H as ([] & w6 & Hset & H).
        rewrite set_pView_eq in Hset. injection Hset as <-.
        apply addNodeActiveView_safe in H. simpl in H.
        rewrite <- Hag, <- Hem.
        eapply bounded_step_trans; [|exact H].
        by apply (remove_pView_bounded _ (Id nd)).
      * apply IH in H. by rewrite <- Hag, <- Hem.
      * apply bind_inv in H as ([] & w4 & Hem2%emit_inv & H).
        apply IH in H. by rewrite <- Hag, <- Hem, <- Hem2.
    + apply bind_inv in H as (r & w3 & [Hr ->]%must_inv & H).
      apply bind_inv in H as ([] & w4 & Hset & H).
      rewrite set_pView_eq in Hset. injection Hset as <-.
      apply IH in H. simpl in H. rewrite Hag in H.
      eapply bounded_step_trans; [|exact H].
      by apply (remove_pView_bounded _ (Id nd)).
Qed.

Lemma replaceActiveNode_safe node attempts e w w' :
  replaceActiveNode node attempts e w = Done (tt, w') →
  bounded_step (w_ag w) (w_ag w').
Proof.
  unfold replaceActiveNode.
  intros (ag & w1 & [= <- <-] & H)%bind_inv.
  apply bind_inv in H as (r & w2 & [Hr ->]%must_inv & H).
  destruct (negb r.2); [injection H as <-; apply bounded_step_refl|].
  apply bind_inv in H as ([] & w3 & Hset & H).
  rewrite set_aView_eq in Hset. injection Hset as <-.
  apply bind_inv in H as ([] & w4 & Hem & H). injection Hem as <-.
  apply bind_inv in H as ([] & w5 & Hpro%promote_passive_safe & H).
  apply bind_inv in H as ([] & w6 & Hadd%addNodePassiveView_bounded & H).
  apply resendFailedMessages_safe in H as (Hc & Ha & Hp). simpl in *.
  eapply bounded_step_trans; [by apply (remove_aView_bounded _ (Id node))|].
  eapply bounded_step_trans; [exact Hpro|].
  eapply bounded_step_trans; [exact Hadd|].
  by apply same_views_bounded.
Qed.

Lemma join_peers_safe peers : ∀ e w a w',
  join_peers peers e w = Done (a, w') → bounded_step (w_ag w) (w_ag w').
Proof.
  induction peers as [|[addr answer] peers IH]; intros e w a w'; simpl.
  - intros [= _ <-]. apply bounded_step_refl.
  - destruct answer as [[|]|conn|conn rid [|]].
    + by intros ([] & w1 & _ & ?)%bind_inv.
    + intros ([] & w1 & Hem%emit_inv & H)%bind_inv. rewrite <- Hem.
      apply bind_inv in H as ([] & w2 & Hem2%emit_inv & H).
      apply IH in H. by rewrite <- Hem2.
    + intros ([] & w1 & Hem%emit_inv & H)%bind_inv. rewrite <- Hem.
      apply bind_inv in H as ([] & w2 & Hem2%emit_inv & H).
      apply IH in H. by rewrite <- Hem2.
    + intros ([] & w1 & Hem%emit_inv & H)%bind_inv. rewrite <- Hem.
      apply bind_inv in H as ([] & w2 & Hadd%addNodeActiveView_safe & H).
      by injection H as _ <-.
    + intros ([] & w1 & Hem%emit_inv & H)%bind_inv. rewrite <- Hem.
      apply bind_inv in H as ([] & w2 & Hem2%emit_inv & H).
      apply IH in H. by rewrite <- Hem2.
Qed.

Lemma keeps_config_limits ag ag' : keeps_config ag ag' → keeps_limits ag ag'.
Proof.
  intros [Hid Hcfg]. split; [done|]. exists (Peers (cfg ag)).
  rewrite Hcfg. by destruct (cfg ag).
Qed.

Lemma Join_safe peers e w a w' :
  Join peers e w = Done (a, w') →
  id (w_ag w') = id (w_ag w) ∧
  cfg (w_ag w')
  = set_Peers (cfg (w_ag w)) (Peers (cfg (w_ag w)) ++ peers.*1) ∧
  (within_bounds (w_ag w) → within_bounds (w_ag w')).
Proof.
  unfold Join. intros (ag & w1 & [= <- <-] & H)%bind_inv.
  apply bind_inv in H as ([] & w2 & Hput & H). injection Hput as <-.
  apply join_peers_safe in H as [[Hid Hcfg] Hb]. simpl in *.
  split_and!; [done..|]. intros Hwb. by apply Hb.
Qed.

Lemma run_call_safe sha1_Sum cl e w w' :
  run_call sha1_Sum cl e w = Done (tt, w') →
  keeps_limits (w_ag w) (w_ag w') ∧
  (within_bounds (w_ag w) → within_bounds (w_ag w')).
Proof.
  assert (Hstep : ∀ ag ag', bounded_step ag ag' →
            keeps_limits ag ag' ∧ (within_bounds ag → within_bounds ag')).
  { intros ag ag' [Hc Hb]. split; [by apply keeps_config_limits|done]. }
  destruct cl; simpl.
  - intros (a & w1 & H%handleJoin_safe & [= <-])%bind_inv. by apply Hstep.
  - intros (a & w1 & H%handleNeighbor_safe & [= <-])%bind_inv.
    by apply Hstep.
  - intros H%handleShuffleReply_safe. by apply Hstep.
  - intros H%handleForwardJoin_safe. by apply Hstep.
  - intros H%handleShuffle_safe. by apply Hstep.
  - intros (Hc & Ha & Hp)%handleUserMessage_safe. apply Hstep.
    by apply same_views_bounded.
  - intros H%replaceActiveNode_safe. by apply Hstep.
  - intros (a & w1 & (Hid & Hcfg & Hb)%Join_safe & [= <-])%bind_inv.
    split; [|done]. split; [done|]. by eexists.
  - intros (Hc & Ha & Hp)%Broadcast_safe. apply Hstep.
    by apply same_views_bounded.
Qed.

(** The bounds hold in every reachable state, and the configuration is
    the one the agent was started with, but for its peer list. *)
Lemma reachable_within_bounds sha1_Sum c genid w :
  (0 ≤ AViewMaxSize c)%Z → (0 ≤ PViewSize c)%Z →
  reachable sha1_Sum c genid w →
  (∃ peers, cfg (w_ag w) = set_Peers c peers) ∧ within_bounds (w_ag w).
Proof.
  intros Ha Hp. induction 1 as [|w w' e cl Hreach [[ps Hcfg] IH] Hstep].
  - split; [exists (Peers c); by destruct c|].
    split; unfold Len; simpl; lia.
  - apply run_call_safe in Hstep as [[_ [ps' Hc]] Hb]. split; [|auto].
    exists ps'. by rewrite Hc, Hcfg.
Qed.
End AgentSafety.

(** ** The agent: handlers that come back *)

Section AgentTotal.
Import arraymap message agent.

Lemma view_ok_entries v :
  view_ok v ↔ wf v ∧ Forall (λ kv, Id kv.2 = kv.1) (entries v).
Proof.
  unfold view_ok. split; intros [Hwf H]; (split; [done|]).
  - apply Forall_lookup. intros i [k nd] Hi. unfold entries in Hi.
    rewrite (lookup_zip_with pair) in Hi.
    destruct (keys v !! i) eqn:Hk; simpl in Hi; [|done].
    destruct (values v !! i) eqn:Hv; simplify_eq/=. eauto.
  - intros i k nd Hk Hv.
    eapply (Forall_lookup_1 _ _ i (k, nd)) in H; [done|].
    unfold entries. by rewrite (lookup_zip_with pair), Hk, Hv.
Qed.

Lemma view_ok_ids v : view_ok v → Id <$> values v = keys v.
Proof.
  intros [[Hlen Hpos] Hid]. apply list_eq. intros i.
  rewrite list_lookup_fmap.
  destruct (values v !! i) as [nd|] eqn:Hv; simpl.
  - destruct (lookup_lt_is_Some_2 (keys v) i) as [k Hk].
    { rewrite Hlen. by eapply lookup_lt_Some. }
    rewrite Hk. f_equal. eauto.
  - symmetry. apply lookup_ge_None. rewrite Hlen. by apply lookup_ge_None.
Qed.

Lemma view_ok_NewArrayMap : view_ok NewArrayMap.
Proof. split; [apply wf_NewArrayMap|]. intros i k nd Hk. done. Qed.

Lemma elem_of_drop_key_fst {V} (l : list (N * V)) k k' :
  k' ∈ (drop_key k l).*1 ↔ k' ∈ l.*1 ∧ k' ≠ k.
Proof.
  unfold drop_key. rewrite !list_elem_of_fmap. split.
  - intros ([k2 v2] & -> & [Hne Hin]%list_elem_of_filter). split; [|done].
    by exists (k2, v2).
  - intros [([k2 v2] & -> & Hin) Hne]. exists (k2, v2). split; [done|].
    by apply list_elem_of_filter.
Qed.

Lemma Forall_filter {A} (P Q : A → Prop) `{∀ x, Decision (Q x)} (l : list A) :
  Forall P l → Forall P (filter Q l).
Proof.
  rewrite !Forall_forall. intros HP x [_ Hin]%list_elem_of_filter. auto.
Qed.

Lemma view_ok_Remove v k :
  view_ok v →
  ∃ v', Remove k v = Some (v', Has k v) ∧ view_ok v' ∧
        Len v' = Len v - (if Has k v then 1 else 0) ∧
        (∀ k', k' ∈ keys v' ↔ k' ∈ keys v ∧ k' ≠ k).
Proof.
  intros [Hwf Hid]%view_ok_entries.
  destruct (Remove_spec v k Hwf) as (v' & Hr & Hwf' & Hen & Hlen).
  exists v'. split_and!; [done| |done|].
  - apply view_ok_entries. split; [done|]. rewrite Hen.
    unfold drop_key. by apply Forall_filter.
  - intros k'. rewrite <- (keys_entries v' Hwf'), <- (keys_entries v Hwf).
    rewrite Hen. apply elem_of_drop_key_fst.
Qed.

Lemma view_ok_Add v nd :
  view_ok v →
  ∃ v' old, Add (Id nd) nd v = Some (v', old) ∧ view_ok v' ∧
        Len v' = Len v + (if Has (Id nd) v then 0 else 1) ∧
        (∀ k', k' ∈ keys v' ↔ k' ∈ keys v ∨ k' = Id nd) ∧
        (Has (Id nd) v = false →
         old = None ∧ keys v' = keys v ++ [Id nd] ∧
         values v' = values v ++ [nd]).
Proof.
  intros [Hwf Hid]%view_ok_entries.
  destruct (Add_spec v (Id nd) nd Hwf) as (v' & old & Hadd & Hwf' & Hen & Hlen).
  exists v', old. split_and!; [done| |done| |].
  - apply view_ok_entries. split; [done|]. rewrite Hen.
    apply Forall_app. split; [by apply Forall_filter|].
    by apply Forall_singleton.
  - intros k'. rewrite <- (keys_entries v' Hwf'), <- (keys_entries v Hwf).
    rewrite Hen, fmap_app, elem_of_app, elem_of_drop_key_fst. simpl.
    rewrite list_elem_of_singleton.
    split; [intros [[? ?]|?]; auto|].
    intros [?|?]; [|by right]. destruct (decide (k' = Id nd)); auto.
  - intros Hhas.
    destruct (Add_fresh v (Id nd) nd Hwf Hhas) as (v2 & Hadd2 & _ & ? & ?).
    rewrite Hadd in Hadd2. by simplify_eq.
Qed.

(** A victim for an eviction: [chooseRandomNode(view, 0)] on a view that
    is not empty and does not hold the id 0 alone. *)
Lemma choose_victim v e w :
  view_ok v → 1 ≤ Len v → (2 ≤ Len v ∨ 0%N ∉ keys v) →
  ∃ nd, chooseRandomNode v 0 e w
        = Done (Some nd, MkWorld (w_ag w) (S (w_draws w)) (w_trace w)) ∧
        nd ∈ values v ∧ Has (Id nd) v = true.
Proof.
  intros Hok Hlen Hno0. pose proof (view_ok_ids v Hok) as Hids.
  pose proof Hok as [Hwf _]. pose proof Hwf as [Hl _].
  destruct (chooseRandomNode_total v 0 e w Hl) as (res & Hres & Hnil & Hin & _).
  { unfold Values. rewrite Hids. by apply wf_NoDup. }
  rewrite decide_False in Hres by lia.
  destruct res as [nd|].
  - exists nd. destruct (Hin nd eq_refl) as [Hnd _]. split_and!; [done..|].
    apply Has_true; [done|]. rewrite <- Hids. by apply list_elem_of_fmap_2.
  - exfalso. destruct Hnil as [Hnil _].
    destruct (Hnil eq_refl) as [Hv|(nd & Hv & Hid0)]; unfold Values in Hv.
    + unfold Len in Hlen. rewrite Hl, Hv in Hlen. simpl in Hlen. lia.
    + rewrite Hv in Hids. simpl in Hids. destruct Hno0 as [H2|H0].
      * unfold Len in H2. rewrite Hl, Hv in H2. simpl in H2. lia.
      * apply H0. rewrite <- Hids, Hid0. apply list_elem_of_here.
Qed.
Lemma get_eq e w : get e w = Done (w_ag w, w).
Proof. done. Qed.

Lemma emit_eq ev e w :
  emit ev e w = Done (tt, MkWorld (w_ag w) (w_draws w) (w_trace w ++ [ev])).
Proof. done. Qed.

Lemma while_loop_false fuel cond body e w :
  cond (w_ag w) = false → while_loop fuel cond body e w = Done (tt, w).
Proof. intros Hc. destruct fuel; simpl; by rewrite Hc. Qed.

Lemma drop_random_passive_total e w :
  view_ok (pView (w_ag w)) →
  1 ≤ Len (pView (w_ag w)) →
  (2 ≤ Len (pView (w_ag w)) ∨ 0%N ∉ keys (pView (w_ag w))) →
  ∃ w', drop_random_passive e w = Done (tt, w') ∧
        keeps_config (w_ag w) (w_ag w') ∧
        aView (w_ag w') = aView (w_ag w) ∧
        w_trace w' = w_trace w ∧
        view_ok (pView (w_ag w')) ∧
        Len (pView (w_ag w')) = Len (pView (w_ag w)) - 1 ∧
        (∀ k, k ∈ keys (pView (w_ag w')) → k ∈ keys (pView (w_ag w))).
Proof.
  intros Hok Hlen Hno0. unfold drop_random_passive.
  rewrite (bind_Done _ _ _ _ _ _ (get_eq e w)).
  destruct (choose_victim _ e w Hok Hlen Hno0) as (nd & Hch & Hin & Hhas).
  rewrite (bind_Done _ _ _ _ _ _ Hch). simpl.
  destruct (view_ok_Remove _ (Id nd) Hok) as (p' & Hrm & Hok' & Hlen' & Hkeys).
  rewrite Hhas in Hrm, Hlen'.
  unfold mbind at 1, M_bind at 1. simpl.
  unfold mbind at 1, M_bind at 1. simpl. rewrite Hrm. simpl.
  eexists. split; [done|]. simpl. split_and!; try done.
  intros k Hk. by apply Hkeys in Hk as [? _].
Qed.

(** The passive eviction loop on a view within its bound. *)
Lemma evict_passive_total e w :
  view_ok (pView (w_ag w)) →
  (Z.of_nat (Len (pView (w_ag w))) ≤ PViewSize (cfg (w_ag w)))%Z →
  can_evict (PViewSize (cfg (w_ag w))) (pView (w_ag w)) →
  1 ≤ budget e →
  ∃ w', while pView_full drop_random_passive e w = Done (tt, w') ∧
        keeps_config (w_ag w) (w_ag w') ∧
        aView (w_ag w') = aView (w_ag w) ∧
        w_trace w' = w_trace w ∧
        view_ok (pView (w_ag w')) ∧
        pView_full (w_ag w') = false ∧
        (∀ k, k ∈ keys (pView (w_ag w')) → k ∈ keys (pView (w_ag w))) ∧
        (pView_full (w_ag w) = false → w' = w).
Proof.
  intros Hok Hb Hev Hfuel. unfold while.
  destruct (budget e) as [|fuel]; [lia|]. simpl.
  destruct (pView_full (w_ag w)) eqn:Hfull.
  - pose proof Hfull as Hf. unfold pView_full in Hf.
    apply bool_decide_eq_true in Hf.
    destruct (drop_random_passive_total e w Hok)
      as (w1 & Hdrop & Hcfg & Hav & Htr & Hok1 & Hlen1 & Hkeys1).
    { destruct Hev as [?|[? _]]; lia. }
    { destruct Hev as [?|[_ ?]]; [left; lia|by right]. }
    rewrite (bind_Done _ _ _ _ _ _ Hdrop).
    assert (Hnf : pView_full (w_ag w1) = false).
    { unfold pView_full. apply bool_decide_eq_false. destruct Hcfg as [_ ->].
      assert (1 ≤ Len (pView (w_ag w))) by (destruct Hev as [?|[? _]]; lia).
      lia. }
    rewrite while_loop_false by done.
    exists w1. by split_and!.
  - exists w. by split_and!.
Qed.

Lemma addNodePassiveView_total node e w :
  view_ok (pView (w_ag w)) →
  (Z.of_nat (Len (pView (w_ag w))) ≤ PViewSize (cfg (w_ag w)))%Z →
  can_evict (PViewSize (cfg (w_ag w))) (pView (w_ag w)) →
  1 ≤ budget e →
  ∃ w', addNodePassiveView node e w = Done (tt, w') ∧
        keeps_config (w_ag w) (w_ag w') ∧
        aView (w_ag w') = aView (w_ag w) ∧
        w_trace w' = w_trace w ∧
        view_ok (pView (w_ag w')) ∧
        (Z.of_nat (Len (pView (w_ag w'))) ≤ PViewSize (cfg (w_ag w')))%Z ∧
        (∀ k, k ∈ keys (pView (w_ag w')) →
              k ∈ keys (pView (w_ag w)) ∨ k = Id node) ∧
        (skip_passive (w_ag w) (Id node) = false →
         Id node ∈ keys (pView (w_ag w'))) ∧
        (skip_passive (w_ag w) (Id node) = true → w' = w).
Proof.
  intros Hok Hb Hev Hfuel. unfold addNodePassiveView.
  rewrite (bind_Done _ _ _ _ _ _ (get_eq e w)).
  destruct (skip_passive (w_ag w) (Id node)) eqn:Hskip.
  - exists w. by split_and!; try done; auto.
  - destruct (evict_passive_total e w Hok Hb Hev Hfuel)
      as (w1 & Hloop & Hcfg & Hav & Htr & Hok1 & Hnf & Hkeys1 & _).
    rewrite (bind_Done _ _ _ _ _ _ Hloop).
    rewrite (bind_Done _ _ _ _ _ _ (get_eq e w1)).
    destruct (view_ok_Add _ node Hok1) as (p' & old & Hadd & Hok' & Hlen' & Hkeys' & _).
    unfold mbind at 1, M_bind at 1. rewrite Hadd. simpl.
    eexists. split; [done|]. simpl. split_and!; try done.
    + unfold pView_full in Hnf. apply bool_decide_eq_false in Hnf.
      destruct (Has (Id node) (pView (w_ag w1))); lia.
    + intros k [Hk| ->]%Hkeys'; [left; auto|by right].
    + intros _. apply Hkeys'. by right.
Qed.
Lemma demote_random_active_total e w :
  view_ok (aView (w_ag w)) → view_ok (pView (w_ag w)) →
  1 ≤ Len (aView (w_ag w)) →
  (2 ≤ Len (aView (w_ag w)) ∨ 0%N ∉ keys (aView (w_ag w))) →
  (Z.of_nat (Len (pView (w_ag w))) ≤ PViewSize (cfg (w_ag w)))%Z →
  can_evict (PViewSize (cfg (w_ag w))) (pView (w_ag w)) →
  1 ≤ budget e →
  ∃ w' n, demote_random_active e w = Done (tt, w') ∧
        keeps_config (w_ag w) (w_ag w') ∧
        n ∈ values (aView (w_ag w)) ∧
        view_ok (aView (w_ag w')) ∧
        Len (aView (w_ag w')) = Len (aView (w_ag w)) - 1 ∧
        (∀ k, k ∈ keys (aView (w_ag w')) ↔
              k ∈ keys (aView (w_ag w)) ∧ k ≠ Id n) ∧
        view_ok (pView (w_ag w')) ∧
        (Z.of_nat (Len (pView (w_ag w'))) ≤ PViewSize (cfg (w_ag w')))%Z ∧
        (∀ k, k ∈ keys (pView (w_ag w')) →
              k ∈ keys (pView (w_ag w)) ∨ k = Id n) ∧
        (Id n ∈ keys (pView (w_ag w')) ∨ Id n = id (w_ag w)) ∧
        w_trace w' = w_trace w ++ [GoDisconnect n].
Proof.
  intros Hoka Hokp Hlen Hno0 Hb Hev Hfuel. unfold demote_random_active.
  rewrite (bind_Done _ _ _ _ _ _ (get_eq e w)).
  destruct (choose_victim _ e w Hoka Hlen Hno0) as (nd & Hch & Hin & Hhas).
  rewrite (bind_Done _ _ _ _ _ _ Hch). simpl.
  destruct (view_ok_Remove _ (Id nd) Hoka) as (a' & Hrm & Hok' & Hlen' & Hkeys).
  rewrite Hhas in Hrm, Hlen'.
  unfold mbind at 1, M_bind at 1. simpl.
  unfold mbind at 1, M_bind at 1. simpl. rewrite Hrm. simpl.
  unfold mbind at 1, M_bind at 1. simpl.
  unfold mbind at 1, M_bind at 1. simpl.
  match goal with
  | |- ∃ w' n, addNodePassiveView _ _ ?w3 = _ ∧ _ =>
      destruct (addNodePassiveView_total nd e w3)
        as (w4 & Hadd & Hcfg & Hav & Htr & Hokp' & Hb' & Hkp & Hin' & Hskip);
        simpl; try done
  end.
  exists w4, nd. simpl in *. split_and!; try done.
  - by rewrite Hav.
  - by rewrite Hav.
  - by rewrite Hav.
  - match type of Hin' with
    | skip_passive ?ag ?k = false → _ => destruct (skip_passive ag k) eqn:Hs
    end; [|left; by apply Hin'].
    rewrite (Hskip eq_refl). simpl. unfold skip_passive in Hs. simpl in Hs.
    apply orb_true_iff in Hs as [Hs|Hs];
      [apply orb_true_iff in Hs as [Hs|Hs]|].
    + right. by apply bool_decide_eq_true in Hs.
    + exfalso. apply Has_true in Hs; [|by destruct Hok'].
      apply Hkeys in Hs as [_ ?]. done.
    + left. by apply Has_true in Hs; [|by destruct Hokp].
Qed.

(** The active eviction loop on views within their bounds. *)
Lemma evict_active_total e w :
  view_ok (aView (w_ag w)) → view_ok (pView (w_ag w)) →
  within_bounds (w_ag w) →
  can_evict (AViewMaxSize (cfg (w_ag w))) (aView (w_ag w)) →
  can_evict (PViewSize (cfg (w_ag w))) (pView (w_ag w)) →
  1 ≤ budget e →
  ∃ w', while aView_full demote_random_active e w = Done (tt, w') ∧
        keeps_config (w_ag w) (w_ag w') ∧
        view_ok (aView (w_ag w')) ∧ view_ok (pView (w_ag w')) ∧
        (Z.of_nat (Len (pView (w_ag w'))) ≤ PViewSize (cfg (w_ag w')))%Z ∧
        aView_full (w_ag w') = false ∧
        (aView_full (w_ag w) = false → w' = w) ∧
        (aView_full (w_ag w) = true →
         ∃ n, n ∈ values (aView (w_ag w)) ∧
              (∀ k, k ∈ keys (aView (w_ag w')) ↔
                    k ∈ keys (aView (w_ag w)) ∧ k ≠ Id n) ∧
              (∀ k, k ∈ keys (pView (w_ag w')) →
                    k ∈ keys (pView (w_ag w)) ∨ k = Id n) ∧
              (Id n ∈ keys (pView (w_ag w')) ∨ Id n = id (w_ag w)) ∧
              w_trace w' = w_trace w ++ [GoDisconnect n]).
Proof.
  intros Hoka Hokp [Hba Hbp] Heva Hevp Hfuel. unfold while.
  destruct (budget e) as [|fuel] eqn:Hbud; [lia|]. simpl.
  destruct (aView_full (w_ag w)) eqn:Hfull.
  - pose proof Hfull as Hf. unfold aView_full in Hf.
    apply bool_decide_eq_true in Hf.
    assert (1 ≤ Len (aView (w_ag w))) by (destruct Heva as [?|[? _]]; lia).
    destruct (demote_random_active_total e w Hoka Hokp)
      as (w1 & n & Hdem & Hcfg & Hin & Hoka1 & Hlen1 & Hka & Hokp1 & Hbp1
          & Hkp & Hn & Htr); try done.
    { destruct Heva as [?|[_ ?]]; [left; lia|by right]. }
    { lia. }
    rewrite (bind_Done _ _ _ _ _ _ Hdem).
    assert (Hnf : aView_full (w_ag w1) = false).
    { unfold aView_full. apply bool_decide_eq_false. destruct Hcfg as [_ ->].
      lia. }
    rewrite while_loop_false by done.
    exists w1. split_and!; try done. intros _. by exists n.
  - exists w. by split_and!.
Qed.

(** [addNodeActiveView] comes back with the node in the active view and
    both views in order and within their bounds; when the view was full
    and the node new, one random node has left the active view, has been
    told to disconnect, and is in the passive view unless it is the
    agent itself. *)
Lemma addNodeActiveView_total node e w :
  view_ok (aView (w_ag w)) → view_ok (pView (w_ag w)) →
  within_bounds (w_ag w) →
  can_evict (AViewMaxSize (cfg (w_ag w))) (aView (w_ag w)) →
  can_evict (PViewSize (cfg (w_ag w))) (pView (w_ag w)) →
  1 ≤ budget e →
  ∃ w', addNodeActiveView node e w = Done (tt, w') ∧
        keeps_config (w_ag w) (w_ag w') ∧
        view_ok (aView (w_ag w')) ∧ view_ok (pView (w_ag w')) ∧
        within_bounds (w_ag w') ∧
        Id node ∈ keys (aView (w_ag w')) ∧
        (Has (Id node) (aView (w_ag w)) = true →
         keys (aView (w_ag w')) = keys (aView (w_ag w)) ∧
         pView (w_ag w') = pView (w_ag w)) ∧
        (Has (Id node) (aView (w_ag w)) = false →
         aView_full (w_ag w) = false →
         keys (aView (w_ag w')) = keys (aView (w_ag w)) ++ [Id node] ∧
         pView (w_ag w') = pView (w_ag w) ∧
         w_trace w' = w_trace w ++ [GoServeNode node]) ∧
        (Has (Id node) (aView (w_ag w)) = false →
         aView_full (w_ag w) = true →
         ∃ n, n ∈ values (aView (w_ag w)) ∧
              (∀ k, k ∈ keys (aView (w_ag w')) ↔
                    (k ∈ keys (aView (w_ag w)) ∧ k ≠ Id n) ∨ k = Id node) ∧
              (∀ k, k ∈ keys (pView (w_ag w')) →
                    k ∈ keys (pView (w_ag w)) ∨ k = Id n) ∧
              (Id n ∈ keys (pView (w_ag w')) ∨ Id n = id (w_ag w)) ∧
              w_trace w' = w_trace w ++ [GoDisconnect n; GoServeNode node]).
Proof.
  intros Hoka Hokp Hb Heva Hevp Hfuel. unfold addNodeActiveView.
  rewrite (bind_Done _ _ _ _ _ _ (get_eq e w)).
  destruct (Has (Id node) (aView (w_ag w))) eqn:Hhas; simpl.
  - unfold mbind at 1, M_bind at 1. simpl.
    unfold mbind at 1, M_bind at 1. simpl.
    unfold mbind at 1, M_bind at 1. simpl.
    destruct (Add_present _ (Id node) node (proj1 Hoka) Hhas)
      as (a' & p & old & Hadd & Hwf' & Hk & Hold & Hks & Hvs).
    destruct (view_ok_Add _ node Hoka)
      as (a2 & old2 & Hadd2 & Hok2 & Hlen2 & Hkeys2 & _).
    rewrite Hadd in Hadd2. injection Hadd2 as <- <-. rewrite Hhas in Hlen2.
    unfold mbind at 1, M_bind at 1. rewrite Hadd. simpl.
    eexists. split; [done|]. simpl. destruct Hb as [Hba Hbp].
    split_and!; try done.
    + split; simpl; [lia|done].
    + apply Hkeys2. by right.
  - destruct (evict_active_total e w Hoka Hokp Hb Heva Hevp Hfuel)
      as (w1 & Hloop & Hcfg & Hoka1 & Hokp1 & Hbp1 & Hnf & Hsame & Hevict).
    rewrite (bind_Done _ _ _ _ _ _ Hloop).
    rewrite (bind_Done _ _ _ _ _ _ (emit_eq _ e w1)).
    unfold mbind at 1, M_bind at 1. simpl.
    destruct (view_ok_Add _ node Hoka1)
      as (a' & old & Hadd & Hok' & Hlen' & Hkeys' & Hfresh).
    assert (Hhas1 : Has (Id node) (aView (w_ag w1)) = false).
    { destruct (aView_full (w_ag w)) eqn:Hfull.
      - destruct (Hevict eq_refl) as (n & _ & Hka & _).
        apply Has_false; [by destruct Hoka1|]. intros [Hin _]%Hka.
        apply Has_false in Hhas; [done|by destruct Hoka].
      - by rewrite (Hsame eq_refl). }
    destruct (Hfresh Hhas1) as (-> & Hks & Hvs). rewrite Hhas1 in Hlen'.
    unfold mbind at 1, M_bind at 1. rewrite Hadd. simpl.
    eexists. split; [done|]. simpl. split_and!; try done.
    + unfold aView_full in Hnf. apply bool_decide_eq_false in Hnf.
      split; simpl; [lia|done].
    + apply Hkeys'. by right.
    + intros _ Hfull. rewrite (Hsame Hfull) in *. done.
    + intros _ Hfull. destruct (Hevict Hfull) as (n & Hin & Hka & Hkp & Hn & Htr).
      exists n. split_and!; try done.
      * intros k. rewrite Hkeys', Hka. done.
      * rewrite Htr, <- app_assoc. done.
Qed.
End AgentTotal.

(** ** The agent: what the views hold after an addition *)

Section AgentExact.
Import arraymap message agent.

Lemma drop_random_passive_exact e w :
  view_ok (pView (w_ag w)) →
  1 ≤ Len (pView (w_ag w)) →
  (2 ≤ Len (pView (w_ag w)) ∨ 0%N ∉ keys (pView (w_ag w))) →
  ∃ p' m,
    drop_random_passive e w
    = Done (tt, MkWorld (MkAgent (id (w_ag w)) (cfg (w_ag w))
                           (aView (w_ag w)) p' (msgBuffer (w_ag w))
                           (failmsgBuffer (w_ag w)))
                  (S (w_draws w)) (w_trace w)) ∧
    view_ok p' ∧ m ∈ values (pView (w_ag w)) ∧
    Len p' = Len (pView (w_ag w)) - 1 ∧
    ∀ k v, stored k v p' ↔ stored k v (pView (w_ag w)) ∧ k ≠ Id m.
Proof.
  intros Hok Hlen Hno0. unfold drop_random_passive.
  rewrite (bind_Done _ _ _ _ _ _ (get_eq e w)).
  destruct (choose_victim _ e w Hok Hlen Hno0) as (nd & Hch & Hin & Hhas).
  rewrite (bind_Done _ _ _ _ _ _ Hch). simpl.
  destruct (view_ok_Remove _ (Id nd) Hok) as (p' & Hrm & Hok' & Hlen' & _).
  destruct (Remove_stored _ (Id nd) (proj1 Hok)) as (p2 & Hrm2 & _ & Hst).
  rewrite Hrm in Hrm2. injection Hrm2 as <-.
  rewrite Hhas in Hrm, Hlen'.
  unfold mbind at 1, M_bind at 1. simpl.
  unfold mbind at 1, M_bind at 1. simpl. rewrite Hrm. simpl.
  exists p', nd. by split_and!.
Qed.

(** [addNodePassiveView], exactly. *)
Lemma addNodePassiveView_exact node e w :
  view_ok (pView (w_ag w)) →
  (Z.of_nat (Len (pView (w_ag w))) ≤ PViewSize (cfg (w_ag w)))%Z →
  can_evict (PViewSize (cfg (w_ag w))) (pView (w_ag w)) →
  1 ≤ budget e →
  ∃ p' draws,
    addNodePassiveView node e w
    = Done (tt, MkWorld (MkAgent (id (w_ag w)) (cfg (w_ag w))
                           (aView (w_ag w)) p' (msgBuffer (w_ag w))
                           (failmsgBuffer (w_ag w)))
                  draws (w_trace w)) ∧
    view_ok p' ∧
    (Z.of_nat (Len p') ≤ PViewSize (cfg (w_ag w)))%Z ∧
    passive_after (skip_passive (w_ag w) (Id node)) (pView_full (w_ag w))
      node (pView (w_ag w)) p'.
Proof.
  intros Hok Hb Hev Hfuel. unfold addNodePassiveView, passive_after.
  rewrite (bind_Done _ _ _ _ _ _ (get_eq e w)).
  destruct (skip_passive (w_ag w) (Id node)) eqn:Hskip.
  { exists (pView (w_ag w)), (w_draws w). split_and!; [|done..].
    by destruct w as [[]]. }
  assert (Hnp : Has (Id node) (pView (w_ag w)) = false).
  { unfold skip_passive in Hskip. by apply orb_false_iff in Hskip as [_ ?]. }
  destruct (pView_full (w_ag w)) eqn:Hfull.
  - pose proof Hfull as Hf. unfold pView_full in Hf.
    apply bool_decide_eq_true in Hf.
    assert (Hlen : 1 ≤ Len (pView (w_ag w)))
      by (destruct Hev as [?|[? _]]; lia).
    destruct (drop_random_passive_exact e w Hok Hlen)
      as (p1 & m & Hdrop & Hok1 & Hm & Hlen1 & Hst1).
    { destruct Hev as [?|[_ ?]]; [left; lia|by right]. }
    match type of Hdrop with
    | _ = Done (tt, ?w1) =>
        assert (Hloop : while pView_full drop_random_passive e w
                        = Done (tt, w1))
    end.
    { unfold while. destruct (budget e) as [|fuel]; [lia|]. simpl.
      rewrite Hfull. rewrite (bind_Done _ _ _ _ _ _ Hdrop).
      apply while_loop_false. unfold pView_full.
      apply bool_decide_eq_false. simpl. lia. }
    rewrite (bind_Done _ _ _ _ _ _ Hloop).
    rewrite (bind_Done _ _ _ _ _ _ (get_eq e _)). simpl.
    destruct (view_ok_Add _ node Hok1) as (p' & old & Hadd & Hok' & Hlen' & _).
    destruct (Add_stored _ (Id node) node (proj1 Hok1))
      as (p2 & old2 & Hadd2 & _ & Hst2).
    rewrite Hadd in Hadd2. injection Hadd2 as <- <-.
    assert (Hnp1 : Has (Id node) p1 = false).
    { destruct (Has (Id node) p1) eqn:Hh; [|done].
      destruct (Has_stored _ _ (proj1 Hok1) Hh) as [v Hv].
      apply Hst1 in Hv as [[Hv _] _]. congruence. }
    rewrite Hnp1 in Hlen'.
    unfold mbind at 1, M_bind at 1. rewrite Hadd. simpl.
    exists p', (S (w_draws w)). split_and!; [done|done|lia|lia|].
    exists m. split; [done|]. intros k v. rewrite Hst2, Hst1. split.
    + intros [[? _]|?]; auto.
    + intros [[Hs Hne]|[-> ->]]; [|by right]. left. split; [done|].
      intros ->. destruct Hs as [Hs _]. congruence.
  - assert (Hloop : while pView_full drop_random_passive e w = Done (tt, w)).
    { unfold while. by apply while_loop_false. }
    rewrite (bind_Done _ _ _ _ _ _ Hloop).
    rewrite (bind_Done _ _ _ _ _ _ (get_eq e w)).
    destruct (view_ok_Add _ node Hok) as (p' & old & Hadd & Hok' & Hlen' & _ & Hnew).
    unfold mbind at 1, M_bind at 1. rewrite Hadd. simpl.
    destruct (Hnew Hnp) as (_ & Hk & Hv). rewrite Hnp in Hlen'.
    unfold pView_full in Hfull. apply bool_decide_eq_false in Hfull.
    exists p', (w_draws w). split_and!; [done|done|lia|done|done].
Qed.

(** [addNodeActiveView], exactly: a node that is in the view takes the
    slot of its id; with room a new node takes a new last slot; from a
    full view one node [n] goes first, is told to disconnect and is
    offered to the passive view. *)
Lemma addNodeActiveView_exact node e w :
  view_ok (aView (w_ag w)) → view_ok (pView (w_ag w)) →
  within_bounds (w_ag w) →
  can_evict (AViewMaxSize (cfg (w_ag w))) (aView (w_ag w)) →
  can_evict (PViewSize (cfg (w_ag w))) (pView (w_ag w)) →
  1 ≤ budget e →
  let ag := w_ag w in
  ∃ w', addNodeActiveView node e w = Done (tt, w') ∧
    keeps_config ag (w_ag w') ∧
    msgBuffer (w_ag w') = msgBuffer ag ∧
    failmsgBuffer (w_ag w') = failmsgBuffer ag ∧
    view_ok (aView (w_ag w')) ∧ view_ok (pView (w_ag w')) ∧
    within_bounds (w_ag w') ∧
    stored (Id node) node (aView (w_ag w')) ∧
    (Has (Id node) (aView ag) = true →
     keys (aView (w_ag w')) = keys (aView ag) ∧
     (∀ k v, k ≠ Id node →
             stored k v (aView (w_ag w')) ↔ stored k v (aView ag)) ∧
     pView (w_ag w') = pView ag ∧
     ∃ old, stored (Id node) old (aView ag) ∧
            w_trace w' = w_trace w ++ [GoServeNode node; ConnClose old]) ∧
    (Has (Id node) (aView ag) = false → aView_full ag = false →
     keys (aView (w_ag w')) = keys (aView ag) ++ [Id node] ∧
     values (aView (w_ag w')) = values (aView ag) ++ [node] ∧
     pView (w_ag w') = pView ag ∧
     w_trace w' = w_trace w ++ [GoServeNode node]) ∧
    (Has (Id node) (aView ag) = false → aView_full ag = true →
     Len (aView (w_ag w')) = Len (aView ag) ∧
     ∃ n, n ∈ values (aView ag) ∧
          (∀ k v, stored k v (aView (w_ag w')) ↔
                  (stored k v (aView ag) ∧ k ≠ Id n)
                  ∨ (k = Id node ∧ v = node)) ∧
          passive_after
            (bool_decide (Id n = id ag) || Has (Id n) (pView ag))
            (pView_full ag) n (pView ag) (pView (w_ag w')) ∧
          w_trace w' = w_trace w ++ [GoDisconnect n; GoServeNode node]).
Proof.
  intros Hoka Hokp Hb Heva Hevp Hfuel ag. subst ag.
  unfold addNodeActiveView.
  rewrite (bind_Done _ _ _ _ _ _ (get_eq e w)).
  destruct (Add_stored _ (Id node) node (proj1 Hoka)) as (a0 & o0 & Hadd0 & _).
  destruct (Has (Id node) (aView (w_ag w))) eqn:Hhas; simpl.
  - unfold mbind at 1, M_bind at 1. simpl.
    unfold mbind at 1, M_bind at 1. simpl.
    unfold mbind at 1, M_bind at 1. simpl.
    destruct (Add_present _ (Id node) node (proj1 Hoka) Hhas)
      as (a' & p & old & Hadd & Hwf' & Hk & Hold & Hks & Hvs).
    destruct (view_ok_Add _ node Hoka)
      as (a2 & old2 & Hadd2 & Hok2 & Hlen2 & _).
    destruct (Add_stored _ (Id node) node (proj1 Hoka))
      as (a3 & old3 & Hadd3 & _ & Hst).
    rewrite Hadd in Hadd2, Hadd3. injection Hadd2 as <- <-.
    injection Hadd3 as <- <-. rewrite Hhas in Hlen2.
    unfold mbind at 1, M_bind at 1. rewrite Hadd. simpl.
    eexists. split; [done|]. simpl. destruct Hb as [Hba Hbp].
    split_and!; try done.
    + split; simpl; [lia|done].
    + apply Hst. by right.
    + intros _. split_and!; [done| |done|].
      * intros k v Hne. rewrite Hst. split; [|by left].
        intros [[? _]|[? _]]; done.
      * exists old. split; [|by rewrite <- app_assoc].
        split; [done|]. unfold GetValueOf.
        destruct Hoka as [[_ Hpos] _]. apply Hpos in Hk. by rewrite Hk.
  - destruct Hb as [Hba Hbp].
    destruct (aView_full (w_ag w)) eqn:Hfull.
    + pose proof Hfull as Hf. unfold aView_full in Hf.
      apply bool_decide_eq_true in Hf.
      assert (Hlen : 1 ≤ Len (aView (w_ag w)))
        by (destruct Heva as [?|[? _]]; lia).
      (* one turn of the loop *)
      assert (Hturn : ∃ a1 p1 n draws,
        demote_random_active e w
        = Done (tt, MkWorld (MkAgent (id (w_ag w)) (cfg (w_ag w)) a1 p1
                               (msgBuffer (w_ag w)) (failmsgBuffer (w_ag w)))
                      draws (w_trace w ++ [GoDisconnect n])) ∧
        n ∈ values (aView (w_ag w)) ∧ view_ok a1 ∧
        Len a1 = Len (aView (w_ag w)) - 1 ∧
        (∀ k v, stored k v a1 ↔ stored k v (aView (w_ag w)) ∧ k ≠ Id n) ∧
        view_ok p1 ∧ (Z.of_nat (Len p1) ≤ PViewSize (cfg (w_ag w)))%Z ∧
        passive_after
          (bool_decide (Id n = id (w_ag w)) || Has (Id n) (pView (w_ag w)))
          (pView_full (w_ag w)) n (pView (w_ag w)) p1).
      { unfold demote_random_active.
        rewrite (bind_Done _ _ _ _ _ _ (get_eq e w)).
        destruct (choose_victim _ e w Hoka Hlen) as (n & Hch & Hin & Hhasn).
        { destruct Heva as [?|[_ ?]]; [left; lia|by right]. }
        rewrite (bind_Done _ _ _ _ _ _ Hch). simpl.
        destruct (view_ok_Remove _ (Id n) Hoka)
          as (a1 & Hrm & Hok1 & Hlen1 & _).
        destruct (Remove_stored _ (Id n) (proj1 Hoka))
          as (a2 & Hrm2 & _ & Hst).
        rewrite Hrm in Hrm2. injection Hrm2 as <-.
        rewrite Hhasn in Hrm, Hlen1.
        unfold mbind at 1, M_bind at 1. simpl.
        unfold mbind at 1, M_bind at 1. simpl. rewrite Hrm. simpl.
        unfold mbind at 1, M_bind at 1. simpl.
        unfold mbind at 1, M_bind at 1. simpl.
        match goal with
        | |- ∃ _ _ _ _, addNodePassiveView _ _ ?w3 = _ ∧ _ =>
            destruct (addNodePassiveView_exact n e w3)
              as (p1 & draws & Hadd & Hokp1 & Hbp1 & Hafter); try done
        end.
        simpl in *. exists a1, p1, n, draws.
        split_and!; try done.
        assert (Hgone : Has (Id n) a1 = false).
        { destruct (Has (Id n) a1) eqn:Hh; [|done].
          destruct (Has_stored _ _ (proj1 Hok1) Hh) as [v Hv].
          by apply Hst in Hv as [_ ?]. }
        unfold skip_passive, pView_full in Hafter. simpl in Hafter.
        rewrite Hgone, orb_false_r in Hafter. exact Hafter. }
      destruct Hturn as (a1 & p1 & n & draws & Hdem & Hin & Hok1 & Hlen1
                         & Hst1 & Hokp1 & Hbp1 & Hafter).
      match type of Hdem with
      | _ = Done (tt, ?w1) =>
          assert (Hloop : while aView_full demote_random_active e w
                          = Done (tt, w1))
      end.
      { unfold while. destruct (budget e) as [|fuel]; [lia|]. simpl.
        rewrite Hfull. rewrite (bind_Done _ _ _ _ _ _ Hdem).
        apply while_loop_false. unfold aView_full.
        apply bool_decide_eq_false. simpl. lia. }
      rewrite (bind_Done _ _ _ _ _ _ Hloop).
      rewrite (bind_Done _ _ _ _ _ _ (emit_eq _ e _)).
      unfold mbind at 1, M_bind at 1. simpl.
      destruct (view_ok_Add _ node Hok1) as (a' & old & Hadd & Hok' & Hlen' & _).
      destruct (Add_stored _ (Id node) node (proj1 Hok1))
        as (a3 & old3 & Hadd3 & _ & Hst3).
      rewrite Hadd in Hadd3. injection Hadd3 as <- <-.
      assert (Hhas1 : Has (Id node) a1 = false).
      { destruct (Has (Id node) a1) eqn:Hh; [|done].
        destruct (Has_stored _ _ (proj1 Hok1) Hh) as [v Hv].
        apply Hst1 in Hv as [[Hv _] _]. congruence. }
      rewrite Hhas1 in Hlen'.
      destruct (Add_fresh _ (Id node) node (proj1 Hok1) Hhas1)
        as (a4 & Hadd4 & _). rewrite Hadd in Hadd4. injection Hadd4 as <- ->.
      unfold mbind at 1, M_bind at 1. rewrite Hadd. simpl.
      eexists. split; [done|]. simpl. split_and!; try done.
      * split; simpl; [lia|done].
      * apply Hst3. by right.
      * intros _ _. split; [lia|]. exists n. split_and!; [done| |done|].
        -- intros k v. rewrite Hst3, Hst1. split.
           ++ intros [[? _]|?]; auto.
           ++ intros [[Hs Hne]|[-> ->]]; [|by right]. left. split; [done|].
              intros ->. destruct Hs as [Hs _]. congruence.
        -- by rewrite <- app_assoc.
    + assert (Hloop : while aView_full demote_random_active e w
                      = Done (tt, w)).
      { unfold while. by apply while_loop_false. }
      rewrite (bind_Done _ _ _ _ _ _ Hloop).
      rewrite (bind_Done _ _ _ _ _ _ (emit_eq _ e w)).
      unfold mbind at 1, M_bind at 1. simpl.
      destruct (view_ok_Add _ node Hoka)
        as (a' & old & Hadd & Hok' & Hlen' & _ & Hfresh).
      destruct (Add_stored _ (Id node) node (proj1 Hoka))
        as (a3 & old3 & Hadd3 & _ & Hst3).
      rewrite Hadd in Hadd3. injection Hadd3 as <- <-.
      destruct (Hfresh Hhas) as (-> & Hks & Hvs). rewrite Hhas in Hlen'.
      unfold mbind at 1, M_bind at 1. rewrite Hadd. simpl.
      unfold aView_full in Hfull. apply bool_decide_eq_false in Hfull.
      eexists. split; [done|]. simpl. split_and!; try done.
      * split; simpl; [lia|done].
      * apply Hst3. by right.
Qed.
End AgentExact.

(** ** The claims about the views *)

Section ViewClaims.
Import arraymap message agent.

(** C2: with non-negative sizes, every reachable state keeps
    |active| ≤ AViewMaxSize and |passive| ≤ PViewSize.  From any state in
    order and within the bounds, with views a random victim can be taken
    from when they are full, and one turn of loop budget,
    [addNodeActiveView] and [addNodePassiveView] come back within the
    bounds, and the views are then exactly these.  [addNodeActiveView]
    stores the node: in the slot of its id when the id is in the view
    (the connection of the node that was there is closed); in a new last
    slot when there is room; and from a full view exactly one random
    node goes first, is told to disconnect and is offered to the passive
    view.  [addNodePassiveView] does nothing for the agent's own id or
    an id in either view; otherwise it stores the node, in a new last
    slot when there is room, and from a full view after dropping exactly
    one random node. *)
Theorem view_bounds sha1_Sum c genid :
  (0 ≤ AViewMaxSize c)%Z → (0 ≤ PViewSize c)%Z →
  (∀ w, reachable sha1_Sum c genid w → within_bounds (w_ag w)) ∧
  (∀ node e w,
     view_ok (aView (w_ag w)) → view_ok (pView (w_ag w)) →
     within_bounds (w_ag w) →
     can_evict (AViewMaxSize (cfg (w_ag w))) (aView (w_ag w)) →
     can_evict (PViewSize (cfg (w_ag w))) (pView (w_ag w)) →
     1 ≤ budget e →
     let ag := w_ag w in
     ∃ w', addNodeActiveView node e w = Done (tt, w') ∧
       keeps_config ag (w_ag w') ∧
       msgBuffer (w_ag w') = msgBuffer ag ∧
       failmsgBuffer (w_ag w') = failmsgBuffer ag ∧
       view_ok (aView (w_ag w')) ∧ view_ok (pView (w_ag w')) ∧
       within_bounds (w_ag w') ∧
       stored (Id node) node (aView (w_ag w')) ∧
       (Has (Id node) (aView ag) = true →
        keys (aView (w_ag w')) = keys (aView ag) ∧
        (∀ k v, k ≠ Id node →
                stored k v (aView (w_ag w')) ↔ stored k v (aView ag)) ∧
        pView (w_ag w') = pView ag ∧
        ∃ old, stored (Id node) old (aView ag) ∧
               w_trace w'
               = w_trace w ++ [GoServeNode node; ConnClose old]) ∧
       (Has (Id node) (aView ag) = false → aView_full ag = false →
        keys (aView (w_ag w')) = keys (aView ag) ++ [Id node] ∧
        values (aView (w_ag w')) = values (aView ag) ++ [node] ∧
        pView (w_ag w') = pView ag ∧
        w_trace w' = w_trace w ++ [GoServeNode node]) ∧
       (Has (Id node) (aView ag) = false → aView_full ag = true →
        Len (aView (w_ag w')) = Len (aView ag) ∧
        ∃ n, n ∈ values (aView ag) ∧
             (∀ k v, stored k v (aView (w_ag w')) ↔
                     (stored k v (aView ag) ∧ k ≠ Id n)
                     ∨ (k = Id node ∧ v = node)) ∧
             passive_after
               (bool_decide (Id n = id ag) || Has (Id n) (pView ag))
               (pView_full ag) n (pView ag) (pView (w_ag w')) ∧
             w_trace w'
             = w_trace w ++ [GoDisconnect n; GoServeNode node])) ∧
  (∀ node e w,
     view_ok (pView (w_ag w)) →
     within_bounds (w_ag w) →
     can_evict (PViewSize (cfg (w_ag w))) (pView (w_ag w)) →
     1 ≤ budget e →
     let ag := w_ag w in
     ∃ w', addNodePassiveView node e w = Done (tt, w') ∧
       keeps_config ag (w_ag w') ∧
       aView (w_ag w') = aView ag ∧
       msgBuffer (w_ag w') = msgBuffer ag ∧
       failmsgBuffer (w_ag w') = failmsgBuffer ag ∧
       w_trace w' = w_trace w ∧
       view_ok (pView (w_ag w')) ∧
       within_bounds (w_ag w') ∧
       passive_after (skip_passive ag (Id node)) (pView_full ag) node
         (pView ag) (pView (w_ag w'))).
Proof.
  intros Ha Hp. split_and!.
  - intros w Hreach.
    by destruct (reachable_within_bounds _ _ _ _ Ha Hp Hreach).
  - intros node e w Hoka Hokp Hb Heva Hevp Hfuel.
    by apply addNodeActiveView_exact.
  - intros node e w Hokp [Hba Hbp] Hevp Hfuel ag.
    destruct (addNodePassiveView_exact node e w Hokp Hbp Hevp Hfuel)
      as (p' & draws & Hrun & Hokp' & Hbp' & Hafter).
    eexists. split; [exact Hrun|]. simpl. split_and!; try done.
Qed.

End ViewClaims.

(** ** The agent: user messages *)

Section UserMessageFacts.
Import arraymap message agent.
Variable sha1_Sum : list Z → Hash.

Lemma for_each_forward (from : Node) msg nds : ∀ e w,
  for_each nds (λ nd, if negb (bool_decide (Id nd = Id from))
                      then emit (GoUserMessage nd msg) else mret tt) e w
  = Done (tt, MkWorld (w_ag w) (w_draws w)
                (w_trace w ++ ((λ nd, GoUserMessage nd msg)
                               <$> filter (λ nd, Id nd ≠ Id from) nds))).
Proof.
  induction nds as [|nd nds IH]; intros e w; simpl.
  - rewrite app_nil_r. by destruct w.
  - destruct (decide (Id nd = Id from)) as [Heq|Hne].
    + rewrite bool_decide_eq_true_2 by done. simpl.
      rewrite filter_cons_False by tauto.
      unfold mbind, M_bind. simpl. apply IH.
    + rewrite bool_decide_eq_false_2 by done. simpl.
      rewrite filter_cons_True by done.
      unfold mbind, M_bind. simpl. rewrite IH. simpl.
      by rewrite <- app_assoc.
Qed.

(** What [handleUserMessage] does, in the machine's own arithmetic. *)
Lemma handleUserMessage_total from msg now e w :
  wf (msgBuffer (w_ag w)) →
  let ag := w_ag w in
  let hash := hashMessage sha1_Sum (UserMessage_Payload msg) in
  let deadline :=
    wrap64 (UserMessage_Ts msg + wrap64 (ms_Nanoseconds * MLife (cfg ag))) in
  let purgeDeadline :=
    wrap64 (now + wrap64 (ms_Nanoseconds * PurgeDuration (cfg ag))) in
  ∃ w', handleUserMessage sha1_Sum from msg now e w = Done (tt, w') ∧
    wf (msgBuffer (w_ag w')) ∧
    ((deadline ≤ now)%Z ∨
     (∃ d, stored hash d (msgBuffer ag) ∧ (now ≤ d)%Z) → w' = w) ∧
    (¬ (deadline ≤ now)%Z →
     ¬ (∃ d, stored hash d (msgBuffer ag) ∧ (now ≤ d)%Z) →
     keeps_config ag (w_ag w') ∧
     aView (w_ag w') = aView ag ∧ pView (w_ag w') = pView ag ∧
     (∀ d, stored hash d (msgBuffer (w_ag w')) ↔ d = purgeDeadline) ∧
     (∀ h d, h ≠ hash →
             stored h d (msgBuffer (w_ag w')) ↔ stored h d (msgBuffer ag)) ∧
     w_trace w'
     = w_trace w ++ GoMsgHandler (UserMessage_Payload msg)
         :: ((λ nd, GoUserMessage nd msg)
             <$> filter (λ nd, Id nd ≠ Id from) (Values (aView ag)))).
Proof.
  intros Hwf ag hash deadline purgeDeadline. subst ag.
  unfold handleUserMessage.
  rewrite (bind_Done _ _ _ _ _ _ (get_eq e w)).
  fold hash. fold deadline. fold purgeDeadline.
  destruct (decide (deadline ≤ now)%Z) as [Hstale|Hfresh].
  { rewrite bool_decide_eq_true_2 by done. exists w.
    by split_and!. }
  rewrite bool_decide_eq_false_2 by done.
  unfold mbind, M_bind. simpl.
  destruct (Has hash (msgBuffer (w_ag w))) eqn:Hhas.
  - destruct (Has_stored _ _ Hwf Hhas) as [d Hd]. pose proof Hd as [_ Hget].
    rewrite Hget. simpl.
    destruct (decide (now ≤ d)%Z) as [Hdup|Hexp].
    + rewrite bool_decide_eq_true_2 by done. simpl.
      exists w. split_and!; try done. intros _ Hn. exfalso. apply Hn. eauto.
    + rewrite bool_decide_eq_false_2 by done.
      destruct (Remove_stored _ hash Hwf) as (mb1 & Hrm & Hwf1 & Hst1).
      rewrite Hrm. simpl.
      destruct (Add_stored mb1 hash purgeDeadline Hwf1)
        as (mb2 & old & Hadd & Hwf2 & Hst2).
      unfold Append. rewrite Hadd. simpl.
      rewrite for_each_forward. simpl.
      eexists. split; [done|]. simpl. split_and!; try done.
      * intros [?|(d' & Hd' & Hle)]; [done|]. exfalso.
        destruct Hd as [_ Hd1], Hd' as [_ Hd2].
        assert (d' = d) as -> by congruence. done.
      * intros _ _. split_and!; try done.
        -- intros d'. rewrite Hst2, Hst1. split.
           ++ intros [[[_ ?] ?]|[_ ?]]; done.
           ++ intros ->. by right.
        -- intros h d' Hne. rewrite Hst2, Hst1. split.
           ++ intros [[[? _] _]|[? _]]; done.
           ++ intros ?. left. done.
        -- by rewrite <- app_assoc.
  - simpl.
    destruct (Add_stored _ hash purgeDeadline Hwf)
      as (mb2 & old & Hadd & Hwf2 & Hst2).
    unfold Append. rewrite Hadd. simpl.
    rewrite for_each_forward. simpl.
    assert (Hnone : ∀ d, ¬ stored hash d (msgBuffer (w_ag w))).
    { intros d [Hh _]. congruence. }
    eexists. split; [done|]. simpl. split_and!; try done.
    + intros [?|(d' & Hd' & Hle)]; [done|]. by apply Hnone in Hd'.
    + intros _ _. split_and!; try done.
      * intros d'. rewrite Hst2. split.
        -- intros [[_ ?]|[_ ?]]; done.
        -- intros ->. by right.
      * intros h d' Hne. rewrite Hst2. split.
        -- intros [[? _]|[? _]]; done.
        -- intros ?. left. done.
      * by rewrite <- app_assoc.
Qed.
Lemma wrap64_id z : in_int64 z → wrap64 z = z.
Proof.
  unfold in_int64, wrap64. intros Hz. rewrite Z.mod_small by lia. lia.
Qed.

(** Whether the hash is held with a deadline that has not passed can be
    told from the buffer. *)
Lemma seen_dec (a : ArrayMap Hash Z) h now :
  wf a →
  (∃ d, stored h d a ∧ (now ≤ d)%Z) ∨ ¬ (∃ d, stored h d a ∧ (now ≤ d)%Z).
Proof.
  intros Hwf. destruct (Has h a) eqn:Hhas.
  - destruct (Has_stored _ _ Hwf Hhas) as [d Hd].
    destruct (decide (now ≤ d)%Z); [left; eauto|].
    right. intros (d' & Hd' & Hle).
    destruct Hd as [_ Hd], Hd' as [_ Hd'].
    assert (d' = d) as -> by congruence. lia.
  - right. intros (d & [Hh _] & _). congruence.
Qed.

Lemma deliveries_app h t1 t2 :
  deliveries sha1_Sum h (t1 ++ t2)
  = deliveries sha1_Sum h t1 + deliveries sha1_Sum h t2.
Proof. unfold deliveries. by rewrite filter_app, length_app. Qed.

Lemma deliveries_sends h msg nds :
  deliveries sha1_Sum h ((λ nd, GoUserMessage nd msg) <$> nds) = 0.
Proof.
  unfold deliveries. induction nds as [|nd nds IH]; [done|].
  simpl. by rewrite filter_cons_False.
Qed.

Lemma forwards_sends msg nds :
  forwards ((λ nd, GoUserMessage nd msg) <$> nds) = (λ nd, (nd, msg)) <$> nds.
Proof.
  unfold forwards. induction nds as [|nd nds IH]; [done|].
  simpl. by f_equal.
Qed.

(** A hash held with a deadline that has not passed stays held, and no
    handler call is made for it, whatever message is handled. *)
Lemma handleUserMessage_keeps from msg now e w h D :
  wf (msgBuffer (w_ag w)) →
  stored h D (msgBuffer (w_ag w)) → (now ≤ D)%Z →
  ∃ w', handleUserMessage sha1_Sum from msg now e w = Done (tt, w') ∧
    wf (msgBuffer (w_ag w')) ∧
    stored h D (msgBuffer (w_ag w')) ∧
    deliveries sha1_Sum h (w_trace w') = deliveries sha1_Sum h (w_trace w).
Proof.
  intros Hwf Hst Hle.
  destruct (handleUserMessage_total from msg now e w Hwf)
    as (w' & Hrun & Hwf' & Hdis & Hacc).
  exists w'. split; [done|]. split; [done|].
  set (deadline := wrap64 (UserMessage_Ts msg
                     + wrap64 (ms_Nanoseconds * MLife (cfg (w_ag w))))) in *.
  destruct (decide (deadline ≤ now)%Z) as [Hstale|Hfresh].
  { rewrite Hdis by auto. done. }
  destruct (seen_dec (msgBuffer (w_ag w))
              (hashMessage sha1_Sum (UserMessage_Payload msg)) now Hwf)
    as [Hseen|Hnew].
  { rewrite Hdis by auto. done. }
  destruct (Hacc Hfresh Hnew) as (_ & _ & _ & _ & Hoth & Htr).
  assert (Hne : h ≠ hashMessage sha1_Sum (UserMessage_Payload msg)).
  { intros ->. apply Hnew. eauto. }
  split; [by apply Hoth|].
  rewrite Htr, deliveries_app.
  change (GoMsgHandler ?p :: ?l) with ([GoMsgHandler p] ++ l).
  rewrite deliveries_app, deliveries_sends.
  unfold deliveries at 2. simpl.
  rewrite filter_cons_False; [simpl; lia|].
  simpl. rewrite bool_decide_eq_false_2; [done|]. by intros <-.
Qed.

Lemma handleUserMessages_keeps calls h D : ∀ e w,
  wf (msgBuffer (w_ag w)) →
  stored h D (msgBuffer (w_ag w)) →
  (∀ c, c ∈ calls → (c.2 ≤ D)%Z) →
  ∃ w', handleUserMessages sha1_Sum calls e w = Done (tt, w') ∧
    wf (msgBuffer (w_ag w')) ∧
    stored h D (msgBuffer (w_ag w')) ∧
    deliveries sha1_Sum h (w_trace w') = deliveries sha1_Sum h (w_trace w).
Proof.
  unfold handleUserMessages.
  induction calls as [|c calls IH]; intros e w Hwf Hst Hle.
  - exists w. by split_and!.
  - destruct (handleUserMessage_keeps c.1.1 c.1.2 c.2 e w h D Hwf Hst)
      as (w1 & Hrun & Hwf1 & Hst1 & Hd1).
    { apply Hle. apply list_elem_of_here. }
    destruct (IH e w1 Hwf1 Hst1) as (w2 & Hrun2 & Hwf2 & Hst2 & Hd2).
    { intros c' Hc'. apply Hle. by apply list_elem_of_further. }
    exists w2. split_and!; [|done|done|congruence].
    simpl. unfold mbind, M_bind. by rewrite Hrun.
Qed.

(** C3: [handleUserMessage] comes back, and it leaves the agent as it
    found it (no handler call, no send, the buffer untouched) exactly
    when the message is stale (ts + MLife·10⁶ ≤ now) or its hash is held
    with a deadline that has not passed (now ≤ deadline); otherwise the
    hash is held with the deadline now + PurgeDuration·10⁶ and nothing
    else in the buffer changes, the user handler is called once with the
    payload, and the message is sent on; and whatever user messages are
    handled after that with clock readings up to the new deadline, the
    handler is not called again for this hash.  The times are taken to
    fit 64 bits, as the code computes them in int64. *)
Theorem handleUserMessage_dedup from msg now e w :
  wf (msgBuffer (w_ag w)) →
  in_int64 (ms_Nanoseconds * MLife (cfg (w_ag w))) →
  in_int64 (UserMessage_Ts msg + ms_Nanoseconds * MLife (cfg (w_ag w))) →
  in_int64 (ms_Nanoseconds * PurgeDuration (cfg (w_ag w))) →
  in_int64 (now + ms_Nanoseconds * PurgeDuration (cfg (w_ag w))) →
  let ag := w_ag w in
  let hash := hashMessage sha1_Sum (UserMessage_Payload msg) in
  let stale := (UserMessage_Ts msg + MLife (cfg ag) * 10 ^ 6 ≤ now)%Z in
  let seen := ∃ d, stored hash d (msgBuffer ag) ∧ (now ≤ d)%Z in
  let window := (now + PurgeDuration (cfg ag) * 10 ^ 6)%Z in
  ∃ w', handleUserMessage sha1_Sum from msg now e w = Done (tt, w') ∧
    (stale ∨ seen ↔ w' = w) ∧
    (¬ (stale ∨ seen) →
     keeps_config ag (w_ag w') ∧
     aView (w_ag w') = aView ag ∧ pView (w_ag w') = pView ag ∧
     (∀ d, stored hash d (msgBuffer (w_ag w')) ↔ d = window) ∧
     (∀ h d, h ≠ hash →
             stored h d (msgBuffer (w_ag w')) ↔ stored h d (msgBuffer ag)) ∧
     w_trace w'
     = w_trace w ++ GoMsgHandler (UserMessage_Payload msg)
         :: ((λ nd, GoUserMessage nd msg)
             <$> filter (λ nd, Id nd ≠ Id from) (Values (aView ag))) ∧
     deliveries sha1_Sum hash (w_trace w')
     = S (deliveries sha1_Sum hash (w_trace w)) ∧
     ∀ calls e',
       (∀ c, c ∈ calls → (c.2 ≤ window)%Z) →
       ∃ w'', handleUserMessages sha1_Sum calls e' w' = Done (tt, w'') ∧
         deliveries sha1_Sum hash (w_trace w'')
         = deliveries sha1_Sum hash (w_trace w')).
Proof.
  intros Hwf Hm1 Hm2 Hp1 Hp2 ag hash stale seen window.
  destruct (handleUserMessage_total from msg now e w Hwf)
    as (w' & Hrun & Hwf' & Hdis & Hacc).
  rewrite (wrap64_id _ Hm1), (wrap64_id _ Hm2) in Hdis, Hacc.
  rewrite (wrap64_id _ Hp1), (wrap64_id _ Hp2) in Hacc.
  fold ag hash in Hdis, Hacc.
  assert (Hst : stale ↔ (UserMessage_Ts msg + ms_Nanoseconds * MLife (cfg ag)
                         ≤ now)%Z).
  { unfold stale, ms_Nanoseconds. lia. }
  assert (Hwin : (now + ms_Nanoseconds * PurgeDuration (cfg ag))%Z = window).
  { unfold window, ms_Nanoseconds. lia. }
  rewrite Hwin in Hacc. rewrite <- Hst in Hdis, Hacc.
  assert (Hstep : ¬ (stale ∨ seen) →
            w_trace w'
            = w_trace w ++ GoMsgHandler (UserMessage_Payload msg)
                :: ((λ nd, GoUserMessage nd msg)
                    <$> filter (λ nd, Id nd ≠ Id from) (Values (aView ag)))).
  { intros Hno. apply Hacc; tauto. }
  exists w'. split; [done|]. split.
  - split; [done|]. intros ->.
    destruct (decide stale) as [|Hfresh]; [by left|].
    destruct (seen_dec (msgBuffer ag) hash now Hwf) as [|Hnew]; [by right|].
    exfalso. assert (Hno : ¬ (stale ∨ seen)) by tauto.
    apply Hstep in Hno. apply (f_equal length) in Hno.
    rewrite length_app in Hno. simpl in Hno. lia.
  - intros Hno. pose proof (Hstep Hno) as Htr.
    destruct Hacc as (Hk & Ha & Hp & Hone & Hoth & _); [tauto..|].
    split_and!; try done.
    + rewrite Htr, deliveries_app.
      change (GoMsgHandler ?p :: ?l) with ([GoMsgHandler p] ++ l).
      rewrite deliveries_app, deliveries_sends.
      unfold deliveries at 2. simpl.
      rewrite filter_cons_True; [simpl; lia|].
      simpl. by rewrite bool_decide_eq_true_2.
    + intros calls e' Hle.
      destruct (handleUserMessages_keeps calls hash window e' w' Hwf')
        as (w'' & Hrun' & _ & _ & Hd); [by apply Hone|done|].
      by exists w''.
Qed.

(** C8: an accepted message (not stale by the handler's test, its hash
    not held with a deadline still to come) is sent on to the nodes of
    the active view whose id is not the sender's, once each and in the
    order of the view, and to no one else. *)
Theorem handleUserMessage_forwards from msg now e w :
  wf (msgBuffer (w_ag w)) →
  let ag := w_ag w in
  let hash := hashMessage sha1_Sum (UserMessage_Payload msg) in
  ¬ (wrap64 (UserMessage_Ts msg + wrap64 (ms_Nanoseconds * MLife (cfg ag)))
     ≤ now)%Z →
  ¬ (∃ d, stored hash d (msgBuffer ag) ∧ (now ≤ d)%Z) →
  ∃ w' new,
    handleUserMessage sha1_Sum from msg now e w = Done (tt, w') ∧
    w_trace w' = w_trace w ++ new ∧
    aView (w_ag w') = aView ag ∧
    forwards new
    = (λ nd, (nd, msg)) <$> filter (λ nd, Id nd ≠ Id from) (Values (aView ag)) ∧
    ∀ nd m, (nd, m) ∈ forwards new ↔
            m = msg ∧ nd ∈ Values (aView ag) ∧ Id nd ≠ Id from.
Proof.
  intros Hwf ag hash Hfresh Hnew.
  destruct (handleUserMessage_total from msg now e w Hwf)
    as (w' & Hrun & _ & _ & Hacc).
  destruct (Hacc Hfresh Hnew) as (_ & Ha & _ & _ & _ & Htr).
  exists w', (GoMsgHandler (UserMessage_Payload msg)
               :: ((λ nd, GoUserMessage nd msg)
                   <$> filter (λ nd, Id nd ≠ Id from) (Values (aView ag)))).
  split; [done|]. split; [exact Htr|]. split; [done|].
  assert (Hf : forwards (GoMsgHandler (UserMessage_Payload msg)
                 :: ((λ nd, GoUserMessage nd msg)
                     <$> filter (λ nd, Id nd ≠ Id from) (Values (aView ag))))
               = (λ nd, (nd, msg))
                 <$> filter (λ nd, Id nd ≠ Id from) (Values (aView ag))).
  { rewrite <- forwards_sends. done. }
  split; [exact Hf|]. intros nd m. rewrite Hf, list_elem_of_fmap. split.
  - intros (nd' & [= -> ->] & Hin). apply list_elem_of_filter in Hin. tauto.
  - intros (-> & Hin & Hne). exists nd. split; [done|].
    apply list_elem_of_filter. tauto.
Qed.
End UserMessageFacts.

(** ** The agent: shuffles *)

Section ShuffleFacts.
Import arraymap message agent.

(** [chooseRandomCandidates] comes back with [min n |view|] candidates,
    each made from a node of the view. *)
Lemma chooseRandomCandidates_total (view : ArrayMap N Node) (n : nat) e w :
  length (keys view) = length (values view) →
  ∃ cs,
    chooseRandomCandidates view (Z.of_nat n) e w
    = Done (cs, MkWorld (w_ag w)
                  (if decide (Len view = 0) then w_draws w
                   else S (w_draws w)) (w_trace w)) ∧
    length cs = n `min` Len view ∧
    ∀ c, c ∈ cs →
         ∃ nd, nd ∈ Values view ∧ c = MkCandidate (Id nd) (Addr nd).
Proof.
  intros Hlen. unfold chooseRandomCandidates, Values, Len in *.
  destruct (decide (length (keys view) = 0)) as [H0|H0].
  - exists []. destruct w. split; [done|]. split; [simpl; lia|].
    intros c Hc. by apply elem_of_nil in Hc.
  - set (len := length (keys view)) in *.
    set (n' := if decide (Z.of_nat len ≤ Z.of_nat n)%Z
               then Z.of_nat len else Z.of_nat n).
    assert (Hn' : Z.to_nat n' = n `min` len).
    { unfold n'. destruct (decide _); lia. }
    rewrite decide_False by (unfold n'; destruct (decide _); lia).
    erewrite bind_Done; [|apply Intn_Done; lia].
    rewrite Nat2Z.id. rewrite Hn'.
    set (index := rand_src e (w_draws w) `mod` len).
    set (f := λ i, nd ← GetValueAt ((index + i) `mod` len) view;
                   Some (MkCandidate (Id nd) (Addr nd))).
    assert (Hall : Forall (is_Some ∘ f) (seq 0 (n `min` len))).
    { apply Forall_forall. intros i _. unfold f, GetValueAt. simpl.
      destruct (lookup_lt_is_Some_2 (values view) ((index + i) `mod` len))
        as [nd Hnd].
      { rewrite <- Hlen. apply Nat.mod_upper_bound. done. }
      rewrite Hnd. by eexists. }
    apply mapM_is_Some in Hall as [cs Hcs].
    exists cs. unfold must. rewrite Hcs. split; [done|].
    split.
    + apply length_mapM in Hcs. by rewrite length_seq in Hcs.
    + intros c Hc. apply mapM_Some_1 in Hcs.
      apply list_elem_of_lookup in Hc as [j Hj].
      destruct (Forall2_lookup_r _ _ _ _ _ Hcs Hj) as (i & _ & Hfi).
      unfold f, GetValueAt in Hfi.
      destruct (values view !! ((index + i) `mod` len)) as [nd|] eqn:Hnd;
        simplify_eq/=.
      exists nd. split; [|done]. by eapply list_elem_of_lookup_2.
Qed.

Lemma shuffle_make_room_idle fuel replyCandidates i e w :
  pView_full (w_ag w) = false →
  shuffle_make_room fuel replyCandidates i e w = Done (i, w).
Proof. intros Hc. destruct fuel; simpl; by rewrite Hc. Qed.

(** The eviction loop of [handleShuffle] on a passive view within its
    bound: it comes back with a view that has room. *)
Lemma shuffle_make_room_total fuel replyCandidates : ∀ i e w,
  view_ok (pView (w_ag w)) →
  (Z.of_nat (Len (pView (w_ag w))) ≤ PViewSize (cfg (w_ag w)))%Z →
  (2 ≤ PViewSize (cfg (w_ag w)))%Z →
  length replyCandidates - i < fuel →
  ∃ i' w', shuffle_make_room fuel replyCandidates i e w = Done (i', w') ∧
    keeps_config (w_ag w) (w_ag w') ∧
    aView (w_ag w') = aView (w_ag w) ∧
    w_trace w' = w_trace w ∧
    view_ok (pView (w_ag w')) ∧
    pView_full (w_ag w') = false ∧
    (∀ k, k ∈ keys (pView (w_ag w')) → k ∈ keys (pView (w_ag w))) ∧
    (pView_full (w_ag w) = false → w' = w ∧ i' = i).
Proof.
  induction fuel as [|fuel IH]; intros i e w Hok Hb H2 Hfuel; [lia|].
  destruct (pView_full (w_ag w)) eqn:Hfull.
  2:{ rewrite shuffle_make_room_idle by done. exists i, w. by split_and!. }
  simpl. rewrite Hfull.
  pose proof Hfull as Hf. unfold pView_full in Hf.
  apply bool_decide_eq_true in Hf.
  destruct (replyCandidates !! i) as [c|] eqn:Hc.
  - rewrite (bind_Done _ _ _ _ _ _ (get_eq e w)).
    destruct (view_ok_Remove _ (Candidate_Id c) Hok)
      as (p' & Hrm & Hok' & Hlen' & Hkeys).
    unfold mbind at 1, M_bind at 1. rewrite Hrm. simpl.
    unfold mbind at 1, M_bind at 1. simpl.
    match goal with
    | |- context [shuffle_make_room fuel replyCandidates (S i) e ?w1] =>
        destruct (IH (S i) e w1)
          as (i' & w' & Hrun & Hcfg & Hav & Htr & Hokw & Hnf & Hsub & _)
    end; simpl; try done.
    { destruct (Has (Candidate_Id c) (pView (w_ag w))); lia. }
    { apply lookup_lt_Some in Hc. lia. }
    exists i', w'. split; [done|]. split_and!; try done.
    intros k Hk. apply Hsub in Hk. simpl in Hk. by apply Hkeys in Hk as [? _].
  - destruct (drop_random_passive_total e w Hok)
      as (w1 & Hdrop & Hcfg & Hav & Htr & Hok1 & Hlen1 & Hkeys1);
      [lia|left; lia|].
    rewrite (bind_Done _ _ _ _ _ _ Hdrop).
    assert (Hnf : pView_full (w_ag w1) = false).
    { unfold pView_full. apply bool_decide_eq_false.
      destruct Hcfg as [_ ->]. lia. }
    rewrite shuffle_make_room_idle by done.
    exists i, w1. by split_and!.
Qed.

(** The candidates of a shuffle are taken into a passive view within its
    bound: those that are the agent itself or already in a view are
    passed over, room is made for the others when the view is full. *)
Lemma shuffle_integrate_total replyCandidates candidates : ∀ i e w,
  wf (aView (w_ag w)) → view_ok (pView (w_ag w)) →
  (Z.of_nat (Len (pView (w_ag w))) ≤ PViewSize (cfg (w_ag w)))%Z →
  (2 ≤ PViewSize (cfg (w_ag w)))%Z →
  length replyCandidates < budget e →
  ∃ w', shuffle_integrate candidates replyCandidates i e w = Done (tt, w') ∧
    keeps_config (w_ag w) (w_ag w') ∧
    aView (w_ag w') = aView (w_ag w) ∧
    w_trace w' = w_trace w ∧
    view_ok (pView (w_ag w')) ∧
    (Z.of_nat (Len (pView (w_ag w'))) ≤ PViewSize (cfg (w_ag w)))%Z ∧
    (∀ k, k ∈ keys (pView (w_ag w')) →
          k ∈ keys (pView (w_ag w)) ∨
          (k ∈ Candidate_Id <$> candidates ∧ k ≠ id (w_ag w) ∧
           k ∉ keys (aView (w_ag w)))) ∧
    ((Z.of_nat (Len (pView (w_ag w)) + length candidates)
      ≤ PViewSize (cfg (w_ag w)))%Z →
     (∀ k, k ∈ keys (pView (w_ag w)) ∨
           (k ∈ Candidate_Id <$> candidates ∧ k ≠ id (w_ag w) ∧
            k ∉ keys (aView (w_ag w))) →
           k ∈ keys (pView (w_ag w'))) ∧
     ∃ added,
       keys (pView (w_ag w')) = keys (pView (w_ag w)) ++ (Id <$> added) ∧
       values (pView (w_ag w')) = values (pView (w_ag w)) ++ added ∧
       Forall (λ nd, ∃ c, c ∈ candidates ∧
                 nd = MkNode (Candidate_Id c) (Candidate_Addr c) None)
              added).
Proof.
  induction candidates as [|c rest IH]; intros i e w Hwfa Hok Hb H2 Hfuel.
  - exists w. split_and!; try done; [by left|].
    intros _. split.
    + intros k [?|(Hin & _)]; [done|]. by apply elem_of_nil in Hin.
    + exists []. simpl. by rewrite !app_nil_r.
  - simpl. rewrite (bind_Done _ _ _ _ _ _ (get_eq e w)).
    destruct (skip_passive (w_ag w) (Candidate_Id c)) eqn:Hskip.
    + destruct (IH i e w Hwfa Hok Hb H2 Hfuel)
        as (w' & Hrun & Hcfg & Hav & Htr & Hok' & Hb' & HA & HB).
      exists w'. split_and!; try done.
      * intros k [?|(Hin & ? & ?)]%HA; [by left|right].
        split_and!; [|done..]. by apply list_elem_of_further.
      * intros Hroom. simpl in Hroom.
        destruct HB as [HB (added & Hk' & Hv' & Hfrom)]; [lia|]. split.
        -- intros k Hk. apply HB.
           destruct Hk as [?|(Hin & Hne & Hna)]; [by left|].
           apply elem_of_cons in Hin as [->|Hin]; [left|by right].
           unfold skip_passive in Hskip.
           rewrite bool_decide_eq_false_2 in Hskip by done.
           apply (Has_false _ _ Hwfa) in Hna. rewrite Hna in Hskip.
           simpl in Hskip. apply Has_true; [apply Hok|done].
        -- exists added. split_and!; [done..|].
           eapply Forall_impl; [exact Hfrom|]. simpl.
           intros nd (c' & Hc' & ->). exists c'. split; [|done].
           by apply list_elem_of_further.
    + unfold skip_passive in Hskip.
      apply orb_false_iff in Hskip as [Hskip Hnp].
      apply orb_false_iff in Hskip as [Hns Hna].
      apply bool_decide_eq_false in Hns.
      apply (Has_false _ _ Hwfa) in Hna.
      destruct (shuffle_make_room_total (budget e) replyCandidates i e w
                  Hok Hb H2)
        as (i' & w1 & Hroom & Hcfg1 & Hav1 & Htr1 & Hok1 & Hnf1 & Hsub1 & Hid1);
        [lia|].
      unfold mbind at 1, M_bind at 1. rewrite Hroom.
      rewrite (bind_Done _ _ _ _ _ _ (get_eq e w1)).
      set (node := MkNode (Candidate_Id c) (Candidate_Addr c) None).
      destruct (view_ok_Add _ node Hok1)
        as (p' & old & Hadd & Hokp & Hlenp & Hkeysp & Hnew).
      change (Id node) with (Candidate_Id c) in *.
      unfold mbind at 1, M_bind at 1. rewrite Hadd. simpl.
      unfold mbind at 1, M_bind at 1. simpl.
      assert (Hnp1 : Has (Candidate_Id c) (pView (w_ag w1)) = false).
      { apply Has_false; [apply Hok1|]. intros Hin%Hsub1.
        apply (Has_true _ _ (proj1 Hok)) in Hin. congruence. }
      rewrite Hnp1 in Hlenp.
      unfold pView_full in Hnf1. apply bool_decide_eq_false in Hnf1.
      destruct Hcfg1 as [Hid Hcf].
      match goal with
      | |- context [shuffle_integrate rest replyCandidates i' e ?w2] =>
          destruct (IH i' e w2)
            as (w' & Hrun & Hcfg & Hav & Htr & Hok' & Hb' & HA & HB)
      end; simpl; try done.
      { by rewrite Hav1. }
      { rewrite Hcf. rewrite Hcf in Hnf1. lia. }
      { by rewrite Hcf. }
      simpl in *. exists w'. split; [done|].
      rewrite Hcf, Hid, Hav1 in *.
      split_and!; try done.
      * congruence.
      * intros k [Hk|(Hin & ? & ?)]%HA.
        -- apply Hkeysp in Hk as [Hk| ->]; [left; by apply Hsub1|right].
           split_and!; [apply list_elem_of_here|done..].
        -- right. split_and!; [|done..]. by apply list_elem_of_further.
      * intros Hr.
        assert (Hsame : w1 = w).
        { apply Hid1. unfold pView_full. apply bool_decide_eq_false. lia. }
        subst w1. destruct (Hnew Hnp1) as (_ & Hkp & Hvp).
        destruct HB as [HB (added & Hk' & Hv' & Hfrom)]; [lia|]. split.
        -- intros k Hk. apply HB.
           destruct Hk as [Hk|(Hin & Hne & Hnk)].
           ++ left. apply Hkeysp. by left.
           ++ apply elem_of_cons in Hin as [->|Hin].
              ** left. apply Hkeysp. by right.
              ** by right.
        -- exists (node :: added). rewrite Hk', Hv', Hkp, Hvp.
           rewrite <- !app_assoc. split_and!; [done..|].
           constructor.
           ++ exists c. split; [apply list_elem_of_here|done].
           ++ eapply Forall_impl; [exact Hfrom|]. simpl.
              intros nd (c' & Hc' & ->). exists c'. split; [|done].
              by apply list_elem_of_further.
Qed.
(** C7: on a passive view within its bound (of at least two), and with
    the loop watched for more turns than there are candidates,
    [handleShuffle] comes back.  With ttl > 0 and more than one active
    node it hands the message, its ttl one less, to a node of the active
    view whose id is not the sender's, and changes nothing else.
    Otherwise it replies with min(|candidates|, |passive|) candidates
    made from nodes of the passive view and takes the received candidates
    into the passive view: the active view stays, the passive view stays
    within its bound, every id that is new in it is a candidate's, is not
    the agent's and is not in the active view; and when the view has room
    for all candidates, nothing is dropped, the nodes held are kept as
    they are, and exactly those candidates are added. *)
Theorem handleShuffle_spec msg e w :
  view_ok (aView (w_ag w)) → view_ok (pView (w_ag w)) →
  (Z.of_nat (Len (pView (w_ag w))) ≤ PViewSize (cfg (w_ag w)))%Z →
  (2 ≤ PViewSize (cfg (w_ag w)))%Z →
  length (Shuffle_Candidates msg) < budget e →
  let ag := w_ag w in
  let ttl := Shuffle_Ttl msg in
  let candidates := Shuffle_Candidates msg in
  let forward := (0 < ttl)%N ∧ 1 < Len (aView ag) in
  let fresh k := k ∈ Candidate_Id <$> candidates ∧ k ≠ id ag ∧
                 k ∉ keys (aView ag) in
  (forward →
   ∃ nd,
     handleShuffle msg e w
     = Done (tt, MkWorld ag (S (w_draws w))
                   (w_trace w ++
                    [GoForwardShuffle nd
                       (MkShuffle (Shuffle_Id msg) (Shuffle_SourceId msg)
                          (Shuffle_Addr msg) candidates (ttl - 1)%N)])) ∧
     nd ∈ Values (aView ag) ∧ Id nd ≠ Shuffle_Id msg) ∧
  (¬ forward →
   ∃ reply w',
     handleShuffle msg e w = Done (tt, w') ∧
     w_trace w' = w_trace w ++ [GoShuffleReply msg reply] ∧
     length reply = length candidates `min` Len (pView ag) ∧
     (∀ c, c ∈ reply →
           ∃ nd, nd ∈ Values (pView ag) ∧ c = MkCandidate (Id nd) (Addr nd)) ∧
     keeps_config ag (w_ag w') ∧
     aView (w_ag w') = aView ag ∧
     view_ok (pView (w_ag w')) ∧
     (Z.of_nat (Len (pView (w_ag w'))) ≤ PViewSize (cfg ag))%Z ∧
     (∀ k, k ∈ keys (pView (w_ag w')) → k ∈ keys (pView ag) ∨ fresh k) ∧
     ((Z.of_nat (Len (pView ag) + length candidates) ≤ PViewSize (cfg ag))%Z →
      (∀ k, k ∈ keys (pView (w_ag w')) ↔ k ∈ keys (pView ag) ∨ fresh k) ∧
      ∃ added,
        keys (pView (w_ag w')) = keys (pView ag) ++ (Id <$> added) ∧
        values (pView (w_ag w')) = values (pView ag) ++ added ∧
        Forall (λ nd, ∃ c, c ∈ candidates ∧
                  nd = MkNode (Candidate_Id c) (Candidate_Addr c) None)
               added)).
Proof.
  intros Hoka Hokp Hb H2 Hfuel ag ttl candidates forward fresh.
  subst ag. unfold handleShuffle.
  rewrite (bind_Done _ _ _ _ _ _ (get_eq e w)).
  fold ttl candidates. split.
  - intros [Httl Hlen].
    rewrite !bool_decide_eq_true_2 by done. simpl.
    pose proof (view_ok_ids _ Hoka) as Hids.
    pose proof Hoka as [Hwf _]. pose proof Hwf as [Hl _].
    destruct (chooseRandomNode_total (aView (w_ag w)) (Shuffle_Id msg) e w Hl)
      as (res & Hres & _ & Hin & Hsome).
    { unfold Values. rewrite Hids. by apply wf_NoDup. }
    rewrite decide_False in Hres by lia.
    destruct Hsome as [nd ->]; [lia|].
    rewrite (bind_Done _ _ _ _ _ _ Hres). simpl.
    exists nd. split; [done|]. by apply Hin.
  - intros Hno.
    assert (Hcond : bool_decide (0 < ttl)%N
                    && bool_decide (1 < Len (aView (w_ag w))) = false).
    { apply andb_false_iff.
      destruct (decide (0 < ttl)%N) as [?|?];
        [right|left]; apply bool_decide_eq_false; unfold forward in Hno; tauto. }
    rewrite Hcond.
    pose proof Hokp as [Hwfp _]. pose proof Hwfp as [Hlp _].
    destruct (chooseRandomCandidates_total (pView (w_ag w))
                (length candidates) e w Hlp) as (reply & Hch & Hlr & Hfrom).
    rewrite (bind_Done _ _ _ _ _ _ Hch).
    unfold mbind at 1, M_bind at 1. simpl.
    match goal with
    | |- context [shuffle_integrate candidates reply 0 e ?w1] =>
        destruct (shuffle_integrate_total reply candidates 0 e w1)
          as (w' & Hrun & Hcfg & Hav & Htr & Hok' & Hb' & HA & HB)
    end; simpl; try done.
    { apply Hoka. }
    { unfold candidates in Hlr. lia. }
    simpl in *. exists reply, w'. split; [done|].
    split_and!; try done.
    intros Hroom. destruct (HB Hroom) as [HB1 HB2]. split; [|done].
    intros k. split; [apply HA|apply HB1].
Qed.
End ShuffleFacts.

(** ** Runs of the agent's theorems *)

(** A run of [chooseRandomNode_spec]: a view of two nodes, the first one
    excluded. *)
Lemma chooseRandomNode_spec_witness :
  let n7 := agent.MkNode 7 "10.0.0.7:8424" (Some 1) in
  let n8 := agent.MkNode 8 "10.0.0.8:8424" (Some 2) in
  let view := arraymap.MkArrayMap {[7%N := 0; 8%N := 1]} [7%N; 8%N] [n7; n8] in
  let e := agent.MkEnv (λ _, 0) 10 in
  let w := agent.start config.default 42 in
  ∃ res,
    agent.chooseRandomNode view 7 e w
    = agent.Done (res, agent.MkWorld (agent.w_ag w) 1 []) ∧
    (∀ nd, res = Some nd → nd ∈ [n7; n8] ∧ agent.Id nd ≠ 7%N) ∧
    ∃ nd, res = Some nd.
Proof.
  intros n7 n8 view e w.
  destruct (chooseRandomNode_spec view 7 e w) as (res & Hres & _ & Hin & Hsome).
  - reflexivity.
  - apply (bool_decide_unpack _). by vm_compute.
  - exists res. split; [exact Hres|]. split; [exact Hin|].
    apply Hsome. unfold arraymap.Len. simpl. lia.
Defined.

(** A run of [view_bounds]: the agent after a Join, and the first
    node in an empty active view. *)
Lemma view_bounds_witness :
  let e := agent.MkEnv (λ _, 0) 10 in
  let join := agent.CallHandleJoin 1 (message.MkJoin 7 "10.0.0.7:8424")
                false in
  let n7 := agent.MkNode 7 "10.0.0.7:8424" (Some 1) in
  (∃ w, agent.run_call (λ p, p) join e (agent.start config.default 42)
        = agent.Done (tt, w) ∧
        agent.within_bounds (agent.w_ag w)) ∧
  (∃ w, agent.addNodeActiveView n7 e (agent.start config.default 42)
        = agent.Done (tt, w) ∧
        arraymap.Values (agent.aView (agent.w_ag w)) = [n7]).
Proof.
  intros e join n7.
  destruct (view_bounds (λ p, p) config.default 42) as (Hreach & Hadd & _).
  - unfold config.default. simpl. lia.
  - unfold config.default. simpl. lia.
  - split.
    + destruct (agent.run_call (λ p, p) join e
                  (agent.start config.default 42))
        as [[[] w]| |] eqn:Hrun.
      * exists w. split; [done|]. apply Hreach.
        eapply agent.reachable_step; [apply agent.reachable_start|exact Hrun].
      * by vm_compute in Hrun.
      * by vm_compute in Hrun.
    + destruct (Hadd n7 e (agent.start config.default 42))
        as (w & Hrun & _ & _ & _ & _ & _ & _ & _ & _ & Hroom & _).
      * apply view_ok_NewArrayMap.
      * apply view_ok_NewArrayMap.
      * split; by vm_compute.
      * left. by vm_compute.
      * left. by vm_compute.
      * simpl. lia.
      * exists w. split; [done|].
        destruct Hroom as (_ & Hv & _); [done|by vm_compute|].
        unfold arraymap.Values. by rewrite Hv.
Defined.


(** A run of [handleUserMessage_dedup]: a first message, one second after
    it was sent. *)
Lemma handleUserMessage_dedup_witness :
  let e := agent.MkEnv (λ _, 0) 10 in
  let from := agent.MkNode 7 "10.0.0.7:8424" (Some 1) in
  let msg := message.MkUserMessage 7 [104; 105]%Z 1000000000 in
  ∃ w', agent.handleUserMessage (λ p, p) from msg 2000000000 e
          (agent.start config.default 42) = agent.Done (tt, w') ∧
        arraymap.stored [104; 105]%Z 7000000000%Z
          (agent.msgBuffer (agent.w_ag w')) ∧
        agent.deliveries (λ p, p) [104; 105]%Z (agent.w_trace w') = 1.
Proof.
  intros e from msg.
  destruct (handleUserMessage_dedup (λ p, p) from msg 2000000000 e
              (agent.start config.default 42))
    as (w' & Hrun & _ & Hacc).
  - apply wf_NewArrayMap.
  - split; by vm_compute.
  - split; by vm_compute.
  - split; by vm_compute.
  - split; by vm_compute.
  - exists w'. split; [exact Hrun|].
    destruct Hacc as (_ & _ & _ & Hone & _ & _ & Hdel & _).
    { intros [Hstale|(d & [Hhas _] & _)].
      - by vm_compute in Hstale.
      - by vm_compute in Hhas. }
    split; [by apply Hone|exact Hdel].
Defined.

(** A run of [handleUserMessage_forwards]: a message from one of two
    active nodes goes to the other. *)
Lemma handleUserMessage_forwards_witness :
  let e := agent.MkEnv (λ _, 0) 10 in
  let n7 := agent.MkNode 7 "10.0.0.7:8424" (Some 1) in
  let n8 := agent.MkNode 8 "10.0.0.8:8424" (Some 2) in
  let view := arraymap.MkArrayMap {[7%N := 0; 8%N := 1]} [7%N; 8%N] [n7; n8] in
  let w := agent.MkWorld
             (agent.MkAgent 42 config.default view arraymap.NewArrayMap
                arraymap.NewArrayMap arraymap.NewArrayMap) 0 [] in
  let msg := message.MkUserMessage 7 [104; 105]%Z 1000000000 in
  ∃ w', agent.handleUserMessage (λ p, p) n7 msg 2000000000 e w
        = agent.Done (tt, w') ∧
        agent.forwards (agent.w_trace w') = [(n8, msg)].
Proof.
  intros e n7 n8 view w msg.
  destruct (handleUserMessage_forwards (λ p, p) n7 msg 2000000000 e w)
    as (w' & new & Hrun & Htr & _ & Hfw & _).
  - apply wf_NewArrayMap.
  - apply Z.lt_nge. by vm_compute.
  - intros (d & [Hhas _] & _). by vm_compute in Hhas.
  - exists w'. split; [exact Hrun|]. rewrite Htr. simpl. exact Hfw.
Defined.

(** A run of [handleShuffle_spec]: a shuffle at the end of its walk, with
    two candidates, one of them the agent itself. *)
Lemma handleShuffle_spec_witness :
  let e := agent.MkEnv (λ _, 0) 10 in
  let msg := message.MkShuffle 7 5 "10.0.0.5:8424"
               [message.MkCandidate 5 "10.0.0.5:8424";
                message.MkCandidate 42 ":8424"] 0 in
  ∃ reply w',
    agent.handleShuffle msg e (agent.start config.default 42)
    = agent.Done (tt, w') ∧
    agent.w_trace w' = [agent.GoShuffleReply msg reply] ∧
    5%N ∈ arraymap.keys (agent.pView (agent.w_ag w')) ∧
    42%N ∉ arraymap.keys (agent.pView (agent.w_ag w')).
Proof.
  intros e msg.
  destruct (handleShuffle_spec msg e (agent.start config.default 42))
    as [_ Hreply].
  - apply view_ok_NewArrayMap.
  - apply view_ok_NewArrayMap.
  - by vm_compute.
  - by vm_compute.
  - simpl. lia.
  - destruct Hreply
      as (reply & w' & Hrun & Htr & _ & _ & _ & _ & _ & _ & _ & Hroom).
    { intros [Httl _]. simpl in Httl. lia. }
    destruct Hroom as [Hkeys _]; [by vm_compute|].
    exists reply, w'. split; [exact Hrun|]. split; [exact Htr|]. split.
    + apply Hkeys. right. split_and!; [|done|apply not_elem_of_nil].
      simpl. apply list_elem_of_here.
    + intros [Hin|(_ & Hne & _)]%Hkeys; [|done].
      simpl in Hin. by apply elem_of_nil in Hin.
Defined.

(* ===================================================================== *)
(** * Part III: further properties of the code *)
(* ===================================================================== *)

(** ** The views: what is kept apart, and what is not *)

Section ViewExtras.
Import arraymap message agent.



(** [addNodeActiveView] on a view with room: the node is served and goes
    to the end; the passive view is not looked at. *)
Lemma addNodeActiveView_room node e w :
  view_ok (aView (w_ag w)) →
  Has (Id node) (aView (w_ag w)) = false →
  aView_full (w_ag w) = false →
  ∃ a',
    addNodeActiveView node e w
    = Done (tt, MkWorld (MkAgent (id (w_ag w)) (cfg (w_ag w)) a'
                           (pView (w_ag w)) (msgBuffer (w_ag w))
                           (failmsgBuffer (w_ag w)))
                  (w_draws w) (w_trace w ++ [GoServeNode node])) ∧
    view_ok a' ∧
    keys a' = keys (aView (w_ag w)) ++ [Id node] ∧
    values a' = values (aView (w_ag w)) ++ [node].
Proof.
  intros Hok Hhas Hnf. unfold addNodeActiveView.
  rewrite (bind_Done _ _ _ _ _ _ (get_eq e w)). rewrite Hhas. simpl.
  assert (Hloop : while aView_full demote_random_active e w = Done (tt, w)).
  { unfold while. by apply while_loop_false. }
  rewrite (bind_Done _ _ _ _ _ _ Hloop).
  rewrite (bind_Done _ _ _ _ _ _ (emit_eq _ e w)).
  unfold mbind at 1, M_bind at 1. simpl.
  destruct (view_ok_Add _ node Hok) as (a' & old & Hadd & Hok' & _ & _ & Hnew).
  destruct (Hnew Hhas) as (-> & Hk & Hv).
  unfold mbind at 1, M_bind at 1. rewrite Hadd. simpl.
  exists a'. by split_and!.
Qed.

(** What [handleNeighbor] does not do: an accepted sender that the
    passive view holds is not taken out of it, and is in both views
    afterwards. *)
Theorem handleNeighbor_overlap conn msg e w :
  view_ok (aView (w_ag w)) →
  Neighbor_Id msg ≠ id (w_ag w) →
  Neighbor_Id msg ∉ keys (aView (w_ag w)) →
  (Z.of_nat (Len (aView (w_ag w))) < AViewMaxSize (cfg (w_ag w)))%Z →
  Neighbor_Id msg ∈ keys (pView (w_ag w)) →
  ∃ w', handleNeighbor conn msg false e w = Done (true, w') ∧
        Neighbor_Id msg ∈ keys (aView (w_ag w')) ∧
        pView (w_ag w') = pView (w_ag w) ∧
        ¬ views_disjoint (w_ag w').
Proof.
  intros Hoka Hns Hna Hroom Hinp.
  set (newNode := MkNode (Neighbor_Id msg) (Neighbor_Addr msg) (Some conn)).
  unfold handleNeighbor. rewrite (bind_Done _ _ _ _ _ _ (get_eq e w)).
  fold newNode. simpl.
  rewrite bool_decide_eq_false_2 by done.
  assert (Hhas : Has (Neighbor_Id msg) (aView (w_ag w)) = false).
  { by apply (Has_false _ _ (proj1 Hoka)). }
  rewrite Hhas.
  rewrite (bool_decide_eq_true_2 (_ < _)%Z) by done.
  rewrite orb_true_r. simpl.
  rewrite (bind_Done _ _ _ _ _ _ (emit_eq _ e w)).
  assert (Hnf : aView_full (w_ag w) = false).
  { unfold aView_full. apply bool_decide_eq_false. lia. }
  destruct (addNodeActiveView_room newNode e
              (MkWorld (w_ag w) (w_draws w)
                 (w_trace w ++ [ReplyNeighbor newNode true])))
    as (a' & Hrun & _ & Hk & _); simpl; try done.
  rewrite (bind_Done _ _ _ _ _ _ Hrun). simpl in *.
  eexists. split; [done|]. simpl.
  assert (Hin : Neighbor_Id msg ∈ keys a').
  { rewrite Hk. apply elem_of_app. right. apply list_elem_of_here. }
  split_and!; [done|done|].
  intros (Hdis & _). simpl in Hdis. by apply (Hdis (Neighbor_Id msg)).
Qed.
End ViewExtras.

(** A run of [handleNeighbor_overlap]: a node learnt from a ShuffleReply
    asks to be a neighbor. *)
Lemma handleNeighbor_overlap_witness :
  let e := agent.MkEnv (λ _, 0) 10 in
  let reply := message.MkShuffleReply 9
                 [message.MkCandidate 7 "10.0.0.7:8424"] in
  let msg := message.MkNeighbor 7 "10.0.0.7:8424" message.Neighbor_Low in
  ∃ w1 w2,
    agent.reachable (λ p, p) config.default 42 w1 ∧
    agent.views_disjoint (agent.w_ag w1) ∧
    agent.handleNeighbor 1 msg false e w1 = agent.Done (true, w2) ∧
    agent.reachable (λ p, p) config.default 42 w2 ∧
    ¬ agent.views_disjoint (agent.w_ag w2).
Proof.
  intros e reply msg.
  destruct (agent.run_call (λ p, p) (agent.CallHandleShuffleReply reply) e
              (agent.start config.default 42)) as [[[] w1]| |] eqn:Hrun1;
    [|by vm_compute in Hrun1..].
  assert (Hr1 : agent.reachable (λ p, p) config.default 42 w1).
  { eapply agent.reachable_step; [apply agent.reachable_start|exact Hrun1]. }
  vm_compute in Hrun1. injection Hrun1 as Hw1.
  destruct (handleNeighbor_overlap 1 msg e w1) as (w2 & Hrun2 & _ & _ & Hov);
    [..|exists w1, w2; split_and!; [exact Hr1| |exact Hrun2| |exact Hov]];
    try rewrite <- Hw1.
  - apply view_ok_NewArrayMap.
  - done.
  - apply not_elem_of_nil.
  - by vm_compute.
  - apply list_elem_of_here.
  - split_and!; simpl.
    + intros k Hk. by apply elem_of_nil in Hk.
    + apply not_elem_of_nil.
    + intros [=]%list_elem_of_singleton.
  - apply (agent.reachable_step _ _ _ w1 w2 e
             (agent.CallHandleNeighbor 1 msg false) Hr1).
    simpl. unfold mbind, agent.M_bind. by rewrite Hrun2.
Defined.


(** ** The ordered map: lookups after an update, slots, order *)

Section ArrayMapExtras.
Import arraymap.
Context {K : Type} `{Countable K} {V : Type}.
Implicit Types (a : ArrayMap K V) (k : K) (v : V).

Lemma stored_fun a k v v' : stored k v a → stored k v' a → v = v'.
Proof. intros [_ Hv] [_ Hv']. congruence. Qed.

Lemma stored_slot a p k v :
  wf a → keys a !! p = Some k → values a !! p = Some v → stored k v a.
Proof.
  intros Hwf Hk Hv. apply stored_entries; [done|].
  apply list_elem_of_lookup. exists p. unfold entries.
  rewrite (lookup_zip_with pair). by rewrite Hk, Hv.
Qed.

(** [Add] and the lookups after it: the key is in the map with the new
    value, nothing else changes, the value that was overwritten (and only
    that) is handed back, and a new key goes to the end. *)
Theorem Add_lookup a k v :
  wf a →
  ∃ a' old, Add k v a = Some (a', old) ∧ wf a' ∧
    Has k a' = true ∧ GetValueOf k a' = Some v ∧
    (∀ k', k' ≠ k → Has k' a' = Has k' a ∧
                    ∀ v', stored k' v' a' ↔ stored k' v' a) ∧
    (∀ v0, old = Some v0 ↔ stored k v0 a) ∧
    Len a' = Len a + (if Has k a then 0 else 1) ∧
    (Has k a = true → keys a' = keys a) ∧
    (Has k a = false → keys a' = keys a ++ [k] ∧ values a' = values a ++ [v]).
Proof.
  intros Hwf.
  destruct (Add_stored a k v Hwf) as (a' & old & Hadd & Hwf' & Hst).
  assert (Hnew : stored k v a') by (apply Hst; by right).
  assert (Hkeys : ∀ k', k' ≠ k → k' ∈ keys a' ↔ k' ∈ keys a).
  { intros k' Hne.
    rewrite <- (keys_entries a' Hwf'), <- (keys_entries a Hwf).
    rewrite !list_elem_of_fmap. split.
    - intros ([k1 v1] & -> & Hin). apply stored_entries in Hin; [|done].
      apply Hst in Hin as [[Hin _]|[? _]]; [|done].
      exists (k1, v1). split; [done|]. by apply stored_entries.
    - intros ([k1 v1] & -> & Hin). apply stored_entries in Hin; [|done].
      exists (k1, v1). split; [done|]. apply stored_entries; [done|].
      apply Hst. by left. }
  exists a', old. split; [done|]. split; [done|].
  split; [apply Hnew|]. split; [apply Hnew|]. split.
  { intros k' Hne. split.
    - destruct (Has k' a) eqn:Hh.
      + apply Has_true; [done|]. apply Hkeys; [done|]. by apply Has_true.
      + apply Has_false; [done|]. rewrite Hkeys by done. by apply Has_false.
    - intros v'. rewrite Hst. split; [|by left].
      intros [[? _]|[? _]]; done. }
  destruct (Has k a) eqn:Hhas.
  - destruct (Add_present a k v Hwf Hhas)
      as (a1 & p & o & Hadd1 & _ & Hk & Hv & Hkeys1 & _).
    rewrite Hadd in Hadd1. injection Hadd1 as <- ->.
    split_and!; [|unfold Len; rewrite Hkeys1; lia|done|done].
    intros v0. split.
    + intros [= <-]. by eapply stored_slot.
    + intros Hs. f_equal. eapply stored_fun; [|exact Hs]. by eapply stored_slot.
  - destruct (Add_fresh a k v Hwf Hhas) as (a1 & Hadd1 & _ & Hk1 & Hv1).
    rewrite Hadd in Hadd1. injection Hadd1 as <- ->.
    split_and!; [|unfold Len; rewrite Hk1, length_app; simpl; lia|done|done].
    intros v0. split; [done|]. intros [Hh _]. congruence.
Qed.

(** [Remove] and the lookups after it: it tells whether the key was
    there, the key is gone, every other entry is as before, and a map
    without the key is left as it is. *)
Theorem Remove_lookup a k :
  wf a →
  ∃ a', Remove k a = Some (a', Has k a) ∧ wf a' ∧
    Has k a' = false ∧
    (∀ k' v', stored k' v' a' ↔ stored k' v' a ∧ k' ≠ k) ∧
    Len a' = Len a - (if Has k a then 1 else 0) ∧
    (Has k a = false → a' = a).
Proof.
  intros Hwf.
  destruct (Remove_stored a k Hwf) as (a' & Hrm & Hwf' & Hst).
  destruct (Remove_spec a k Hwf) as (a1 & Hrm1 & _ & _ & Hlen).
  rewrite Hrm in Hrm1. injection Hrm1 as <-.
  exists a'. split_and!; try done.
  - destruct (Has k a') eqn:Hh; [|done].
    destruct (Has_stored a' k Hwf' Hh) as [v Hv].
    apply Hst in Hv as [_ Hne]. done.
  - intros Hh. rewrite (Remove_absent a k Hh) in Hrm. by injection Hrm.
Qed.

(** Where [Remove] leaves the others: the last entry moves into the
    freed slot, every other slot keeps its entry, and the last slot
    goes. *)
Theorem Remove_moves_last a p k :
  wf a → keys a !! p = Some k →
  ∃ a', Remove k a = Some (a', true) ∧
    Len a' = Len a - 1 ∧
    ∀ i, i < Len a - 1 →
      keys a' !! i = keys a !! (if decide (i = p) then Len a - 1 else i) ∧
      values a' !! i = values a !! (if decide (i = p) then Len a - 1 else i).
Proof.
  intros Hwf Hk. pose proof Hwf as [Hlen Hpos].
  assert (Hp : p < length (keys a)) by (by eapply lookup_lt_Some).
  destruct (lookup_lt_is_Some_2 (keys a) (length (keys a) - 1)) as [kl Hkl];
    [lia|].
  destruct (lookup_lt_is_Some_2 (values a) p) as [vp Hvp]; [lia|].
  destruct (lookup_lt_is_Some_2 (values a) (length (values a) - 1))
    as [vl Hvl]; [lia|].
  unfold Remove. apply Hpos in Hk as Hpk. rewrite Hpk.
  unfold removeAt. rewrite Hk, Hkl, Hvp, Hvl. simpl.
  eexists. split; [done|]. unfold Len. simpl.
  rewrite !length_insert. rewrite length_take, !length_insert.
  split; [lia|]. intros i Hi. split.
  - rewrite lookup_take_lt by lia.
    rewrite list_lookup_insert_ne by lia.
    destruct (decide (i = p)) as [->|Hne].
    + rewrite list_lookup_insert_eq by lia. done.
    + by rewrite list_lookup_insert_ne.
  - rewrite lookup_take_lt by lia.
    rewrite list_lookup_insert_ne by lia.
    destruct (decide (i = p)) as [->|Hne].
    + rewrite list_lookup_insert_eq by lia. by rewrite Hlen.
    + by rewrite list_lookup_insert_ne.
Qed.

Lemma adds_in_order_from (kvs : list (K * V)) : ∀ a,
  wf a → NoDup kvs.*1 → (∀ k, k ∈ kvs.*1 → k ∉ keys a) →
  ∃ a', run ((λ kv, OpAdd kv.1 kv.2) <$> kvs) a = Some a' ∧ wf a' ∧
        keys a' = keys a ++ kvs.*1 ∧ values a' = values a ++ kvs.*2.
Proof.
  induction kvs as [|[k v] kvs IH]; intros a Hwf Hnd Hfresh.
  - exists a. simpl. by rewrite !app_nil_r.
  - simpl in *. apply NoDup_cons in Hnd as [Hk Hnd].
    destruct (Add_fresh a k v Hwf) as (a1 & Hadd & Hwf1 & Hk1 & Hv1).
    { apply Has_false; [done|]. apply Hfresh. apply list_elem_of_here. }
    rewrite Hadd. simpl.
    destruct (IH a1 Hwf1 Hnd) as (a' & Hrun & Hwf' & Hk' & Hv').
    { intros k' Hin. rewrite Hk1. intros [Hin'| ->%list_elem_of_singleton]%elem_of_app.
      - eapply Hfresh; [|exact Hin']. by apply list_elem_of_further.
      - done. }
    exists a'. split_and!; [done|done|..].
    + rewrite Hk', Hk1, <- app_assoc. done.
    + rewrite Hv', Hv1, <- app_assoc. done.
Qed.

(** Without [Remove] the order is the order of insertion: after adding
    pairs with distinct keys to a new map, slot [i] holds the [i]-th
    pair, and [Values] lists the values as they were added. *)
Theorem adds_in_order (kvs : list (K * V)) :
  NoDup kvs.*1 →
  ∃ a, run ((λ kv, OpAdd kv.1 kv.2) <$> kvs) NewArrayMap = Some a ∧ wf a ∧
       Values a = kvs.*2 ∧
       ∀ i, GetKeyAt i a = fst <$> kvs !! i ∧
            GetValueAt i a = snd <$> kvs !! i.
Proof.
  intros Hnd.
  destruct (adds_in_order_from kvs NewArrayMap wf_NewArrayMap Hnd)
    as (a & Hrun & Hwf & Hk & Hv).
  { intros k _. apply not_elem_of_nil. }
  simpl in Hk, Hv. exists a. split_and!; [done..|].
  intros i. unfold GetKeyAt, GetValueAt. rewrite Hk, Hv.
  by rewrite !list_lookup_fmap.
Qed.

(** Slots and keys: an index is good exactly below [Len] (beyond it the
    accessors panic), the key at a slot looks up that slot's value, and a
    key that is not in the map reads slot 0 (a panic on the empty map),
    as the position table answers 0 for it. *)
Theorem slot_lookup a :
  wf a →
  (∀ i, is_Some (GetKeyAt i a) ↔ i < Len a) ∧
  (∀ i, is_Some (GetValueAt i a) ↔ i < Len a) ∧
  (∀ i k, GetKeyAt i a = Some k →
          Has k a = true ∧ GetValueOf k a = GetValueAt i a) ∧
  (∀ k, Has k a = false → GetValueOf k a = GetValueAt 0 a).
Proof.
  intros [Hlen Hpos]. unfold GetKeyAt, GetValueAt, GetValueOf, Has, Len.
  split_and!.
  - intros i. apply lookup_lt_is_Some.
  - intros i. rewrite Hlen. apply lookup_lt_is_Some.
  - intros i k Hk. apply Hpos in Hk.
    split; [apply bool_decide_eq_true; by eexists|]. by rewrite Hk.
  - intros k Hh. apply bool_decide_eq_false in Hh.
    destruct (positions a !! k) eqn:Hp; [|done]. exfalso. apply Hh. by eexists.
Qed.
End ArrayMapExtras.

(** Any script run on a new map gives a map in order. *)
Lemma wf_run {K : Type} `{Countable K} {V : Type}
    (ops : list (arraymap.op K V)) :
  ∃ a, arraymap.run ops arraymap.NewArrayMap = Some a ∧ arraymap.wf a.
Proof.
  destruct (run_spec ops arraymap.NewArrayMap [] wf_NewArrayMap)
    as (a & Hrun & Hwf & _); [done|].
  by exists a.
Qed.

(** A run of [Add_lookup]: a value is overwritten. *)
Lemma Add_lookup_witness :
  ∃ a a' : arraymap.ArrayMap nat nat,
    arraymap.run [arraymap.OpAdd 1 10; arraymap.OpAdd 2 20]
      arraymap.NewArrayMap = Some a ∧
    arraymap.Add 1 11 a = Some (a', Some 10) ∧
    arraymap.GetValueOf 1 a' = Some 11 ∧
    arraymap.keys a' = [1; 2].
Proof.
  destruct (wf_run [arraymap.OpAdd 1 10; arraymap.OpAdd 2 20])
    as (a & Hrun & Hwf).
  destruct (Add_lookup a 1 11 Hwf)
    as (a' & old & Hadd & _ & _ & Hget & _ & Hold & _ & Hkeys & _).
  pose proof Hrun as Hc. vm_compute in Hc. injection Hc as Ha.
  assert (Ho : old = Some 10).
  { apply Hold. rewrite <- Ha. split; by vm_compute. }
  subst old. exists a, a'. split_and!; [done..|].
  rewrite Hkeys; rewrite <- Ha; by vm_compute.
Defined.

(** A run of [Remove_lookup]: one of two keys is removed. *)
Lemma Remove_lookup_witness :
  ∃ a a' : arraymap.ArrayMap nat nat,
    arraymap.run [arraymap.OpAdd 1 10; arraymap.OpAdd 2 20]
      arraymap.NewArrayMap = Some a ∧
    arraymap.Remove 1 a = Some (a', true) ∧
    arraymap.Has 1 a' = false ∧
    arraymap.stored 2 20 a'.
Proof.
  destruct (wf_run [arraymap.OpAdd 1 10; arraymap.OpAdd 2 20])
    as (a & Hrun & Hwf).
  destruct (Remove_lookup a 1 Hwf) as (a' & Hrm & _ & Hgone & Hst & _).
  pose proof Hrun as Hc. vm_compute in Hc. injection Hc as Ha.
  assert (Hh : arraymap.Has 1 a = true) by (rewrite <- Ha; by vm_compute).
  rewrite Hh in Hrm. exists a, a'. split_and!; [done..|].
  apply Hst. split; [|done]. rewrite <- Ha. split; by vm_compute.
Defined.

(** A run of [Remove_moves_last]: the first of three keys is removed. *)
Lemma Remove_moves_last_witness :
  ∃ a a' : arraymap.ArrayMap nat nat,
    arraymap.run [arraymap.OpAdd 1 10; arraymap.OpAdd 2 20;
                  arraymap.OpAdd 3 30] arraymap.NewArrayMap = Some a ∧
    arraymap.Remove 1 a = Some (a', true) ∧
    arraymap.GetKeyAt 0 a' = Some 3 ∧ arraymap.GetValueAt 0 a' = Some 30 ∧
    arraymap.GetKeyAt 1 a' = Some 2 ∧ arraymap.GetValueAt 1 a' = Some 20.
Proof.
  destruct (wf_run [arraymap.OpAdd 1 10; arraymap.OpAdd 2 20;
                    arraymap.OpAdd 3 30]) as (a & Hrun & Hwf).
  pose proof Hrun as Hc. vm_compute in Hc. injection Hc as Ha.
  destruct (Remove_moves_last a 0 1 Hwf) as (a' & Hrm & _ & Hslots).
  { rewrite <- Ha. by vm_compute. }
  assert (Hlen : arraymap.Len a = 3) by (rewrite <- Ha; by vm_compute).
  rewrite Hlen in Hslots.
  destruct (Hslots 0) as [Hk0 Hv0]; [lia|].
  destruct (Hslots 1) as [Hk1 Hv1]; [lia|].
  exists a, a'. split; [done|]. split; [done|].
  unfold arraymap.GetKeyAt, arraymap.GetValueAt.
  rewrite Hk0, Hv0, Hk1, Hv1. rewrite <- Ha.
  split_and!; by vm_compute.
Defined.

(** A run of [adds_in_order]: three pairs. *)
Lemma adds_in_order_witness :
  ∃ a : arraymap.ArrayMap nat nat,
    arraymap.run [arraymap.OpAdd 3 30; arraymap.OpAdd 1 10;
                  arraymap.OpAdd 2 20] arraymap.NewArrayMap = Some a ∧
    arraymap.Values a = [30; 10; 20].
Proof.
  destruct (adds_in_order [(3, 30); (1, 10); (2, 20)])
    as (a & Hrun & _ & Hv & _).
  - apply (bool_decide_unpack _). by vm_compute.
  - by exists a.
Defined.

(** A run of [slot_lookup]: a map of two entries. *)
Lemma slot_lookup_witness :
  ∃ a : arraymap.ArrayMap nat nat,
    arraymap.run [arraymap.OpAdd 1 10; arraymap.OpAdd 2 20]
      arraymap.NewArrayMap = Some a ∧
    arraymap.GetValueAt 2 a = None ∧
    arraymap.GetValueOf 7 a = arraymap.GetValueAt 0 a.
Proof.
  destruct (wf_run [arraymap.OpAdd 1 10; arraymap.OpAdd 2 20])
    as (a & Hrun & Hwf).
  pose proof Hrun as Hc. vm_compute in Hc. injection Hc as Ha.
  destruct (slot_lookup a Hwf) as (_ & Hv & _ & Hmiss).
  exists a. split_and!; [done| |].
  - destruct (arraymap.GetValueAt 2 a) eqn:Hg; [|done].
    assert (Hlt : 2 < arraymap.Len a) by (apply Hv; by eexists).
    rewrite <- Ha in Hlt. vm_compute in Hlt. lia.
  - apply Hmiss. rewrite <- Ha. by vm_compute.
Defined.

(** ** The codec: registration, and what [ReadMsg] takes from a stream *)

Section CodecExtras.
Import message io codec registry.
Local Open Scope Z_scope.






Section Proto.
Variable Marshal : Message → option (list Z).
Variable Unmarshal : MsgType → list Z → option Message.

(** [ReadMsg] on a stream that starts with a whole frame. *)
Lemma ReadMsg_framed pc tg payload r rest :
  Z.of_nat (length payload) + 1 < 2 ^ 32 →
  pending r = frame tg payload ++ rest →
  (2 ≤ length (hd [] r))%nat →
  ∃ r',
    ReadMsg Unmarshal pc r
    = (match registeredMessages pc !! tg with
       | None => inl ErrMessageNotRegistered
       | Some mtype =>
           match Unmarshal mtype payload with
           | None => inl ErrProto
           | Some msg => inr msg
           end
       end, r') ∧
    pending r' = rest.
Proof.
  intros Hlen Hpend Hhd.
  destruct r as [|c r0]; [simpl in Hhd; lia|]. simpl in Hhd.
  unfold ReadMsg. cbn [Read].
  assert (Htake : take 2 c = [0xab; 0xcd]).
  { erewrite <- (take_app_le c (pending r0)) by lia.
    change (c ++ pending r0) with (pending (c :: r0)). by rewrite Hpend. }
  rewrite Htake. cbn [magic_buffer].
  assert (magic_ok (0xab, 0xcd) = true) as -> by done. cbn [negb].
  assert (Hp1 : pending (advance 2 c r0)
                = uint32_le (Z.of_nat (length payload) + 1)
                  ++ [tg] ++ payload ++ rest).
  { rewrite pending_advance. erewrite <- (drop_app_le c (pending r0)) by lia.
    change (c ++ pending r0) with (pending (c :: r0)). by rewrite Hpend. }
  destruct (Uint32_uint32_le (Z.of_nat (length payload) + 1))
    as (b0 & b1 & b2 & b3 & Hle & Hu32); [lia|].
  rewrite Hle in Hp1.
  destruct (ReadFull_enough 4 (advance 2 c r0)) as (r2 & -> & Hp2).
  { rewrite Hp1. simpl. lia. }
  rewrite Hp1 in Hp2 |- *. cbn [take app]. simpl in Hp2.
  rewrite Hu32.
  destruct (ReadFull_enough (Z.to_nat (Z.of_nat (length payload) + 1)) r2)
    as (r3 & -> & Hp3).
  { rewrite Hp2. simpl. rewrite length_app. lia. }
  rewrite Hp2 in Hp3 |- *.
  replace (Z.to_nat (Z.of_nat (length payload) + 1))
    with (S (length payload)) in * by lia.
  cbn [take] in *. simpl in Hp3.
  rewrite take_app_length. rewrite drop_app_length in Hp3.
  exists r3. split; [|done].
  destruct (registeredMessages pc !! tg); [|done].
  by destruct (Unmarshal m payload).
Qed.

(** [ReadMsg] on a stream that starts with a whole frame takes exactly
    that frame, whether or not it can make a message of it: an unknown
    tag and a payload protobuf refuses are errors, but the reader is left
    at the next frame. *)
Theorem ReadMsg_consumes_frame pc tg payload r rest :
  Z.of_nat (length payload) + 1 < 2 ^ 32 →
  pending r = frame tg payload ++ rest →
  (2 ≤ length (hd [] r))%nat →
  ∃ res r',
    ReadMsg Unmarshal pc r = (res, r') ∧ pending r' = rest ∧
    (registeredMessages pc !! tg = None →
     res = inl ErrMessageNotRegistered) ∧
    (∀ mtype, registeredMessages pc !! tg = Some mtype →
       (Unmarshal mtype payload = None → res = inl ErrProto) ∧
       (∀ msg, Unmarshal mtype payload = Some msg → res = inr msg)).
Proof.
  intros Hlen Hpend Hhd.
  destruct (ReadMsg_framed pc tg payload r rest Hlen Hpend Hhd)
    as (r' & Hrd & Hrest).
  eexists _, r'. split; [exact Hrd|]. split; [done|]. split.
  - by intros ->.
  - intros mtype ->. split.
    + by intros ->.
    + by intros msg ->.
Qed.

End Proto.
End CodecExtras.

(** ** The codec: streams that are cut *)

Section CodecCuts.
Import message io codec.
Local Open Scope Z_scope.

(** [io.ReadFull] on a reader that holds fewer than [n] bytes takes them
    all and fails: with [EOF] when nothing was read, with
    [ErrUnexpectedEOF] otherwise. *)
Lemma ReadFull_from_short r : ∀ got n,
  (length (pending r) < n)%nat →
  ∃ e, ReadFull_from got n r = (pending r, Some e, []) ∧
       (got = true ∨ pending r ≠ [] → e = ErrUnexpectedEOF) ∧
       (got = false → pending r = [] → e = EOF).
Proof.
  induction r as [|c rest IH]; intros got n Hn.
  - destruct n as [|n]; [simpl in Hn; lia|]. simpl.
    eexists. split; [done|]. split.
    + intros [->|?]; done.
    + by intros -> _.
  - destruct n as [|n]; [simpl in Hn; lia|].
    cbn [ReadFull_from]. unfold pending in *. simpl in Hn |- *.
    rewrite length_app in Hn. rewrite decide_False by lia.
    destruct (IH (got || negb (bool_decide (c = []))) (S n - length c)%nat)
      as (e & Hrd & Hun & Heof); [lia|].
    rewrite Hrd. exists e. split; [done|]. split.
    + intros [->|Hne]; [by apply Hun; left|].
      apply Hun. destruct c as [|x c]; [right; by simpl in Hne|left].
      rewrite bool_decide_eq_false_2 by done. simpl. apply orb_true_r.
    + intros -> [-> Hrest]%app_eq_nil. by apply Heof.
Qed.

Section Proto.
Variable Unmarshal : MsgType → list Z → option Message.

(** The magic is read with one [Read], not with [io.ReadFull]: when that
    [Read] brings fewer than two bytes, whatever they are and whatever
    follows, [ReadMsg] fails on the magic. *)
Theorem ReadMsg_split_magic pc c r0 :
  (length c < 2)%nat →
  ReadMsg Unmarshal pc (c :: r0) = (inl ErrMagic, r0).
Proof.
  intros Hc. unfold ReadMsg. cbn [Read].
  destruct c as [|m0 [|m1 c]]; [| |simpl in Hc; lia].
  - done.
  - unfold advance, magic_ok. simpl. by rewrite andb_false_r.
Qed.

(** A frame whose length field is 0 has no tag to look at: the index
    into the empty body panics, [ReadMsg] recovers and fails, having taken
    the six bytes of the header. *)
Theorem ReadMsg_empty_body pc r rest :
  pending r = [0xab; 0xcd; 0; 0; 0; 0] ++ rest →
  (2 ≤ length (hd [] r))%nat →
  ∃ r', ReadMsg Unmarshal pc r = (inl ErrRecovered, r') ∧ pending r' = rest.
Proof.
  intros Hpend Hhd.
  destruct r as [|c r0]; [simpl in Hhd; lia|]. simpl in Hhd.
  unfold ReadMsg. cbn [Read].
  assert (Htake : take 2 c = [0xab; 0xcd]).
  { erewrite <- (take_app_le c (pending r0)) by lia.
    change (c ++ pending r0) with (pending (c :: r0)). by rewrite Hpend. }
  rewrite Htake. cbn [magic_buffer].
  assert (magic_ok (0xab, 0xcd) = true) as -> by done. cbn [negb].
  assert (Hp1 : pending (advance 2 c r0) = [0; 0; 0; 0] ++ rest).
  { rewrite pending_advance. erewrite <- (drop_app_le c (pending r0)) by lia.
    change (c ++ pending r0) with (pending (c :: r0)). by rewrite Hpend. }
  destruct (ReadFull_enough 4 (advance 2 c r0)) as (r2 & -> & Hp2).
  { rewrite Hp1. simpl. lia. }
  rewrite Hp1 in Hp2 |- *. cbn [take app]. simpl in Hp2.
  rewrite take_0. simpl.
  change (Z.to_nat (binary.Uint32 0 0 0 0)) with 0%nat.
  exists r2. split; [by destruct r2|exact Hp2].
Qed.

(** A frame that is cut short is an end-of-file error, and all that was
    there is taken: [EOF] when the cut falls right after the magic or
    right after the length, [ErrUnexpectedEOF] anywhere else. *)
Theorem ReadMsg_truncated pc tg payload r n :
  Z.of_nat (length payload) + 1 < 2 ^ 32 →
  (2 ≤ n < length (frame tg payload))%nat →
  pending r = take n (frame tg payload) →
  (2 ≤ length (hd [] r))%nat →
  ∃ e, ReadMsg Unmarshal pc r = (inl e, []) ∧
       (e = EOF ∨ e = ErrUnexpectedEOF) ∧
       (e = EOF ↔ n = 2%nat ∨ n = 6%nat).
Proof.
  intros Hlen [Hn2 Hn] Hpend Hhd.
  destruct r as [|c r0]; [simpl in Hhd; lia|]. simpl in Hhd.
  destruct (Uint32_uint32_le (Z.of_nat (length payload) + 1))
    as (b0 & b1 & b2 & b3 & Hle & Hu32); [lia|].
  unfold frame in Hpend, Hn. rewrite Hle in Hpend, Hn.
  simpl in Hn.
  destruct n as [|[|n]]; [lia..|]. cbn [take app] in Hpend.
  unfold ReadMsg. cbn [Read].
  assert (Htake : take 2 c = [0xab; 0xcd]).
  { erewrite <- (take_app_le c (pending r0)) by lia.
    change (c ++ pending r0) with (pending (c :: r0)). by rewrite Hpend. }
  rewrite Htake. cbn [magic_buffer].
  assert (magic_ok (0xab, 0xcd) = true) as -> by done. cbn [negb].
  assert (Hp1 : pending (advance 2 c r0)
                = take n (b0 :: b1 :: b2 :: b3 :: tg :: payload)).
  { rewrite pending_advance. erewrite <- (drop_app_le c (pending r0)) by lia.
    change (c ++ pending r0) with (pending (c :: r0)). by rewrite Hpend. }
  destruct (decide (n < 4)%nat) as [Hshort|Hlong].
  - destruct (ReadFull_from_short (advance 2 c r0) false 4)
      as (e & Hrd & Hun & Heof).
    { rewrite Hp1, length_take. simpl. lia. }
    unfold ReadFull. rewrite Hrd. exists e. split; [done|].
    destruct n as [|n].
    + rewrite Hp1 in Heof. simpl in Heof. rewrite Heof by done.
      split; [by left|]. split; [by left|done].
    + rewrite Hun by (right; by rewrite Hp1).
      split; [by right|]. split; [done|]. intros [?|?]; lia.
  - destruct n as [|[|[|[|n]]]]; [lia..|]. simpl in Hp1.
    destruct (ReadFull_enough 4 (advance 2 c r0)) as (r2 & -> & Hp2).
    { rewrite Hp1. simpl. lia. }
    rewrite Hp1 in Hp2 |- *. cbn [take]. simpl in Hp2. rewrite take_0.
    rewrite drop_0 in Hp2. rewrite Hu32.
    destruct (ReadFull_from_short r2 false
                (Z.to_nat (Z.of_nat (length payload) + 1)))
      as (e & Hrd & Hun & Heof).
    { rewrite Hp2, length_take. simpl. lia. }
    unfold ReadFull. rewrite Hrd. exists e. split; [done|].
    destruct n as [|n].
    + rewrite Hp2 in Heof. simpl in Heof. rewrite Heof by done.
      split; [by left|]. split; [by right|done].
    + rewrite Hun by (right; by rewrite Hp2).
      split; [by right|]. split; [done|]. intros [?|?]; lia.
Qed.
End Proto.
End CodecCuts.



(** A run of [ReadMsg_consumes_frame]: a frame with a tag nobody
    registered, followed by the start of the next frame. *)
Lemma ReadMsg_consumes_frame_witness :
  let Unmarshal := λ (_ : message.MsgType) (_ : list Z),
                     Some (message.MDisconnect (message.MkDisconnect 7)) in
  ∃ r', codec.ReadMsg Unmarshal codec.NewProtobufCodec
          [[0xab; 0xcd; 3; 0; 0; 0; 200; 8; 7; 0xab; 0xcd]%Z]
        = (inl io.ErrMessageNotRegistered, r') ∧
        io.pending r' = [0xab; 0xcd]%Z.
Proof.
  intros Unmarshal.
  destruct (ReadMsg_consumes_frame Unmarshal codec.NewProtobufCodec 200
              [8; 7]%Z [[0xab; 0xcd; 3; 0; 0; 0; 200; 8; 7; 0xab; 0xcd]%Z]
              [0xab; 0xcd]%Z)
    as (res & r' & Hrd & Hrest & Hunk & _).
  - by vm_compute.
  - done.
  - simpl. lia.
  - rewrite Hunk in Hrd by done. by exists r'.
Defined.

(** A run of [ReadMsg_split_magic]: a well-formed frame whose first byte
    arrives alone. *)
Lemma ReadMsg_split_magic_witness :
  let Unmarshal := λ (_ : message.MsgType) (_ : list Z),
                     Some (message.MDisconnect (message.MkDisconnect 7)) in
  ∃ pc, codec.RegisterAll codec.agent_types codec.NewProtobufCodec = Some pc ∧
        io.pending [[0xab]; [0xcd; 3; 0; 0; 0; 6; 8; 7]]%Z
        = codec.frame 6 [8; 7]%Z ∧
        codec.ReadMsg Unmarshal pc [[0xab]; [0xcd; 3; 0; 0; 0; 6; 8; 7]]%Z
        = (inl io.ErrMagic, [[0xcd; 3; 0; 0; 0; 6; 8; 7]]%Z).
Proof.
  intros Unmarshal.
  destruct (codec.RegisterAll codec.agent_types codec.NewProtobufCodec)
    as [pc|] eqn:Hpc; [|by vm_compute in Hpc].
  exists pc. split; [done|]. split; [done|].
  apply (ReadMsg_split_magic Unmarshal pc). simpl. lia.
Defined.

(** A run of [ReadMsg_empty_body]. *)
Lemma ReadMsg_empty_body_witness :
  let Unmarshal := λ (_ : message.MsgType) (_ : list Z),
                     Some (message.MDisconnect (message.MkDisconnect 7)) in
  ∃ r', codec.ReadMsg Unmarshal codec.NewProtobufCodec
          [[0xab; 0xcd; 0; 0; 0; 0; 0xab]%Z]
        = (inl io.ErrRecovered, r') ∧
        io.pending r' = [0xab]%Z.
Proof.
  intros Unmarshal.
  apply (ReadMsg_empty_body Unmarshal codec.NewProtobufCodec
           [[0xab; 0xcd; 0; 0; 0; 0; 0xab]%Z] [0xab]%Z); [done|simpl; lia].
Defined.

(** A run of [ReadMsg_truncated]: a frame cut inside its payload, and
    one cut right after its length. *)
Lemma ReadMsg_truncated_witness :
  let Unmarshal := λ (_ : message.MsgType) (_ : list Z),
                     Some (message.MDisconnect (message.MkDisconnect 7)) in
  codec.ReadMsg Unmarshal codec.NewProtobufCodec
    [[0xab; 0xcd; 3; 0; 0; 0; 6; 8]%Z] = (inl io.ErrUnexpectedEOF, []) ∧
  codec.ReadMsg Unmarshal codec.NewProtobufCodec
    [[0xab; 0xcd; 3; 0; 0; 0]%Z] = (inl io.EOF, []).
Proof.
  intros Unmarshal. split.
  - destruct (ReadMsg_truncated Unmarshal codec.NewProtobufCodec 6 [8; 7]%Z
                [[0xab; 0xcd; 3; 0; 0; 0; 6; 8]%Z] 8)
      as (e & Hrd & [->| ->] & Hiff); [by vm_compute|simpl; lia|done|
                                       simpl; lia| |done].
    destruct Hiff as [Hiff _]. destruct (Hiff eq_refl); lia.
  - destruct (ReadMsg_truncated Unmarshal codec.NewProtobufCodec 6 [8; 7]%Z
                [[0xab; 0xcd; 3; 0; 0; 0]%Z] 6)
      as (e & Hrd & _ & Hiff); [by vm_compute|simpl; lia|done|simpl; lia|].
    destruct Hiff as [_ Hiff]. rewrite Hiff in Hrd by (by right). done.
Defined.

(** ** The agent: Join and ForwardJoin *)

Section JoinExtras.
Import arraymap message agent.


End JoinExtras.

Section ForwardJoinExtras.
Import arraymap message agent.

End ForwardJoinExtras.



(** ** The agent: ShuffleReply *)

Section ShuffleReplyExtras.
Import arraymap message agent.


End ShuffleReplyExtras.


(** ** The agent: Join and Broadcast *)

Section JoinCallExtras.
Import arraymap message agent.




End JoinCallExtras.


Section BroadcastExtras.
Import arraymap message agent.
Variable sha1_Sum : list Z → Hash.



End BroadcastExtras.


(** ** The agent: samples of a view *)

Section SampleExtras.
Import arraymap message agent.


End SampleExtras.


(** ** config.go: the shuffle of the peer list *)

Section ShufflePeersExtras.
Import config.
Context {A : Type}.
Implicit Types (l orig : list A).

Lemma swap_perm i j l : swap i j l ≡ₚ l.
Proof.
  unfold swap. destruct (l !! i) as [x|] eqn:Hi; [|done].
  destruct (l !! j) as [y|] eqn:Hj; [|done].
  by apply Permutation_insert_swap.
Qed.

Lemma swap_length i j l : length (swap i j l) = length l.
Proof. apply Permutation_length, swap_perm. Qed.

Lemma swap_lookup i j l k :
  i < length l → j < length l →
  swap i j l !! k
  = if decide (k = i) then l !! j
    else if decide (k = j) then l !! i else l !! k.
Proof.
  intros Hi Hj. unfold swap.
  destruct (lookup_lt_is_Some_2 l i Hi) as [x Hx].
  destruct (lookup_lt_is_Some_2 l j Hj) as [y Hy].
  rewrite Hx, Hy.
  destruct (decide (k = i)) as [->|Hki].
  - rewrite list_lookup_insert_eq; [done|]. by rewrite length_insert.
  - rewrite list_lookup_insert_ne by done.
    destruct (decide (k = j)) as [->|Hkj].
    + by rewrite list_lookup_insert_eq.
    + by rewrite list_lookup_insert_ne.
Qed.

Lemma shuffle_from_perm rand idxs : ∀ draws l,
  shuffle_from rand draws idxs l ≡ₚ l.
Proof.
  induction idxs as [|i idxs IH]; intros draws l; simpl; [done|].
  destruct (decide (i = 0)); [apply IH|].
  rewrite IH. apply swap_perm.
Qed.

(** [ShufflePeers] gives the peers back, each as often as it was given,
    in some order. *)
Theorem ShufflePeers_perm rand (peers : list A) :
  ShufflePeers rand peers ≡ₚ peers ∧
  length (ShufflePeers rand peers) = length peers.
Proof.
  assert (Hp : ShufflePeers rand peers ≡ₚ peers) by apply shuffle_from_perm.
  split; [done|]. by apply Permutation_length.
Qed.

(** The state of the loop before index [m]: the slots from [m] on are
    untouched, and below [m] the elements have been moved around in one
    cycle: a set of them that is closed under "who sits in my place" is
    all of them. *)
Lemma shuffle_from_cycle rand orig k : ∀ m draws l,
  m + k = length orig → 1 ≤ m →
  l ≡ₚ orig →
  (∀ i, m ≤ i → l !! i = orig !! i) →
  (∀ S : A → bool,
     (∃ i x, i < m ∧ orig !! i = Some x ∧ S x = true) →
     (∀ i x y, i < m → orig !! i = Some x → l !! i = Some y → S x = S y) →
     ∀ i x, i < m → orig !! i = Some x → S x = true) →
  let l' := shuffle_from rand draws (seq m k) l in
  l' ≡ₚ orig ∧
  ∀ S : A → bool,
    (∃ i x, orig !! i = Some x ∧ S x = true) →
    (∀ i x y, orig !! i = Some x → l' !! i = Some y → S x = S y) →
    ∀ i x, orig !! i = Some x → S x = true.
Proof.
  induction k as [|k IH]; intros m draws l Hmk Hm Hperm Hrest Hcyc.
  - simpl. split; [done|]. intros S (i & x & Hi & HS) Hclosed i' x' Hi'.
    assert (Hlt : ∀ j y, orig !! j = Some y → j < m).
    { intros j y Hj%lookup_lt_Some. lia. }
    eapply (Hcyc S); [|intros; by eapply Hclosed| |done].
    + exists i, x. split_and!; [by eapply Hlt|done..].
    + by eapply Hlt.
  - simpl. rewrite decide_False by lia.
    set (j := rand draws `mod` m).
    assert (Hj : j < m) by (apply Nat.mod_upper_bound; lia).
    pose proof (Permutation_length Hperm) as Hlen.
    apply IH; [lia|lia| | |].
    + by rewrite swap_perm.
    + intros i Hi. rewrite swap_lookup by lia.
      rewrite decide_False by lia. rewrite decide_False by lia.
      apply Hrest. lia.
    + intros S (i0 & x0 & Hi0 & Hx0 & HS0) Hclosed'.
      destruct (lookup_lt_is_Some_2 orig m) as [z Hz]; [lia|].
      destruct (lookup_lt_is_Some_2 orig j) as [xj Hxj]; [lia|].
      destruct (lookup_lt_is_Some_2 l j) as [yj Hyj]; [lia|].
      assert (Hlm : l !! m = Some z) by (by rewrite Hrest).
      assert (Hjz : S xj = S z).
      { apply (Hclosed' j); [lia|done|].
        rewrite swap_lookup by lia. rewrite decide_False by lia.
        by rewrite decide_True. }
      assert (Hzy : S z = S yj).
      { apply (Hclosed' m); [lia|done|].
        rewrite swap_lookup by lia. by rewrite decide_True. }
      assert (Hclosed : ∀ i x y, i < m → orig !! i = Some x →
                                 l !! i = Some y → S x = S y).
      { intros i x y Hi Hx Hy. destruct (decide (i = j)) as [->|Hne].
        - assert (x = xj) as -> by congruence.
          assert (y = yj) as -> by congruence. congruence.
        - apply (Hclosed' i); [lia|done|].
          rewrite swap_lookup by lia. rewrite decide_False by lia.
          by rewrite decide_False. }
      destruct (S z) eqn:HSz.
      * intros i x Hi Hx. destruct (decide (i = m)) as [->|Hne].
        -- congruence.
        -- apply (Hcyc S) with i; [|done|lia|done].
           exists j, xj. split_and!; [done|done|congruence].
      * exfalso.
        assert (Hi0' : i0 < m).
        { destruct (decide (i0 = m)) as [->|]; [|lia]. congruence. }
        assert (S xj = true); [|congruence].
        apply (Hcyc S) with j; [|done|done|done].
        by exists i0, x0.
Qed.

(** [ShufflePeers] draws the partner of slot [i] among the slots below
    [i], never [i] itself: the peers are moved around in one cycle, so
    that, with at least two distinct peers, no peer keeps its place
    (two peers are always exchanged). *)
Theorem ShufflePeers_moves_all `{EqDecision A} rand (peers : list A) :
  NoDup peers → 2 ≤ length peers →
  ∀ i x, peers !! i = Some x → ShufflePeers rand peers !! i ≠ Some x.
Proof.
  intros Hnd Hlen i x Hi Hfix. unfold ShufflePeers in Hfix.
  destruct (length peers) as [|n] eqn:Hn; [lia|].
  rewrite <- cons_seq in Hfix. simpl in Hfix.
  destruct (shuffle_from_cycle rand peers n 1 0 peers) as [Hperm Hcyc];
    [lia|lia|done|done| |].
  { intros S (i0 & x0 & Hi0 & Hx0 & HS0) _ i1 x1 Hi1 Hx1.
    assert (i0 = 0) as -> by lia. assert (i1 = 0) as -> by lia. congruence. }
  simpl in Hperm, Hcyc.
  set (l' := shuffle_from rand 0 (seq 1 n) peers) in *.
  assert (Hnd' : NoDup l') by (by rewrite Hperm).
  assert (Hall : ∀ k a, peers !! k = Some a →
                        bool_decide (a = x) = true).
  { apply (Hcyc (λ y, bool_decide (y = x))).
    - exists i, x. split; [done|]. by apply bool_decide_eq_true.
    - intros k a b Ha Hb.
      destruct (decide (a = x)) as [->|Hax].
      + assert (k = i) as -> by (by eapply (NoDup_lookup peers)).
        assert (b = x) as -> by congruence. done.
      + rewrite (bool_decide_eq_false_2 (a = x)) by done.
        symmetry. apply bool_decide_eq_false. intros ->.
        assert (k = i) as -> by (by eapply (NoDup_lookup l')). congruence. }
  destruct (lookup_lt_is_Some_2 peers 0) as [a Ha]; [lia|].
  destruct (lookup_lt_is_Some_2 peers 1) as [b Hb]; [lia|].
  apply Hall in Ha as Ha'. apply Hall in Hb as Hb'.
  apply bool_decide_eq_true in Ha', Hb'. subst a b.
  assert (0 = 1) by (by eapply (NoDup_lookup peers)). lia.
Qed.
End ShufflePeersExtras.

(** A run of [ShufflePeers_moves_all]: of two bootstrap peers, the
    first does not stay first. *)
Lemma ShufflePeers_moves_all_witness :
  config.ShufflePeers (λ _, 5) ["10.0.0.1:8424"; "10.0.0.2:8424"] !! 0
  ≠ Some "10.0.0.1:8424".
Proof.
  apply (ShufflePeers_moves_all (λ _, 5) ["10.0.0.1:8424"; "10.0.0.2:8424"]).
  - apply (bool_decide_unpack _). by vm_compute.
  - simpl. lia.
  - reflexivity.
Defined.

(** ** The agent: failed sends, and the shuffle tick *)

Section ResendExtras.
Import arraymap message agent agent_msg.
Variable sha1_Sum : list Z → Hash.

Lemma for_each_send (msg : UserMessage) nds : ∀ e w,
  for_each nds (λ nd, emit (GoUserMessage nd msg)) e w
  = Done (tt, MkWorld (w_ag w) (w_draws w)
                (w_trace w ++ ((λ nd, GoUserMessage nd msg) <$> nds))).
Proof.
  induction nds as [|nd nds IH]; intros e w; simpl.
  - rewrite app_nil_r. by destruct w.
  - unfold mbind, M_bind. simpl. rewrite IH. simpl.
    by rewrite <- app_assoc.
Qed.

Lemma for_each_resend (nds : list Node) (ms : list UserMessage) : ∀ e w,
  for_each ms (λ msg, for_each nds (λ nd, emit (GoUserMessage nd msg))) e w
  = Done (tt, MkWorld (w_ag w) (w_draws w)
                (w_trace w ++ concat ((λ msg, (λ nd, GoUserMessage nd msg)
                                               <$> nds) <$> ms))).
Proof.
  induction ms as [|m ms IH]; intros e w; simpl.
  - rewrite app_nil_r. by destruct w.
  - unfold mbind, M_bind. rewrite for_each_send. rewrite IH. simpl.
    by rewrite <- app_assoc.
Qed.

(** A user message that could not be written is kept under the hash of
    its payload (one entry per payload, the latest message), and the
    connection is closed; the next [resendFailedMessages] empties the
    buffer and starts a send of every kept message to every node of the
    active view.  A message that was written leaves no trace. *)
Theorem failed_message_resent nd msg e w :
  wf (failmsgBuffer (w_ag w)) →
  let ag := w_ag w in
  let hash := hashMessage sha1_Sum (UserMessage_Payload msg) in
  userMessage sha1_Sum nd msg false e w = Done (tt, w) ∧
  ∃ w1 w2,
    userMessage sha1_Sum nd msg true e w = Done (tt, w1) ∧
    keeps_config ag (w_ag w1) ∧
    aView (w_ag w1) = aView ag ∧ pView (w_ag w1) = pView ag ∧
    msgBuffer (w_ag w1) = msgBuffer ag ∧
    w_trace w1 = w_trace w ++ [ConnClose nd] ∧
    stored hash msg (failmsgBuffer (w_ag w1)) ∧
    (∀ h m, h ≠ hash →
            stored h m (failmsgBuffer (w_ag w1))
            ↔ stored h m (failmsgBuffer ag)) ∧
    Len (failmsgBuffer (w_ag w1))
    = Len (failmsgBuffer ag)
      + (if Has hash (failmsgBuffer ag) then 0 else 1) ∧
    msg ∈ Values (failmsgBuffer (w_ag w1)) ∧
    resendFailedMessages e w1 = Done (tt, w2) ∧
    Len (failmsgBuffer (w_ag w2)) = 0 ∧
    aView (w_ag w2) = aView ag ∧ pView (w_ag w2) = pView ag ∧
    w_trace w2
    = w_trace w1
      ++ concat ((λ m, (λ nd', GoUserMessage nd' m) <$> Values (aView ag))
                 <$> Values (failmsgBuffer (w_ag w1))).
Proof.
  intros Hwf ag hash. subst ag. split; [done|].
  unfold userMessage. fold hash.
  rewrite (bind_Done _ _ _ _ _ _ (get_eq e w)).
  destruct (Add_stored _ hash msg Hwf) as (b & old & Hadd & Hwfb & Hst).
  destruct (Add_spec _ hash msg Hwf) as (b' & old' & Hadd' & _ & _ & Hlen).
  rewrite Hadd in Hadd'. injection Hadd' as <- <-.
  unfold Append. rewrite Hadd. simpl.
  unfold mbind at 1, M_bind at 1. simpl.
  unfold mbind at 1, M_bind at 1. simpl.
  set (ag1 := MkAgent (id (w_ag w)) (cfg (w_ag w)) (aView (w_ag w))
                (pView (w_ag w)) (msgBuffer (w_ag w)) b).
  set (w1 := MkWorld ag1 (w_draws w) (w_trace w ++ [ConnClose nd])).
  exists w1.
  exists (MkWorld (MkAgent (id ag1) (cfg ag1) (aView ag1) (pView ag1)
                     (msgBuffer ag1) (RemoveAll b)) (w_draws w)
            (w_trace w1
             ++ concat ((λ m, (λ nd', GoUserMessage nd' m)
                              <$> Values (aView (w_ag w))) <$> Values b))).
  split; [done|]. simpl.
  assert (Hin : stored hash msg b) by (apply Hst; by right).
  split_and!; try done.
  - intros h m Hne. rewrite Hst. split; [|by left].
    intros [[? _]|[? _]]; done.
  - unfold Values. rewrite <- (values_entries b Hwfb).
    apply stored_entries in Hin; [|done].
    apply list_elem_of_fmap. by exists (hash, msg).
  - unfold resendFailedMessages.
    rewrite (bind_Done _ _ _ _ _ _ (get_eq e _)). simpl.
    unfold mbind at 1, M_bind at 1. simpl.
    by rewrite for_each_resend.
Qed.
End ResendExtras.

Section ShuffleTickExtras.
Import arraymap message agent agent_msg shuffling.

(** [makeShuffleList] with non-negative [Ka] and [Kp]. *)
Lemma makeShuffleList_total e w :
  length (keys (aView (w_ag w))) = length (values (aView (w_ag w))) →
  length (keys (pView (w_ag w))) = length (values (pView (w_ag w))) →
  (0 ≤ Ka (cfg (w_ag w)))%Z → (0 ≤ Kp (cfg (w_ag w)))%Z →
  ∃ a p w',
    makeShuffleList e w
    = Done (MkCandidate (id (w_ag w)) (AddrStr (cfg (w_ag w))) :: a ++ p, w') ∧
    w_ag w' = w_ag w ∧ w_trace w' = w_trace w ∧
    length a = Z.to_nat (Ka (cfg (w_ag w))) `min` Len (aView (w_ag w)) ∧
    length p = Z.to_nat (Kp (cfg (w_ag w))) `min` Len (pView (w_ag w)) ∧
    (∀ c, c ∈ a → ∃ n, n ∈ Values (aView (w_ag w)) ∧
                       c = MkCandidate (Id n) (Addr n)) ∧
    (∀ c, c ∈ p → ∃ n, n ∈ Values (pView (w_ag w)) ∧
                       c = MkCandidate (Id n) (Addr n)).
Proof.
  intros Hla Hlp HKa HKp. unfold makeShuffleList.
  rewrite (bind_Done _ _ _ _ _ _ (get_eq e w)). simpl.
  rewrite decide_False by lia.
  destruct (chooseRandomCandidates_total (aView (w_ag w))
              (Z.to_nat (Ka (cfg (w_ag w)))) e w Hla)
    as (a & Ha & Hlena & Hfroma).
  rewrite Z2Nat.id in Ha by done.
  rewrite (bind_Done _ _ _ _ _ _ Ha).
  set (w2 := MkWorld (w_ag w)
                (if decide (Len (aView (w_ag w)) = 0) then w_draws w
                 else S (w_draws w)) (w_trace w)) in *.
  destruct (chooseRandomCandidates_total (pView (w_ag w))
              (Z.to_nat (Kp (cfg (w_ag w)))) e w2 Hlp)
    as (p & Hp & Hlenp & Hfromp).
  rewrite Z2Nat.id in Hp by done.
  rewrite (bind_Done _ _ _ _ _ _ Hp). simpl.
  exists a, p. eexists. split; [done|]. simpl. by split_and!.
Qed.

(** One tick of the shuffle loop.  Without active nodes nothing is
    sent.  Otherwise (a random active node can be chosen) a Shuffle goes
    to a node of the active view; it names the agent as sender and as
    source, has ttl SRWL, and its candidates are the agent itself, then
    min(Ka, |active|) nodes of the active view, then min(Kp, |passive|)
    nodes of the passive view.  The agent is left as it was. *)
Theorem shuffle_tick_spec e w :
  view_ok (aView (w_ag w)) →
  length (keys (pView (w_ag w))) = length (values (pView (w_ag w))) →
  (0 ≤ Ka (cfg (w_ag w)))%Z → (0 ≤ Kp (cfg (w_ag w)))%Z →
  let ag := w_ag w in
  (Len (aView ag) = 0 → shuffle_tick e w = Done (None, w)) ∧
  (1 ≤ Len (aView ag) →
   (2 ≤ Len (aView ag) ∨ 0%N ∉ keys (aView ag)) →
   ∃ nd a p w',
     shuffle_tick e w
     = Done (Some (nd, MkShuffle (id ag) (id ag) (AddrStr (cfg ag))
                         (MkCandidate (id ag) (AddrStr (cfg ag)) :: a ++ p)
                         (Z.to_N (binary.to_uint32 (SRWL (cfg ag))))), w') ∧
     w_ag w' = ag ∧ w_trace w' = w_trace w ∧
     nd ∈ Values (aView ag) ∧
     length a = Z.to_nat (Ka (cfg ag)) `min` Len (aView ag) ∧
     length p = Z.to_nat (Kp (cfg ag)) `min` Len (pView ag) ∧
     (∀ c, c ∈ a → ∃ n, n ∈ Values (aView ag) ∧
                        c = MkCandidate (Id n) (Addr n)) ∧
     (∀ c, c ∈ p → ∃ n, n ∈ Values (pView ag) ∧
                        c = MkCandidate (Id n) (Addr n))).
Proof.
  intros Hoka Hlp HKa HKp ag. subst ag. unfold shuffle_tick.
  rewrite (bind_Done _ _ _ _ _ _ (get_eq e w)). split.
  - intros H0. by rewrite decide_True.
  - intros H1 Hev. rewrite decide_False by lia.
    destruct (choose_victim _ e w Hoka H1 Hev) as (nd & Hch & Hin & _).
    rewrite (bind_Done _ _ _ _ _ _ Hch).
    pose proof Hoka as [[Hla _] _].
    destruct (makeShuffleList_total e
                (MkWorld (w_ag w) (S (w_draws w)) (w_trace w)))
      as (a & p & w' & Hmk & Hag & Htr & Hrest); try done.
    rewrite (bind_Done _ _ _ _ _ _ Hmk). simpl in *.
    destruct Hrest as (Hlena & Hlenp & Hfa & Hfp).
    exists nd, a, p, w'. split; [reflexivity|]. by split_and!.
Qed.
End ShuffleTickExtras.

(** A run of [failed_message_resent]: the write to the only neighbor
    fails; the message is kept and sent again to that neighbor. *)
Lemma failed_message_resent_witness :
  let e := agent.MkEnv (λ _, 0) 10 in
  let n7 := agent.MkNode 7 "10.0.0.7:8424" (Some 1) in
  let msg := message.MkUserMessage 42 [104; 105]%Z 1000000000 in
  ∃ w0 w1 w2,
    agent.addNodeActiveView n7 e (agent.start config.default 42)
    = agent.Done (tt, w0) ∧
    agent.userMessage (λ p, p) n7 msg true e w0 = agent.Done (tt, w1) ∧
    agent.resendFailedMessages e w1 = agent.Done (tt, w2) ∧
    agent.w_trace w2
    = agent.w_trace w0
      ++ [agent.ConnClose n7; agent.GoUserMessage n7 msg].
Proof.
  intros e n7 msg.
  destruct (agent.addNodeActiveView n7 e (agent.start config.default 42))
    as [[[] w0]| |] eqn:Hrun0; [|by vm_compute in Hrun0..].
  pose proof Hrun0 as Hc. vm_compute in Hc. injection Hc as Hw0.
  destruct (failed_message_resent (λ p, p) n7 msg e w0)
    as (_ & w1 & w2 & Hu & _ & _ & _ & _ & Ht1 & _ & _ & _ & _ & Hr & _ & _
        & _ & Ht2).
  - rewrite <- Hw0. apply wf_NewArrayMap.
  - exists w0, w1, w2. split_and!; [done..|].
    rewrite Ht2, Ht1.
    destruct (agent.userMessage (λ p, p) n7 msg true e w0)
      as [[[] w1']| |] eqn:Hrun1; [|done..].
    injection Hu as ->. rewrite <- Hw0 in Hrun1.
    vm_compute in Hrun1. injection Hrun1 as Hw1.
    rewrite <- Hw1. rewrite <- Hw0. by vm_compute.
Defined.

(** A run of [shuffle_tick_spec]: with one neighbor and an empty passive
    view the Shuffle goes to the neighbor and carries the agent and the
    neighbor. *)
Lemma shuffle_tick_spec_witness :
  let e := agent.MkEnv (λ _, 0) 10 in
  let n7 := agent.MkNode 7 "10.0.0.7:8424" (Some 1) in
  ∃ w0 w1 sh,
    agent.addNodeActiveView n7 e (agent.start config.default 42)
    = agent.Done (tt, w0) ∧
    shuffling.shuffle_tick e w0 = agent.Done (Some (n7, sh), w1) ∧
    message.Shuffle_Candidates sh
    = [message.MkCandidate 42 ":8424";
       message.MkCandidate 7 "10.0.0.7:8424"].
Proof.
  intros e n7.
  destruct (addNodeActiveView_total n7 e (agent.start config.default 42))
    as (w0 & Hrun0 & [Hid Hcf] & Hoka & Hokp & Hb & _).
  { apply view_ok_NewArrayMap. }
  { apply view_ok_NewArrayMap. }
  { split; by vm_compute. }
  { left. by vm_compute. }
  { left. by vm_compute. }
  { simpl. lia. }
  pose proof Hrun0 as Hc. vm_compute in Hc. injection Hc as Hw0.
  destruct (shuffle_tick_spec e w0) as [_ Hsend].
  - exact Hoka.
  - by destruct Hokp as [[? _] _].
  - rewrite Hcf. by vm_compute.
  - rewrite Hcf. by vm_compute.
  - destruct Hsend as (nd & a & p & w1 & Hrun & _).
    + rewrite <- Hw0. by vm_compute.
    + right. rewrite <- Hw0. simpl. by intros [=]%list_elem_of_singleton.
    + pose proof Hrun as Hc2. rewrite <- Hw0 in Hc2. vm_compute in Hc2.
      injection Hc2 as Hnd Hcs Hw1.
      assert (Hn : n7 = nd) by exact Hnd.
      assert (Hl : [message.MkCandidate 7 "10.0.0.7:8424"] = a ++ p)
        by exact Hcs.
      exists w0, w1. eexists. split_and!; [done| |].
      * rewrite Hn. exact Hrun.
      * simpl. rewrite <- Hl, Hid, Hcf. reflexivity.
Defined.
